(** * Cash-flow forecast and seasonality engine

    A shallow embedding of [src/forecaster.py] (class [CashFlowForecaster])
    and [src/analyzer.py] (class [SeasonalAnalyzer]), together with the
    small part of pandas / numpy the two classes rely on.

    Numbers.  The Python code computes on IEEE doubles.  Finite doubles are
    idealised as exact rationals; the three special values the code can
    produce or test for ([np.inf], [-np.inf], [NaN]) are kept as separate
    constructors, with the IEEE rules for them.  Rounding, overflow and the
    sign of zero are not modelled.

    Effects.  Both classes keep the monthly frame in [self.data] and some
    methods assign to it; one method prints.  Methods are therefore written
    in a state-and-exception monad over the object's state. *)

From Stdlib Require Import QArith Qabs Lqa ZArith Lia.
From stdpp Require Import gmap strings list fin_maps.

Local Open Scope Z_scope.

(** ** Numbers *)

Module Num.

Inductive num : Type :=
| Fin (q : Q)
| PosInf
| NegInf
| NaN.

Definition of_Z (z : Z) : num := Fin (inject_Z z).
Definition of_nat (n : nat) : num := of_Z (Z.of_nat n).

Definition isna (a : num) : bool :=
  match a with NaN => true | _ => false end.

Definition notna (a : num) : bool := negb (isna a).

Definition isfinite (a : num) : bool :=
  match a with Fin _ => true | _ => false end.

Definition opp (a : num) : num :=
  match a with
  | Fin x => Fin (- x)
  | PosInf => NegInf
  | NegInf => PosInf
  | NaN => NaN
  end.

Definition add (a b : num) : num :=
  match a, b with
  | NaN, _ | _, NaN => NaN
  | Fin x, Fin y => Fin (x + y)
  | PosInf, NegInf | NegInf, PosInf => NaN
  | PosInf, _ | _, PosInf => PosInf
  | NegInf, _ | _, NegInf => NegInf
  end.

Definition sub (a b : num) : num := add a (opp b).

Definition abs (a : num) : num :=
  match a with
  | Fin x => Fin (Qabs x)
  | PosInf | NegInf => PosInf
  | NaN => NaN
  end.

(** [scale_inf s] is the product of an infinity of sign [+] with a finite
    factor [s]: the sign of [s] decides, and [inf * 0] is [NaN]. *)
Definition scale_inf (s : Q) : num :=
  match Qcompare s 0 with
  | Gt => PosInf
  | Lt => NegInf
  | Eq => NaN
  end.

Definition mul (a b : num) : num :=
  match a, b with
  | NaN, _ | _, NaN => NaN
  | Fin x, Fin y => Fin (x * y)
  | PosInf, Fin s | Fin s, PosInf => scale_inf s
  | NegInf, Fin s | Fin s, NegInf => opp (scale_inf s)
  | PosInf, PosInf | NegInf, NegInf => PosInf
  | PosInf, NegInf | NegInf, PosInf => NegInf
  end.

Definition div (a b : num) : num :=
  match a, b with
  | NaN, _ | _, NaN => NaN
  | Fin x, Fin y => if Qeq_bool y 0 then scale_inf x else Fin (x / y)
  | Fin _, (PosInf | NegInf) => Fin 0
  | PosInf, Fin s => if Qeq_bool s 0 then PosInf else scale_inf s
  | NegInf, Fin s => if Qeq_bool s 0 then NegInf else opp (scale_inf s)
  | (PosInf | NegInf), (PosInf | NegInf) => NaN
  end.

(** Comparisons: every comparison with [NaN] is false. *)
Definition leb (a b : num) : bool :=
  match a, b with
  | NaN, _ | _, NaN => false
  | NegInf, _ | _, PosInf => true
  | Fin x, Fin y => Qle_bool x y
  | _, _ => false
  end.

Definition eqb (a b : num) : bool :=
  match a, b with
  | Fin x, Fin y => Qeq_bool x y
  | PosInf, PosInf | NegInf, NegInf => true
  | _, _ => false
  end.

Definition ltb (a b : num) : bool := leb a b && negb (eqb a b).

Definition le (a b : num) : Prop := leb a b = true.

(** Equality up to the representation of the rational: the same number. *)
Definition same (a b : num) : Prop :=
  match a, b with
  | Fin x, Fin y => (x == y)%Q
  | PosInf, PosInf | NegInf, NegInf | NaN, NaN => True
  | _, _ => False
  end.

(** [np.sqrt] on the special values; on a finite argument it is [sqrtQ],
    the square root of the numeric library, left abstract. *)
Definition sqrt (sqrtQ : Q -> Q) (a : num) : num :=
  match a with
  | Fin x => if Qle_bool 0 x then Fin (sqrtQ x) else NaN
  | PosInf => PosInf
  | NegInf | NaN => NaN
  end.

(** [Series.sum()], [Series.mean()] and [Series.std()] of pandas: missing
    values are skipped; the mean of nothing is [0/0]; the standard
    deviation uses [ddof = 1] and is [NaN] below two observations. *)
Definition dropna (l : list num) : list num := List.filter notna l.

Definition sum (l : list num) : num := fold_left add l (Fin 0).

Definition mean (l : list num) : num :=
  let v := dropna l in div (sum v) (of_nat (length v)).

Definition sq (a : num) : num := mul a a.

Definition std (sqrtQ : Q -> Q) (l : list num) : num :=
  let v := dropna l in
  let n := length v in
  if (n <=? 1)%nat then NaN
  else
    let mu := mean v in
    let ss := sum (map (fun x => sq (sub x mu)) v) in
    sqrt sqrtQ (div ss (of_nat (n - 1))).

(** [Series.min()], [Series.max()] and [Series.count()]: over the values
    that are not missing. *)
Definition min (l : list num) : num :=
  match dropna l with
  | [] => NaN
  | x :: rest => fold_left (fun a b => if ltb b a then b else a) rest x
  end.

Definition max (l : list num) : num :=
  match dropna l with
  | [] => NaN
  | x :: rest => fold_left (fun a b => if ltb a b then b else a) rest x
  end.

Definition count (l : list num) : num := of_nat (length (dropna l)).

End Num.

Export Num.

Declare Scope num_scope.
Delimit Scope num_scope with num.
Bind Scope num_scope with num.
Infix "+" := Num.add : num_scope.
Infix "-" := Num.sub : num_scope.
Infix "*" := Num.mul : num_scope.
Infix "/" := Num.div : num_scope.
Infix "<=" := Num.le : num_scope.

(** ** Calendar: monthly periods and timestamps *)

(** A pandas [Period] of frequency [M] is its ordinal: the number of months
    since January 1970. *)
Definition Period : Type := Z.

Record Timestamp : Type := mkTimestamp
  { ts_year : Z; ts_month : Z; ts_day : Z }.

Definition period_year (p : Period) : Z := 1970 + p / 12.
Definition period_month (p : Period) : Z := p mod 12 + 1.

Definition is_leap (y : Z) : bool :=
  (y mod 4 =? 0) && (negb (y mod 100 =? 0) || (y mod 400 =? 0)).

Definition days_in_month (y m : Z) : Z :=
  if m =? 2 then (if is_leap y then 29 else 28)
  else if (m =? 4) || (m =? 6) || (m =? 9) || (m =? 11) then 30
  else 31.

(** [Period.to_timestamp()]: the first day of the month. *)
Definition to_timestamp (p : Period) : Timestamp :=
  mkTimestamp (period_year p) (period_month p) 1.

(** [Timestamp.to_period('M')]. *)
Definition to_period (t : Timestamp) : Period :=
  (ts_year t - 1970) * 12 + (ts_month t - 1).

(** [t + pd.DateOffset(months=k)]: the day is kept, clipped to the length
    of the month reached. *)
Definition add_months (t : Timestamp) (k : Z) : Timestamp :=
  let total := ts_year t * 12 + (ts_month t - 1) + k in
  let y := total / 12 in
  let m := total mod 12 + 1 in
  mkTimestamp y m (Z.min (ts_day t) (days_in_month y m)).

(** [t - pd.DateOffset(years=k)]. *)
Definition sub_years (t : Timestamp) (k : Z) : Timestamp :=
  add_months t (- (12 * k)).

Definition month_end (t : Timestamp) : Timestamp :=
  mkTimestamp (ts_year t) (ts_month t) (days_in_month (ts_year t) (ts_month t)).

(** [pd.date_range(start=start, periods=periods, freq='ME')]: the month end
    on or after [start], then the following month ends. *)
Definition date_range_ME (start : Timestamp) (periods : nat) : list Timestamp :=
  map (fun i => month_end (add_months start (Z.of_nat i))) (seq 0 periods).

(** ** Frames *)

(** The monthly frame handed to the engine: the [year_month] column of
    periods, and the numeric columns by name (among them [month], when it
    has been derived). *)
Record MonthlyData : Type := mkMonthlyData
  { year_month : list Period;
    fields : gmap string (list num) }.

(** A frame is well formed when every column has one cell per row. *)
Definition wf_data (d : MonthlyData) : Prop :=
  forall c v, fields d !! c = Some v -> length v = length (year_month d).

(** A forecast frame: the [date] column, the [method] label (one string
    repeated on every row) and the numeric columns by name: [forecast],
    and whatever the ensemble and the post-processing steps add.  The
    position of a column in the frame is not kept: the methods read and
    assign columns by name only, and two frames that differ in the order
    of their columns only are the same frame here. *)
Record ForecastFrame : Type := mkForecastFrame
  { date : list Timestamp;
    method : string;
    cols : gmap string (list num) }.

(** [year_month.dt.month]: the calendar month, 1 to 12, of every row. *)
Definition dt_month (periods : list Period) : list num :=
  map (fun p => of_Z (period_month p)) periods.

(** [Series.min()] of a column of periods; [None] stands for [NaT]. *)
Definition period_min (l : list Period) : option Period :=
  match l with
  | [] => None
  | p :: rest => Some (fold_left Z.min rest p)
  end.

(** [df[name] = values] *)
Definition set_col (name : string) (values : list num) (df : ForecastFrame)
  : ForecastFrame :=
  mkForecastFrame (date df) (method df) (<[name := values]> (cols df)).

(** [frame[mask]] followed by the choice of one column: the cells of
    [values] on the rows where [mask] holds. *)
Definition select {A : Type} (mask : list bool) (values : list A) : list A :=
  map snd (List.filter fst (combine mask values)).

(** [Series.rolling(window=window).mean()]: entry [i] averages the
    [window] observations ending at [i], and is missing when fewer are
    available or one of them is missing.  (pandas turns the infinities of
    the column into missing values before a rolling aggregation.) *)
Definition rolling_mean (window : nat) (l : list num) : list num :=
  map (fun i =>
         if (i + 1 <? window)%nat then NaN
         else
           let w := firstn window (skipn (i + 1 - window) l) in
           if forallb Num.isfinite w then (Num.sum w / of_nat window)%num
           else NaN)
      (seq 0 (length l)).

(** [Series.iloc[-1]] *)
Definition iloc_last {A : Type} (l : list A) : option A := last l.

(** Element-wise arithmetic of two numpy arrays of one dimension: equal
    shapes combine cell by cell, a single cell is broadcast, any other
    pair of shapes is an error. *)
Definition np_binop (f : num -> num -> num) (xs ys : list num)
  : option (list num) :=
  if (length xs =? length ys)%nat then Some (zip_with f xs ys)
  else match xs, ys with
       | [x], _ => Some (map (f x) ys)
       | _, [y] => Some (map (fun x => f x y) xs)
       | _, _ => None
       end.

(** ** Exceptions, state and the method monad *)

Inductive exn : Type :=
| KeyError (key : string)
| IndexError
| ValueError (msg : string)
| LibraryError (msg : string).

Inductive result (A : Type) : Type :=
| Ok (a : A)
| Raise (e : exn).
Arguments Ok {A} a.
Arguments Raise {A} e.

(** A method of an object with state [S]: it returns or raises, and in both
    cases leaves a state behind. *)
Definition M (S A : Type) : Type := S -> S * result A.

Definition ret {S A : Type} (a : A) : M S A := fun s => (s, Ok a).

Definition bind {S A B : Type} (m : M S A) (k : A -> M S B) : M S B :=
  fun s => match m s with
           | (s', Ok a) => k a s'
           | (s', Raise e) => (s', Raise e)
           end.

Definition raise {S A : Type} (e : exn) : M S A := fun s => (s, Raise e).

Definition get {S : Type} : M S S := fun s => (s, Ok s).

Definition modify {S : Type} (f : S -> S) : M S unit := fun s => (f s, Ok tt).

(** [try: body except Exception as e: handler(e)] *)
Definition try_except {S A : Type} (body : M S A) (handler : exn -> M S A)
  : M S A :=
  fun s => match body s with
           | (s', Ok a) => (s', Ok a)
           | (s', Raise e) => handler e s'
           end.

Definition lift_option {S A : Type} (e : exn) (o : option A) : M S A :=
  match o with Some a => ret a | None => raise e end.

Declare Scope method_scope.
Delimit Scope method_scope with method.
Notation "'do' x <- c1 ; c2" := (bind c1 (fun x => c2))
  (at level 10, x name, c1 at level 100, c2 at level 200) : method_scope.
Notation "c1 ;; c2" := (bind c1 (fun _ => c2))
  (at level 100, c2 at level 200, right associativity) : method_scope.
Local Open Scope method_scope.

(** A [for] loop that collects one value per item. *)
Fixpoint for_each {S A B : Type} (body : A -> M S B) (items : list A)
  : M S (list B) :=
  match items with
  | [] => ret []
  | x :: rest =>
      do v <- body x;
      do vs <- for_each body rest;
      ret (v :: vs)
  end.


(** ** The forecaster: [class CashFlowForecaster] *)

Module CashFlowForecaster.

(** The state a forecaster method runs in: [self.data] and the standard
    output of the process.  ([self.forecasts] and [self.model_performance]
    are set to empty dictionaries by [__init__] and never used again.) *)
Record state : Type := mkForecaster
  { data : MonthlyData;
    stdout : list string }.

(** [self.data[column]] *)
Definition data_getitem (column : string) : M state (list num) :=
  do s <- get;
  lift_option (KeyError column) (fields (data s) !! column).

(** [forecast_df[column]] *)
Definition frame_getitem {S : Type} (df : ForecastFrame) (column : string)
  : M S (list num) :=
  lift_option (KeyError column) (cols df !! column).

(** [self.data['month'] = values] *)
Definition assign_month (values : list num) (s : state) : state :=
  mkForecaster
    (mkMonthlyData (year_month (data s)) (<["month" := values]> (fields (data s))))
    (stdout s).

(** [print(line)] *)
Definition print (line : string) : M state unit :=
  modify (fun s => mkForecaster (data s) (stdout s ++ [line])).

(** The dates every variant forecasts for: the [periods] month ends that
    follow [last_date + pd.DateOffset(months=1)]. *)
Definition dates_after (last : Period) (periods : nat) : list Timestamp :=
  let last_date := to_timestamp last in
  date_range_ME (add_months last_date 1) periods.

(** A fitted model of statsmodels, as the method [forecast] it has: from
    the number of steps to an error message or to the predictions, by
    step. *)
Definition HoltWinters : Type := nat -> string + (nat -> num).

Definition Q_1_28 : Q := 128 # 100.
Definition Q_1_96 : Q := 196 # 100.

Section Forecaster.

(** The two library routines the class calls and that are not modelled:
    the square root of numpy on a finite non-negative number, and
    [ExponentialSmoothing(ts, trend='add', seasonal='add',
    seasonal_periods=12).fit()] of statsmodels.  A fit either raises, with a
    message, or yields a fitted model.  The model is given by its method
    [forecast]: [model.forecast(steps)] either raises, with a message, or
    yields one prediction for each of the steps [1] to [steps], given by
    the prediction at step [k]. *)
Variable sqrtQ : Q -> Q.
Variable holt_winters_fit : list num -> string + HoltWinters.

Definition moving_average_forecast (column : string) (window periods : nat)
  : M state ForecastFrame :=
  do col <- data_getitem column;
  let ma := rolling_mean window col in
  do last_ma <- lift_option IndexError (iloc_last ma);
  let forecast_vals := replicate periods last_ma in
  do s <- get;
  do last <- lift_option IndexError (iloc_last (year_month (data s)));
  let forecast_dates := dates_after last periods in
  ret (mkForecastFrame forecast_dates "Moving Average"
         {["forecast" := forecast_vals]}).

(** The body of the loop of [seasonal_naive_forecast], for one date. *)
Definition seasonal_naive_value (column : string) (date : Timestamp)
  : M state num :=
  do s <- get;
  let target := to_period (sub_years date 1) in
  do col <- data_getitem column;
  let last_year_val :=
    select (map (fun p => p =? target) (year_month (data s))) col in
  match last_year_val with
  | v :: _ => ret v
  | [] =>
      do month <- data_getitem "month";
      do col <- data_getitem column;
      ret (Num.mean
             (select (map (fun m => Num.eqb m (of_Z (ts_month date))) month) col))
  end.

Definition seasonal_naive_forecast (column : string) (periods : nat)
  : M state ForecastFrame :=
  do s <- get;
  (match fields (data s) !! "month" with
   | Some _ => ret tt
   | None =>
       modify (assign_month (dt_month (year_month (data s))))
   end);;
  do s <- get;
  do last <- lift_option IndexError (iloc_last (year_month (data s)));
  let forecast_dates := dates_after last periods in
  do forecast_vals <- for_each (seasonal_naive_value column) forecast_dates;
  ret (mkForecastFrame forecast_dates "Seasonal Naive"
         {["forecast" := forecast_vals]}).

(** [str(e)] *)
Definition exn_message (e : exn) : string :=
  match e with
  | LibraryError m | ValueError m | KeyError m => m
  | IndexError => "IndexError"
  end.

Definition exponential_smoothing_forecast (column : string) (periods : nat)
  : M state ForecastFrame :=
  do s <- get;
  (* on an empty frame the minimum is NaT, and no range starts at NaT *)
  do first <- lift_option (ValueError "NaT") (period_min (year_month (data s)));
  let start_date := to_timestamp first in
  do values <- data_getitem column;
  let n := length (year_month (data s)) in
  let index := date_range_ME start_date n in
  (if (length values =? length index)%nat then ret tt
   else raise (ValueError "Length of values does not match length of index"));;
  try_except
    (match holt_winters_fit values with
     | inl msg => raise (LibraryError msg)
     | inr model =>
         match model periods with
         | inl msg => raise (LibraryError msg)
         | inr forecast =>
             let forecast_index :=
               date_range_ME (add_months start_date (Z.of_nat n)) periods in
             let forecast_values := map forecast (seq 1 periods) in
             ret (mkForecastFrame forecast_index "Exponential Smoothing"
                    {["forecast" := forecast_values]})
         end
     end)
    (fun e =>
       print ("Exponential smoothing failed: " +:+ exn_message e
              +:+ ". Falling back.");;
       seasonal_naive_forecast column periods).

Definition ensemble_forecast (column : string) (periods : nat)
  : M state ForecastFrame :=
  do ma_f <- moving_average_forecast column 3 periods;
  do seasonal_f <- seasonal_naive_forecast column periods;
  do es_f <- exponential_smoothing_forecast column periods;
  do ma <- frame_getitem ma_f "forecast";
  do sn <- frame_getitem seasonal_f "forecast";
  do s1 <- lift_option (ValueError "operands could not be broadcast together")
             (np_binop Num.add ma sn);
  do es <- frame_getitem es_f "forecast";
  do s2 <- lift_option (ValueError "operands could not be broadcast together")
             (np_binop Num.add s1 es);
  let ensemble_vals := map (fun x => (x / of_Z 3)%num) s2 in
  do ma' <- frame_getitem ma_f "forecast";
  do sn' <- frame_getitem seasonal_f "forecast";
  do es' <- frame_getitem es_f "forecast";
  ret (mkForecastFrame (date ma_f) "Ensemble"
         (<["es_forecast" := es']>
            (<["seasonal_forecast" := sn']>
               (<["ma_forecast" := ma']>
                  {["forecast" := ensemble_vals]})))).

(** [forecast_df[name] = forecast_df['forecast'] op k * hist_std] *)
Definition assign_band (name : string) (op : num -> num -> num) (k : Q)
    (hist_std : num) (forecast_df : ForecastFrame) : M state ForecastFrame :=
  do f <- frame_getitem forecast_df "forecast";
  ret (set_col name (map (fun x => op x (Fin k * hist_std)%num) f) forecast_df).

(** The frame passed in is updated in place and returned: the frame
    returned here is the state of that one object after the call.  An
    exception can only come from the first two look-ups, before any
    assignment. *)
Definition calculate_confidence_intervals (forecast_df : ForecastFrame)
    (column : string) : M state ForecastFrame :=
  do col <- data_getitem column;
  let hist_std := Num.std sqrtQ col in
  do forecast_df <- assign_band "lower_80" Num.sub Q_1_28 hist_std forecast_df;
  do forecast_df <- assign_band "upper_80" Num.add Q_1_28 hist_std forecast_df;
  do forecast_df <- assign_band "lower_95" Num.sub Q_1_96 hist_std forecast_df;
  do forecast_df <- assign_band "upper_95" Num.add Q_1_96 hist_std forecast_df;
  ret forecast_df.

(** A Python dictionary from scenario name to multiplier, as the list of
    its items in insertion order; its keys are distinct. *)
Definition Scenarios : Type := list (string * num).

Definition default_scenarios : Scenarios :=
  [("pessimistic", Fin (8 # 10)); ("optimistic", Fin (12 # 10));
   ("conservative", Fin (9 # 10))].

Definition scenario_step (forecast_df : ForecastFrame) (item : string * num)
  : M state ForecastFrame :=
  let '(name, multiplier) := item in
  do f <- frame_getitem forecast_df "forecast";
  ret (set_col (name +:+ "_forecast") (map (fun x => (x * multiplier)%num) f)
         forecast_df).

Fixpoint scenario_loop (forecast_df : ForecastFrame) (items : Scenarios)
  : M state ForecastFrame :=
  match items with
  | [] => ret forecast_df
  | item :: rest =>
      do forecast_df <- scenario_step forecast_df item;
      scenario_loop forecast_df rest
  end.

Definition scenario_analysis (forecast_df : ForecastFrame)
    (scenarios : option Scenarios) : M state ForecastFrame :=
  let scenarios :=
    match scenarios with
    | None => default_scenarios
    | Some d => d
    end in
  scenario_loop forecast_df scenarios.

End Forecaster.

End CashFlowForecaster.

(** ** The analyzer: [class SeasonalAnalyzer] *)

Module SeasonalAnalyzer.

(** The three series [seasonal_decompose] returns. *)
Record Decomposition : Type := mkDecomposition
  { trend : list num; seasonal : list num; resid : list num }.

(** One row of [monthly_stats]. *)
Record MonthRow : Type := mkMonthRow
  { month : num;
    mean : num; std : num; min : num; max : num; count : num;
    seasonal_index : num; seasonal_variation : num }.

Record SeasonalStats : Type := mkSeasonalStats
  { monthly_stats : list MonthRow;
    peak_month : num;
    trough_month : num;
    seasonal_range : num;
    coefficient_of_variation : num }.

Record TrendStats : Type := mkTrendStats
  { slope : num;
    r_squared : num;
    p_value : num;
    total_change_percent : num;
    is_stationary : bool;
    adf_p_value : num;
    monthly_growth_rate_percent : num }.

(** The object: [self.data], [self.decomposition], [self.seasonal_stats]. *)
Record state : Type := mkAnalyzer
  { data : MonthlyData;
    decomposition : option Decomposition;
    seasonal_stats : option SeasonalStats }.

(** [self.data[column]] *)
Definition data_getitem (column : string) : M state (list num) :=
  do s <- get;
  lift_option (KeyError column) (fields (data s) !! column).

(** [self.data['month'] = values] *)
Definition assign_month (values : list num) (s : state) : state :=
  mkAnalyzer
    (mkMonthlyData (year_month (data s)) (<["month" := values]> (fields (data s))))
    (decomposition s) (seasonal_stats s).

(** The keys of [groupby]: the distinct values that are not missing, in
    increasing order. *)
Fixpoint insert_key (k : num) (keys : list num) : list num :=
  match keys with
  | [] => [k]
  | x :: rest =>
      if Num.eqb k x then keys
      else if Num.leb k x then k :: keys
      else x :: insert_key k rest
  end.

Definition group_keys (by_col : list num) : list num :=
  fold_left (fun keys k => insert_key k keys) (Num.dropna by_col) [].

(** [Series.idxmax()] and [Series.idxmin()] on a default index: the first
    position of the extreme value among those not missing, when there is
    one. *)
Definition idx_first (target : num) (l : list num) : option nat :=
  fst <$> list_find (fun x => Num.eqb x target = true) l.

Definition idxmax (l : list num) : option nat := idx_first (Num.max l) l.
Definition idxmin (l : list num) : option nat := idx_first (Num.min l) l.

(** What [monthly_stats.loc[monthly_stats['mean'].idxmax(), 'month']]
    raises when no mean is present.  On a series without rows [idxmax]
    raises [ValueError]; on rows whose values are all missing it returns
    the missing label, which [.loc] then does not find. *)
Definition no_argmax (l : list num) : exn :=
  match l with
  | [] => ValueError "argmax of an empty sequence"
  | _ => KeyError "nan"
  end.

Definition no_argmin (l : list num) : exn :=
  match l with
  | [] => ValueError "argmin of an empty sequence"
  | _ => KeyError "nan"
  end.

Section Analyzer.

(** The library routines that are not modelled: the square root of numpy,
    [seasonal_decompose] and [adfuller] of statsmodels and [linregress] of
    scipy.  Each returns, or raises with a message.  [linregress] yields
    (slope, intercept, r value, p value, standard error); of the result of
    [adfuller] only the p-value, its entry 1, is used. *)
Variable sqrtQ : Q -> Q.
Variable seasonal_decompose : list num -> Z -> string + Decomposition.
Variable linregress : list num -> list num -> string + (num * num * num * num * num).
Variable adfuller : list num -> string + num.

Definition call_library {A : Type} (r : string + A) : M state A :=
  match r with
  | inl msg => raise (LibraryError msg)
  | inr a => ret a
  end.

Definition decompose_time_series (column : string) (period : Z)
  : M state Decomposition :=
  do s <- get;
  let len := Z.of_nat (length (year_month (data s))) in
  let period := if len <? 2 * period then Z.max 1 (len / 2) else period in
  do first <- lift_option (ValueError "NaT") (period_min (year_month (data s)));
  let start_date := to_timestamp first in
  do values <- data_getitem column;
  let index := date_range_ME start_date (length (year_month (data s))) in
  (if (length values =? length index)%nat then ret tt
   else raise (ValueError "Length of values does not match length of index"));;
  do result <- call_library (seasonal_decompose values period);
  modify (fun s => mkAnalyzer (data s) (Some result) (seasonal_stats s));;
  do s <- get;
  lift_option (ValueError "decomposition") (decomposition s).

(** One group of [groupby('month')[column].agg([...])]. *)
Definition month_group (month_col col : list num) (key : num) : list num :=
  select (map (fun m => Num.eqb m key) month_col) col.

Definition analyze_seasonality (column : string) : M state SeasonalStats :=
  do s <- get;
  (match fields (data s) !! "month" with
   | Some _ => ret tt
   | None => modify (assign_month (dt_month (year_month (data s))))
   end);;
  do month_col <- data_getitem "month";
  do col <- data_getitem column;
  let keys := group_keys month_col in
  let groups := map (month_group month_col col) keys in
  let means := map Num.mean groups in
  let stds := map (Num.std sqrtQ) groups in
  do col <- data_getitem column;
  let overall_mean := Num.mean col in
  let rows :=
    zip_with
      (fun key g =>
         mkMonthRow key (Num.mean g) (Num.std sqrtQ g) (Num.min g) (Num.max g)
           (Num.count g)
           (Num.mean g / overall_mean)%num
           ((Num.mean g - overall_mean) / overall_mean * of_Z 100)%num)
      keys groups in
  do imax <- lift_option (no_argmax means) (idxmax means);
  do peak <- lift_option (KeyError "month") (keys !! imax);
  do imin <- lift_option (no_argmin means) (idxmin means);
  do trough <- lift_option (KeyError "month") (keys !! imin);
  let stats :=
    mkSeasonalStats rows peak trough
      (Num.max means - Num.min means)%num
      (Num.mean stds / Num.mean means)%num in
  modify (fun s => mkAnalyzer (data s) (decomposition s) (Some stats));;
  do s <- get;
  lift_option (ValueError "seasonal_stats") (seasonal_stats s).

Definition trend_analysis (column : string) : M state TrendStats :=
  do s <- get;
  let x := map of_nat (seq 0 (length (year_month (data s)))) in
  do y <- data_getitem column;
  do fit <- call_library (linregress x y);
  let '(slope, intercept, r_value, p_value, std_err) := fit in
  do col <- data_getitem column;
  do start_val <- lift_option IndexError (head col);
  do end_val <- lift_option IndexError (iloc_last col);
  let total_change :=
    if negb (Num.eqb start_val (of_Z 0))
    then ((end_val - start_val) / Num.abs start_val * of_Z 100)%num
    else PosInf in
  let monthly_growth :=
    if negb (Num.eqb start_val (of_Z 0))
    then (slope / Num.abs start_val * of_Z 100)%num
    else PosInf in
  do col <- data_getitem column;
  do adf_p <- call_library (adfuller (Num.dropna col));
  ret (mkTrendStats slope (r_value * r_value)%num p_value total_change
         (Num.ltb adf_p (Fin (5 # 100))) adf_p monthly_growth).

End Analyzer.

End SeasonalAnalyzer.

(** ** Notions used to state the properties *)

Import CashFlowForecaster.

(** The state a forecaster is in once the [month] column has been derived
    if it was missing. *)
Definition with_month (s : state) : state :=
  match fields (data s) !! "month" with
  | Some _ => s
  | None => assign_month (dt_month (year_month (data s))) s
  end.

(** The value the seasonal-naive loop computes for one date, on the frame
    [d] with target column [col] and month column [month_col]. *)
Definition naive_value (d : MonthlyData) (col month_col : list num)
    (date : Timestamp) : num :=
  match select (map (fun p => p =? to_period (sub_years date 1)) (year_month d)) col with
  | v :: _ => v
  | [] =>
      Num.mean (select (map (fun m => Num.eqb m (of_Z (ts_month date))) month_col) col)
  end.

(** What the two library calls of the [try] block of exponential smoothing
    come to, on the values of the target column and for [periods] steps:
    the message of the call that raises, the fit or else the forecast, or
    the predictions by step. *)
Definition fitted_forecast (holt_winters_fit : list num -> string + HoltWinters)
    (values : list num) (periods : nat) : string + (nat -> num) :=
  match holt_winters_fit values with
  | inl msg => inl msg
  | inr model => model periods
  end.

(** Whether exponential smoothing falls back to the seasonal-naive
    forecast: the [try] block is reached (the series has rows and the
    target column, one value per row) and one of its two library calls
    raises. *)
Definition falls_back (holt_winters_fit : list num -> string + HoltWinters)
    (column : string) (periods : nat) (s : state) : bool :=
  match period_min (year_month (data s)), fields (data s) !! column with
  | Some _, Some values =>
      (length values =? length (year_month (data s)))%nat
      && match fitted_forecast holt_winters_fit values periods with
         | inl _ => true
         | inr _ => false
         end
  | _, _ => false
  end.

(** The state after the fallback line for the fitting error [msg] has been
    printed. *)
Definition logged (msg : string) (s : state) : state :=
  mkForecaster (data s)
    (stdout s ++ ["Exponential smoothing failed: " +:+ msg +:+ ". Falling back."]).

(** Entry [i] of the [forecast] column of a frame. *)
Definition forecast_at (df : ForecastFrame) (i : nat) : option num :=
  cols df !! "forecast" ≫= (fun f => f !! i).

(** Entry [i] of the column [name] of a frame. *)
Definition cell_at (df : ForecastFrame) (name : string) (i : nat) : option num :=
  cols df !! name ≫= (fun f => f !! i).

(** The [h] consecutive months that follow [last]. *)
Definition months_after (last : Period) (h : nat) : list Period :=
  map (fun i => last + 1 + Z.of_nat i) (seq 0 h).

(** The arithmetic mean of a list of numbers: their sum over their count
    (numpy's [mean]: a missing value makes the mean missing). *)
Definition arithmetic_mean (l : list num) : num :=
  (Num.sum l / of_nat (length l))%num.

Definition is_finite (a : num) : Prop :=
  match a with Fin _ => True | _ => False end.

Definition nonneg (a : num) : Prop :=
  match a with Fin q => (0 <= q)%Q | _ => False end.

(** The frame with the four bands of half-widths [1.28 sigma] and
    [1.96 sigma] around the forecast column [f]. *)
Definition with_bands (sigma : num) (f : list num) (df : ForecastFrame)
  : ForecastFrame :=
  set_col "upper_95" (map (fun x => x + Fin Q_1_96 * sigma)%num f)
    (set_col "lower_95" (map (fun x => x - Fin Q_1_96 * sigma)%num f)
       (set_col "upper_80" (map (fun x => x + Fin Q_1_28 * sigma)%num f)
          (set_col "lower_80" (map (fun x => x - Fin Q_1_28 * sigma)%num f) df))).

(** ** Sample inputs *)

(** A square root on the rationals, exact on the squares of integers over
    a square denominator and rounded down otherwise; it stands for the
    library's square root when the model is run on an example. *)
Definition floor_sqrt (q : Q) : Q :=
  Z.sqrt (Qnum q * Zpos (Qden q)) # Qden q.

(** A fitting routine for the examples: like the library's, it refuses a
    history shorter than two seasonal cycles; otherwise its fitted model
    refuses to forecast zero steps, and predicts the historical mean at
    every step. *)
Definition sample_fit (values : list num) : string + HoltWinters :=
  if (length values <? 24)%nat
  then inl "Cannot compute initial seasonals using heuristic method with less than two full seasonal cycles in the data."
  else inr (fun steps =>
              if (steps =? 0)%nat
              then inl "Prediction must have `end` after `start`."
              else inr (fun _ => Num.mean values)).

(** January 2020. *)
Definition jan_2020 : Period := 600.

(** A forecaster over a frame with the given months and one numeric column
    [net_cash_flow], and nothing printed yet. *)
Definition sample_state (months : list Period) (values : list Z) : state :=
  mkForecaster
    (mkMonthlyData months {["net_cash_flow" := map of_Z values]}) [].

(** A forecast frame with one entry, for February 2020. *)
Definition one_entry_frame (x : num) : ForecastFrame :=
  mkForecastFrame [mkTimestamp 2020 2 29] "Moving Average" {["forecast" := [x]]}.

(** The frame after the assignments of the scenario loop, for the forecast
    column [f]. *)
Definition with_scenarios (f : list num) (items : Scenarios)
    (df : ForecastFrame) : ForecastFrame :=
  fold_left
    (fun d item =>
       set_col (fst item +:+ "_forecast")
               (map (fun x => (x * snd item)%num) f) d)
    items df.

(** The monthly frame once the [month] column has been derived if it was
    missing. *)
Definition derive_month (d : MonthlyData) : MonthlyData :=
  match fields d !! "month" with
  | Some _ => d
  | None =>
      mkMonthlyData (year_month d)
        (<["month" := dt_month (year_month d)]> (fields d))
  end.

(** A series whose months run without a gap except before the last one:
    January 2020 to November 2021, then January 2022; and 24 values. *)
Definition gapped_months : list Period :=
  map (fun i => jan_2020 + Z.of_nat i) (seq 0 23) ++ [jan_2020 + 24].

Definition gapped_values : list Z :=
  map (fun i => 1000 + 10 * Z.of_nat i) (seq 0 24).

(** A method that leaves the state of its object as it found it, whether
    it returns or raises. *)
Definition read_only {S A : Type} (m : M S A) : Prop :=
  forall s, fst (m s) = s.

(** An analyzer over the sample frame, with nothing computed yet. *)
Definition sample_analyzer (months : list Period) (values : list Z)
  : SeasonalAnalyzer.state :=
  SeasonalAnalyzer.mkAnalyzer
    (mkMonthlyData months {["net_cash_flow" := map of_Z values]}) None None.

(** A method of the analyzer that leaves [self.data] as it found it,
    whether it returns or raises. *)
Definition keeps_data {A : Type} (m : M SeasonalAnalyzer.state A) : Prop :=
  forall a, SeasonalAnalyzer.data (fst (m a)) = SeasonalAnalyzer.data a.

From Stdlib Require Import Sorted.

(** ** Further notions used to state properties *)

(** What [seasonal_naive_forecast] does once the [month] column is there:
    the rest of the method, from the look-up of the last month on. *)
Definition seasonal_naive_rest (column : string) (periods : nat)
  : M state ForecastFrame :=
  do s <- get;
  do last <- lift_option IndexError (iloc_last (year_month (data s)));
  let forecast_dates := dates_after last periods in
  do forecast_vals <- for_each (seasonal_naive_value column) forecast_dates;
  ret (mkForecastFrame forecast_dates "Seasonal Naive"
         {["forecast" := forecast_vals]}).

(** The months of a series that starts at [first] and runs for [n] months
    without a gap. *)
Definition consecutive_months (first : Period) (n : nat) : list Period :=
  map (fun j => first + Z.of_nat j) (seq 0 n).

(** The names of the four columns [calculate_confidence_intervals]
    assigns. *)
Definition band_columns : list string :=
  ["lower_80"; "upper_80"; "lower_95"; "upper_95"].

(** The period [decompose_time_series] hands to the library, for a series
    of [len] rows and the period asked for. *)
Definition effective_period (len period : Z) : Z :=
  if len <? 2 * period then Z.max 1 (len / 2) else period.

(** The statistics [analyze_seasonality] computes from the [month] column
    and the target column, or the exception it raises on the way. *)
Definition seasonal_stats_of (sqrtQ : Q -> Q) (month_col col : list num)
  : result SeasonalAnalyzer.SeasonalStats :=
  let keys := SeasonalAnalyzer.group_keys month_col in
  let groups := map (SeasonalAnalyzer.month_group month_col col) keys in
  let means := map Num.mean groups in
  let stds := map (Num.std sqrtQ) groups in
  let overall_mean := Num.mean col in
  let rows :=
    zip_with
      (fun key g =>
         SeasonalAnalyzer.mkMonthRow key (Num.mean g) (Num.std sqrtQ g)
           (Num.min g) (Num.max g) (Num.count g)
           (Num.mean g / overall_mean)%num
           ((Num.mean g - overall_mean) / overall_mean * of_Z 100)%num)
      keys groups in
  match SeasonalAnalyzer.idxmax means with
  | None => Raise (SeasonalAnalyzer.no_argmax means)
  | Some imax =>
      match keys !! imax with
      | None => Raise (KeyError "month")
      | Some peak =>
          match SeasonalAnalyzer.idxmin means with
          | None => Raise (SeasonalAnalyzer.no_argmin means)
          | Some imin =>
              match keys !! imin with
              | None => Raise (KeyError "month")
              | Some trough =>
                  Ok (SeasonalAnalyzer.mkSeasonalStats rows peak trough
                        (Num.max means - Num.min means)%num
                        (Num.mean stds / Num.mean means)%num)
              end
          end
      end
  end.

(** The analyzer once the [month] column has been derived if missing. *)
Definition analyzer_with_month (a : SeasonalAnalyzer.state)
  : SeasonalAnalyzer.state :=
  SeasonalAnalyzer.mkAnalyzer (derive_month (SeasonalAnalyzer.data a))
    (SeasonalAnalyzer.decomposition a) (SeasonalAnalyzer.seasonal_stats a).

(** A decomposition routine for the examples: it refuses a period below
    one, and otherwise returns the series as its own trend. *)
Definition sample_decompose (values : list num) (period : Z)
  : string + SeasonalAnalyzer.Decomposition :=
  if period <? 1 then inl "period must be a positive integer"
  else inr (SeasonalAnalyzer.mkDecomposition values
              (map (fun _ => of_Z 0) values) (map (fun _ => of_Z 0) values)).

(** A regression routine and a unit-root test for the examples: slope 10
    through the origin with a perfect fit, and a p-value of 0.5. *)
Definition sample_linregress (x y : list num)
  : string + (num * num * num * num * num) :=
  match y with
  | [] => inl "Inputs must not be empty."
  | _ => inr (of_Z 10, of_Z 0, of_Z 1, of_Z 0, of_Z 0)
  end.

Definition sample_adfuller (y : list num) : string + num :=
  match y with
  | [] => inl "sample size is too short"
  | _ => inr (Fin (1 # 2))
  end.

(** The strict order of the comparison [<] on numbers. *)
Definition num_lt (a b : num) : Prop := Num.ltb a b = true.

(** The sum of a list of rationals, and the rational a finite number
    stands for. *)
Definition qsum (l : list Q) : Q := fold_right Qplus 0%Q l.

Definition to_Q (a : num) : Q :=
  match a with Fin q => q | _ => 0%Q end.

(** ** [SeasonalAnalyzer.correlation_analysis] *)

(** The matrix [DataFrame.corr()] returns: its column labels, which are
    its row labels too, and its rows. *)
Record CorrMatrix : Type := mkCorrMatrix
  { corr_columns : list string;
    corr_values : list (list num) }.

(** One entry of [strong_correlations]. *)
Record Correlation : Type := mkCorrelation
  { var1 : string; var2 : string; correlation : num }.

Definition numeric_cols : list string :=
  ["cash_inflow"; "cash_outflow"; "net_cash_flow"; "accounts_receivable";
   "accounts_payable"; "dso"; "dpo"; "cash_cycle"].

(** [corr_matrix.iloc[i, j]] *)
Definition iloc2 (m : CorrMatrix) (i j : nat) : option num :=
  corr_values m !! i ≫= (fun row => row !! j).

Section Correlation.

(** The correlation coefficient of two columns, as the library computes it
    for every pair of columns of the frame. *)
Variable pearson : list num -> list num -> num.

(** [self.data[existing_cols].corr()] *)
Definition corr (labels : list string) (columns : list (list num)) : CorrMatrix :=
  mkCorrMatrix labels
    (map (fun ci => map (fun cj => pearson ci cj) columns) columns).

(** The body of the inner loop: the entry appended for the pair [(i, j)],
    if any. *)
Definition strong_pair (m : CorrMatrix) (i j : nat)
  : M SeasonalAnalyzer.state (list Correlation) :=
  do corr_val <- lift_option IndexError (iloc2 m i j);
  if Num.ltb (Fin (7 # 10)) (Num.abs corr_val)
  then
    do v1 <- lift_option IndexError (corr_columns m !! i);
    do v2 <- lift_option IndexError (corr_columns m !! j);
    ret [mkCorrelation v1 v2 corr_val]
  else ret [].

Definition correlation_analysis
  : M SeasonalAnalyzer.state (CorrMatrix * list Correlation) :=
  do s <- get;
  let existing_cols :=
    List.filter
      (fun col => bool_decide (is_Some (fields (SeasonalAnalyzer.data s) !! col)))
      numeric_cols in
  do columns <- for_each SeasonalAnalyzer.data_getitem existing_cols;
  let corr_matrix := corr existing_cols columns in
  let n := length (corr_columns corr_matrix) in
  do found <-
    for_each
      (fun i =>
         do row <- for_each (strong_pair corr_matrix i)
                     (seq (i + 1) (n - (i + 1)));
         ret (concat row))
      (seq 0 n);
  let strong_correlations := concat found in
  ret (corr_matrix, strong_correlations).

End Correlation.

(** A correlation for the examples: 1 between a column and itself, 0.9
    between two columns of the same length, and missing otherwise. *)
Definition sample_pearson (x y : list num) : num :=
  if (length x =? length y)%nat then Fin (9 # 10) else NaN.

(** The pairs [correlation_analysis] reports, for the columns [labels] of
    the matrix and their values: for every [i < j] in turn, the pair of
    columns [i] and [j] when the absolute value of its correlation compares
    above 0.7. *)
Definition strong_pairs (pearson : list num -> list num -> num)
    (labels : list string) (value : string -> list num) (i j : nat)
  : list Correlation :=
  match labels !! i, labels !! j with
  | Some v1, Some v2 =>
      let c := pearson (value v1) (value v2) in
      if Num.ltb (Fin (7 # 10)) (Num.abs c) then [mkCorrelation v1 v2 c] else []
  | _, _ => []
  end.

(** ** The processor: [class DataProcessor], monthly aggregation and KPIs *)

Module DataProcessor.

(** The daily frame: the [date] column, the [year_month] column once
    [aggregate_monthly] has added it, and the numeric columns by name. *)
Record DailyData : Type := mkDailyData
  { daily_date : list Timestamp;
    daily_year_month : option (list Period);
    daily_fields : gmap string (list num) }.

(** The object: [self.data] and [self.monthly_data], [None] until loaded
    and aggregated.  ([self.quarterly_data] is used by
    [aggregate_quarterly] only.) *)
Record state : Type := mkProcessor
  { data : option DailyData;
    monthly_data : option MonthlyData }.

(** The keys of [groupby('year_month')]: the distinct periods, in
    increasing order. *)
Fixpoint insert_period (k : Period) (keys : list Period) : list Period :=
  match keys with
  | [] => [k]
  | x :: rest =>
      if k =? x then keys
      else if k <? x then k :: keys
      else x :: insert_period k rest
  end.

Definition period_keys (l : list Period) : list Period :=
  fold_left (fun keys k => insert_period k keys) l [].

(** The cells of a column on the rows of one period. *)
Definition period_group (periods : list Period) (col : list num) (key : Period)
  : list num :=
  select (map (fun p => p =? key) periods) col.

(** The two aggregations of the [agg] dictionary; both skip missing
    values, and the sum of nothing is zero. *)
Inductive agg : Type := agg_sum | agg_mean.

Definition aggregate (f : agg) (l : list num) : num :=
  match f with
  | agg_sum => Num.sum (Num.dropna l)
  | agg_mean => Num.mean l
  end.

Definition monthly_agg : list (string * agg) :=
  [("cash_inflow", agg_sum); ("cash_outflow", agg_sum);
   ("net_cash_flow", agg_sum); ("accounts_receivable", agg_mean);
   ("accounts_payable", agg_mean); ("inventory", agg_mean)].

(** [self.monthly_data[name] = values] *)
Definition assign_monthly (name : string) (values : list num) (s : state)
  : state :=
  mkProcessor (data s)
    (match monthly_data s with
     | Some md =>
         Some (mkMonthlyData (year_month md) (<[name := values]> (fields md)))
     | None => None
     end).

(** [self.monthly_data[name]] *)
Definition monthly_getitem (name : string) : M state (list num) :=
  do s <- get;
  do md <- lift_option (ValueError "monthly_data is None") (monthly_data s);
  lift_option (KeyError name) (fields md !! name).

Definition aggregate_monthly : M state MonthlyData :=
  do s <- get;
  do daily <- lift_option (ValueError "Data not loaded.") (data s);
  let periods := map to_period (daily_date daily) in
  let daily :=
    mkDailyData (daily_date daily) (Some periods) (daily_fields daily) in
  modify (fun s => mkProcessor (Some daily) (monthly_data s));;
  let keys := period_keys periods in
  do columns <-
    for_each
      (fun '(name, f) =>
         do col <- lift_option (KeyError name) (daily_fields daily !! name);
         ret (name, map (fun k => aggregate f (period_group periods col k)) keys))
      monthly_agg;
  modify (fun s =>
            mkProcessor (data s)
              (Some (mkMonthlyData keys (list_to_map columns))));;
  modify (assign_monthly "month" (dt_month keys));;
  modify (assign_monthly "year" (map (fun p => of_Z (period_year p)) keys));;
  do s <- get;
  lift_option (ValueError "monthly_data is None") (monthly_data s).

(** [replace([np.inf, -np.inf], np.nan)] followed by [fillna(0)], on one
    cell. *)
Definition zero_if_not_finite (a : num) : num :=
  match a with
  | Fin q => Fin q
  | _ => of_Z 0
  end.

(** [(self.monthly_data[numerator] / self.monthly_data[denominator]) * 30] *)
Definition days_outstanding (numerator denominator : string)
  : M state (list num) :=
  do x <- monthly_getitem numerator;
  do y <- monthly_getitem denominator;
  ret (map (fun q => (q * of_Z 30)%num) (zip_with Num.div x y)).

Definition calculate_kpis : M state MonthlyData :=
  do s <- get;
  (match monthly_data s with
   | None => do _ <- aggregate_monthly; ret tt
   | Some _ => ret tt
   end);;
  do dso <- days_outstanding "accounts_receivable" "cash_inflow";
  modify (assign_monthly "dso" dso);;
  do dpo <- days_outstanding "accounts_payable" "cash_outflow";
  modify (assign_monthly "dpo" dpo);;
  do dio <- days_outstanding "inventory" "cash_outflow";
  modify (assign_monthly "dio" dio);;
  do dso <- monthly_getitem "dso";
  do dio <- monthly_getitem "dio";
  do dpo <- monthly_getitem "dpo";
  modify (assign_monthly "cash_cycle"
            (zip_with Num.sub (zip_with Num.add dso dio) dpo));;
  modify (fun s =>
            mkProcessor (data s)
              (match monthly_data s with
               | Some md =>
                   Some (mkMonthlyData (year_month md)
                           (fmap (map zero_if_not_finite) (fields md)))
               | None => None
               end));;
  do s <- get;
  lift_option (ValueError "monthly_data is None") (monthly_data s).

End DataProcessor.

(** A day of January 2020 and a day of February 2020. *)
Definition day_jan (d : Z) : Timestamp := mkTimestamp 2020 1 d.
Definition day_feb (d : Z) : Timestamp := mkTimestamp 2020 2 d.

(** What [calculate_kpis] does once [self.monthly_data] is there. *)
Definition kpis_rest : M DataProcessor.state MonthlyData :=
  do dso <- DataProcessor.days_outstanding "accounts_receivable" "cash_inflow";
  modify (DataProcessor.assign_monthly "dso" dso);;
  do dpo <- DataProcessor.days_outstanding "accounts_payable" "cash_outflow";
  modify (DataProcessor.assign_monthly "dpo" dpo);;
  do dio <- DataProcessor.days_outstanding "inventory" "cash_outflow";
  modify (DataProcessor.assign_monthly "dio" dio);;
  do dso <- DataProcessor.monthly_getitem "dso";
  do dio <- DataProcessor.monthly_getitem "dio";
  do dpo <- DataProcessor.monthly_getitem "dpo";
  modify (DataProcessor.assign_monthly "cash_cycle"
            (zip_with Num.sub (zip_with Num.add dso dio) dpo));;
  modify (fun s =>
            DataProcessor.mkProcessor (DataProcessor.data s)
              (match DataProcessor.monthly_data s with
               | Some md =>
                   Some (mkMonthlyData (year_month md)
                           (fmap (map DataProcessor.zero_if_not_finite)
                                 (fields md)))
               | None => None
               end));;
  do s <- get;
  lift_option (ValueError "monthly_data is None") (DataProcessor.monthly_data s).

(** The aggregated columns of a daily frame, for its periods and the
    values of its columns. *)
Definition aggregated_columns (periods : list Period)
    (value : string -> list num) : list (string * list num) :=
  map (fun '(name, f) =>
         (name,
          map (fun k =>
                 DataProcessor.aggregate f
                   (DataProcessor.period_group periods (value name) k))
              (DataProcessor.period_keys periods)))
      DataProcessor.monthly_agg.

(** A daily frame with the six columns the aggregation needs, all equal to
    [values], and a processor over it, with nothing aggregated yet. *)
Definition sample_daily (dates : list Timestamp) (values : list Z)
  : DataProcessor.DailyData :=
  DataProcessor.mkDailyData dates None
    (list_to_map
       (map (fun name => (name, map of_Z values))
            (map fst DataProcessor.monthly_agg))).

Definition sample_processor (dates : list Timestamp) (values : list Z)
  : DataProcessor.state :=
  DataProcessor.mkProcessor (Some (sample_daily dates values)) None.

(** The four columns [calculate_kpis] adds. *)
Definition kpi_columns : list string := ["dso"; "dpo"; "dio"; "cash_cycle"].

(** The frame [calculate_kpis] leaves in [self.monthly_data], from the
    frame it finds there and the five columns it reads. *)
Definition kpi_frame (md : MonthlyData) (ar ci ap co inv : list num)
  : MonthlyData :=
  let days x y := map (fun q => (q * of_Z 30)%num) (zip_with Num.div x y) in
  let dso := days ar ci in
  let dpo := days ap co in
  let dio := days inv co in
  mkMonthlyData (year_month md)
    (map DataProcessor.zero_if_not_finite
       <$> <["cash_cycle" := zip_with Num.sub (zip_with Num.add dso dio) dpo]>
             (<["dio" := dio]> (<["dpo" := dpo]> (<["dso" := dso]> (fields md))))).

(** The five columns [calculate_kpis] reads. *)
Definition kpi_inputs : list string :=
  ["accounts_receivable"; "cash_inflow"; "accounts_payable"; "cash_outflow";
   "inventory"].

(** The cell of a monthly frame in column [name] on row [i]. *)
Definition monthly_cell (md : MonthlyData) (name : string) (i : nat)
  : option num :=
  fields md !! name ≫= (fun col => col !! i).

(** A monthly frame whose five input columns of the KPIs are all equal to
    [values], and a processor that holds it, with no daily data. *)
Definition sample_frame (months : list Period) (values : list Z)
  : MonthlyData :=
  mkMonthlyData months
    (list_to_map (map (fun name => (name, map of_Z values)) kpi_inputs)).

Definition sample_monthly (months : list Period) (values : list Z)
  : DataProcessor.state :=
  DataProcessor.mkProcessor None (Some (sample_frame months values)).

(** * Properties *)

Import CashFlowForecaster.

(** ** Calendar arithmetic *)

Lemma to_period_to_timestamp (p : Period) : to_period (to_timestamp p) = p.
Proof.
  unfold to_period, to_timestamp, period_year, period_month.
  cbn [ts_year ts_month]. Z.div_mod_to_equations. lia.
Qed.

Lemma to_period_add_months (t : Timestamp) (k : Z) :
  to_period (add_months t k) = to_period t + k.
Proof.
  unfold to_period, add_months. cbn [ts_year ts_month].
  Z.div_mod_to_equations. lia.
Qed.

Lemma to_period_month_end (t : Timestamp) : to_period (month_end t) = to_period t.
Proof. reflexivity. Qed.

Lemma ts_month_add_months (t : Timestamp) (k : Z) :
  ts_month (add_months t k) = period_month (to_period t + k).
Proof.
  unfold to_period, add_months, period_month. cbn [ts_year ts_month].
  Z.div_mod_to_equations. lia.
Qed.

Lemma length_date_range_ME (start : Timestamp) (periods : nat) :
  length (date_range_ME start periods) = periods.
Proof. unfold date_range_ME. by rewrite length_map, length_seq. Qed.

Lemma length_dates_after (last : Period) (periods : nat) :
  length (dates_after last periods) = periods.
Proof. apply length_date_range_ME. Qed.

(** The forecast dates are the month ends of the [periods] months after
    [last]. *)
Lemma to_period_dates_after (last : Period) (periods : nat) :
  map to_period (dates_after last periods)
  = map (fun i => last + 1 + Z.of_nat i) (seq 0 periods).
Proof.
  unfold dates_after, date_range_ME. rewrite map_map.
  apply map_ext. intros i.
  rewrite to_period_month_end, !to_period_add_months, to_period_to_timestamp.
  reflexivity.
Qed.

Lemma ts_month_dates_after (last : Period) (periods i : nat) (d : Timestamp) :
  dates_after last periods !! i = Some d ->
  to_period d = last + 1 + Z.of_nat i /\
  ts_month d = period_month (last + 1 + Z.of_nat i).
Proof.
  unfold dates_after, date_range_ME. intros H.
  apply list_lookup_fmap_Some in H as (j & -> & Hj).
  apply lookup_seq in Hj as [-> _].
  rewrite to_period_month_end, !to_period_add_months, to_period_to_timestamp.
  split; [reflexivity|].
  unfold month_end; cbn [ts_month].
  rewrite ts_month_add_months, to_period_add_months, to_period_to_timestamp.
  reflexivity.
Qed.

(** ** The monad *)

Lemma bind_run {S A B : Type} (m : M S A) (k : A -> M S B) (s : S) :
  bind m k s = match m s with
               | (s', Ok a) => k a s'
               | (s', Raise e) => (s', Raise e)
               end.
Proof. reflexivity. Qed.

Lemma for_each_read_only {S A B : Type} (body : A -> M S B) (f : A -> B)
    (items : list A) (s : S) :
  (forall x, x ∈ items -> body x s = (s, Ok (f x))) ->
  for_each body items s = (s, Ok (map f items)).
Proof.
  induction items as [|x rest IH]; intros Hbody; [reflexivity|].
  simpl. unfold bind at 1. rewrite Hbody by apply list_elem_of_here.
  unfold bind at 1. rewrite IH; [reflexivity|].
  intros y Hy. apply Hbody. by apply list_elem_of_further.
Qed.

Ltac run_method :=
  repeat (unfold bind, ret, get, modify, raise, lift_option, data_getitem,
          frame_getitem, try_except; cbn beta iota).

(** ** Deriving the [month] column *)

Lemma with_month_year_month (s : state) :
  year_month (data (with_month s)) = year_month (data s).
Proof. unfold with_month. by destruct (fields (data s) !! "month"). Qed.

Lemma with_month_stdout (s : state) : stdout (with_month s) = stdout s.
Proof. unfold with_month. by destruct (fields (data s) !! "month"). Qed.

Lemma with_month_has_month (s : state) :
  is_Some (fields (data (with_month s)) !! "month").
Proof.
  unfold with_month. destruct (fields (data s) !! "month") eqn:E.
  - rewrite E. eauto.
  - simpl. rewrite lookup_insert_eq. eauto.
Qed.

Lemma with_month_idem (s : state) : with_month (with_month s) = with_month s.
Proof.
  destruct (with_month_has_month s) as [m Hm].
  unfold with_month at 1. by rewrite Hm.
Qed.

(** Columns already present are kept as they are. *)
Lemma with_month_fields (s : state) (c : string) (v : list num) :
  fields (data s) !! c = Some v -> fields (data (with_month s)) !! c = Some v.
Proof.
  intros H. unfold with_month. destruct (fields (data s) !! "month") eqn:E; [done|].
  simpl. rewrite lookup_insert_ne; [done|]. intros <-. congruence.
Qed.

(** ** Seasonal naive *)

Lemma seasonal_naive_value_run (column : string) (date : Timestamp) (s : state)
    (col month_col : list num) :
  fields (data s) !! column = Some col ->
  fields (data s) !! "month" = Some month_col ->
  seasonal_naive_value column date s
  = (s, Ok (naive_value (data s) col month_col date)).
Proof.
  intros Hc Hm. unfold seasonal_naive_value, naive_value. run_method.
  rewrite Hc. cbn beta iota.
  destruct (select _ col); [|reflexivity].
  run_method. rewrite Hm. cbn beta iota. rewrite Hc. reflexivity.
Qed.

Lemma seasonal_naive_run (column : string) (periods : nat) (s : state)
    (last : Period) (col month_col : list num) :
  iloc_last (year_month (data s)) = Some last ->
  fields (data (with_month s)) !! column = Some col ->
  fields (data (with_month s)) !! "month" = Some month_col ->
  seasonal_naive_forecast column periods s
  = (with_month s,
     Ok (mkForecastFrame (dates_after last periods) "Seasonal Naive"
           {["forecast" :=
               map (naive_value (data (with_month s)) col month_col)
                   (dates_after last periods)]})).
Proof.
  intros Hlast Hc Hm.
  unfold seasonal_naive_forecast.
  unfold bind at 1, get at 1. cbn beta iota.
  assert (Hfirst : forall k : unit -> M state ForecastFrame,
            bind (match fields (data s) !! "month" with
                  | Some _ => ret tt
                  | None => modify (assign_month (dt_month (year_month (data s))))
                  end) k s = k tt (with_month s)).
  { intros k. unfold with_month.
    destruct (fields (data s) !! "month"); reflexivity. }
  rewrite Hfirst. clear Hfirst.
  unfold bind at 1, get at 1. cbn beta iota.
  rewrite with_month_year_month, Hlast.
  unfold bind at 1, lift_option at 1, ret at 1. cbn beta iota.
  unfold bind at 1.
  rewrite (for_each_read_only _ (naive_value (data (with_month s)) col month_col)).
  - reflexivity.
  - intros d _. by apply seasonal_naive_value_run.
Qed.

Lemma lookup_forecast_singleton (v : list num) :
  ({["forecast" := v]} : gmap string (list num)) !! "forecast" = Some v.
Proof. apply lookup_singleton_eq. Qed.

(** C2.  For a non-empty series and a target column of the series, the
    seasonal-naive forecast returns exactly [h] entries (as many dates as
    forecast values), and the months of its dates are the [h] consecutive
    months that follow the last month of the series. *)
Theorem seasonal_naive_horizon_months (s : state) (column : string) (h : nat)
    (last : Period) (col : list num) :
  iloc_last (year_month (data s)) = Some last ->
  fields (data s) !! column = Some col ->
  exists s' df fc,
    seasonal_naive_forecast column h s = (s', Ok df) /\
    cols df !! "forecast" = Some fc /\
    length fc = h /\
    length (date df) = h /\
    map to_period (date df) = months_after last h.
Proof.
  intros Hlast Hcol.
  destruct (with_month_has_month s) as [month_col Hm].
  eexists _, _, _. split.
  - eapply seasonal_naive_run; eauto using with_month_fields.
  - cbn [cols date]. rewrite lookup_forecast_singleton.
    split; [reflexivity|].
    rewrite length_map, length_dates_after.
    split; [reflexivity|]. split; [reflexivity|].
    apply to_period_dates_after.
Qed.

(** ** Moving average *)

Lemma moving_average_run (column : string) (window periods : nat) (s : state)
    (col : list num) (last_ma : num) (last : Period) :
  fields (data s) !! column = Some col ->
  iloc_last (rolling_mean window col) = Some last_ma ->
  iloc_last (year_month (data s)) = Some last ->
  moving_average_forecast column window periods s
  = (s, Ok (mkForecastFrame (dates_after last periods) "Moving Average"
              {["forecast" := replicate periods last_ma]})).
Proof.
  intros Hc Hma Hlast. unfold moving_average_forecast. run_method.
  rewrite Hc. cbn beta iota. rewrite Hma. cbn beta iota.
  rewrite Hlast. reflexivity.
Qed.

Lemma moving_average_inv (column : string) (window periods : nat) (s s' : state)
    (df : ForecastFrame) :
  moving_average_forecast column window periods s = (s', Ok df) ->
  s' = s /\
  exists col last_ma last,
    fields (data s) !! column = Some col /\
    iloc_last (rolling_mean window col) = Some last_ma /\
    iloc_last (year_month (data s)) = Some last /\
    df = mkForecastFrame (dates_after last periods) "Moving Average"
           {["forecast" := replicate periods last_ma]}.
Proof.
  unfold moving_average_forecast. run_method.
  destruct (fields (data s) !! column) as [col|] eqn:Hc; cbn beta iota; [|done].
  destruct (iloc_last (rolling_mean window col)) as [last_ma|] eqn:Hma;
    cbn beta iota; [|done].
  destruct (iloc_last (year_month (data s))) as [last|] eqn:Hlast;
    cbn beta iota; [|done].
  intros [= <- <-]. split; [done|]. by exists col, last_ma, last.
Qed.

(** ** Exponential smoothing *)

Section ExponentialSmoothing.

Variable holt_winters_fit : list num -> string + HoltWinters.

Lemma exponential_smoothing_run (column : string) (periods : nat) (s : state)
    (first : Period) (values : list num) :
  period_min (year_month (data s)) = Some first ->
  fields (data s) !! column = Some values ->
  length values = length (year_month (data s)) ->
  exponential_smoothing_forecast holt_winters_fit column periods s
  = match fitted_forecast holt_winters_fit values periods with
    | inr forecast =>
        (s, Ok (mkForecastFrame
                  (date_range_ME
                     (add_months (to_timestamp first)
                                 (Z.of_nat (length (year_month (data s)))))
                     periods)
                  "Exponential Smoothing"
                  {["forecast" := map forecast (seq 1 periods)]}))
    | inl msg => seasonal_naive_forecast column periods (logged msg s)
    end.
Proof.
  intros Hmin Hc Hlen. unfold exponential_smoothing_forecast. run_method.
  rewrite Hmin. cbn beta iota. rewrite Hc. cbn beta iota.
  rewrite length_date_range_ME, Hlen, Nat.eqb_refl. cbn beta iota.
  unfold fitted_forecast.
  destruct (holt_winters_fit values) as [msg|model]; [reflexivity|].
  destruct (model periods) as [msg|forecast]; reflexivity.
Qed.

Lemma exponential_smoothing_inv (column : string) (periods : nat) (s s' : state)
    (df : ForecastFrame) :
  exponential_smoothing_forecast holt_winters_fit column periods s = (s', Ok df) ->
  exists first values,
    period_min (year_month (data s)) = Some first /\
    fields (data s) !! column = Some values /\
    length values = length (year_month (data s)).
Proof.
  unfold exponential_smoothing_forecast. run_method.
  destruct (period_min (year_month (data s))) as [first|]; cbn beta iota; [|done].
  destruct (fields (data s) !! column) as [values|]; cbn beta iota; [|done].
  rewrite length_date_range_ME.
  destruct (length values =? length (year_month (data s)))%nat eqn:E;
    cbn beta iota; [|done].
  intros _. exists first, values. by apply Nat.eqb_eq in E.
Qed.

End ExponentialSmoothing.

(** ** The three variants agree on the number of entries *)

Lemma period_min_iloc_last (l : list Period) (first : Period) :
  period_min l = Some first -> is_Some (iloc_last l).
Proof.
  destruct l as [|p rest]; [done|]. intros _.
  unfold iloc_last. rewrite last_is_Some. done.
Qed.

Lemma with_month_logged (msg : string) (s : state) :
  with_month (logged msg s) = logged msg (with_month s).
Proof.
  unfold with_month, logged; cbn [data].
  by destruct (fields (data s) !! "month").
Qed.

Lemma seasonal_naive_with_month (column : string) (h : nat) (s : state)
    (col : list num) :
  is_Some (iloc_last (year_month (data s))) ->
  fields (data s) !! column = Some col ->
  seasonal_naive_forecast column h (with_month s)
  = seasonal_naive_forecast column h s.
Proof.
  intros [last Hlast] Hcol.
  destruct (with_month_has_month s) as [month_col Hm].
  rewrite (seasonal_naive_run column h s last col month_col);
    eauto using with_month_fields.
  rewrite (seasonal_naive_run column h (with_month s) last col month_col);
    rewrite ?with_month_idem, ?with_month_year_month;
    eauto using with_month_fields.
Qed.

Lemma seasonal_naive_length (column : string) (h : nat) (s s' : state)
    (df : ForecastFrame) (col : list num) :
  is_Some (iloc_last (year_month (data s))) ->
  fields (data s) !! column = Some col ->
  seasonal_naive_forecast column h s = (s', Ok df) ->
  exists fc, cols df !! "forecast" = Some fc /\ length fc = h /\
             length (date df) = h.
Proof.
  intros [last Hlast] Hcol.
  destruct (with_month_has_month s) as [month_col Hm].
  rewrite (seasonal_naive_run column h s last col month_col);
    eauto using with_month_fields.
  intros [= <- <-]. eexists. cbn [cols date].
  split; [apply lookup_forecast_singleton|].
  by rewrite length_map, length_dates_after.
Qed.

Section Ensemble.

Variable holt_winters_fit : list num -> string + HoltWinters.

Lemma exponential_smoothing_with_month (column : string) (h : nat)
    (s s3 : state) (es_f : ForecastFrame) :
  exponential_smoothing_forecast holt_winters_fit column h s = (s3, Ok es_f) ->
  exists s3',
    exponential_smoothing_forecast holt_winters_fit column h (with_month s)
    = (s3', Ok es_f).
Proof.
  intros Hes.
  destruct (exponential_smoothing_inv _ _ _ _ _ _ Hes)
    as (first & values & Hmin & Hcol & Hlen).
  rewrite (exponential_smoothing_run _ _ _ _ first values) in Hes by done.
  rewrite (exponential_smoothing_run _ _ _ (with_month s) first values);
    rewrite ?with_month_year_month; eauto using with_month_fields.
  destruct (fitted_forecast holt_winters_fit values h) as [msg|forecast].
  - rewrite <- with_month_logged.
    rewrite (seasonal_naive_with_month column h (logged msg s) values); eauto.
    cbn [logged data]. by eapply period_min_iloc_last.
  - injection Hes as <- <-. eauto.
Qed.

Lemma exponential_smoothing_length (column : string) (h : nat) (s s' : state)
    (df : ForecastFrame) :
  exponential_smoothing_forecast holt_winters_fit column h s = (s', Ok df) ->
  exists fc, cols df !! "forecast" = Some fc /\ length fc = h /\
             length (date df) = h.
Proof.
  intros Hes.
  destruct (exponential_smoothing_inv _ _ _ _ _ _ Hes)
    as (first & values & Hmin & Hcol & Hlen).
  rewrite (exponential_smoothing_run _ _ _ _ first values) in Hes by done.
  destruct (fitted_forecast holt_winters_fit values h) as [msg|forecast].
  - eapply (seasonal_naive_length column h (logged msg s)); eauto.
    cbn [logged data]. by eapply period_min_iloc_last.
  - injection Hes as <- <-. eexists. cbn [cols date].
    split; [apply lookup_forecast_singleton|].
    by rewrite length_map, length_seq, length_date_range_ME.
Qed.

Lemma np_binop_same_length (f : num -> num -> num) (xs ys : list num) :
  length xs = length ys -> np_binop f xs ys = Some (zip_with f xs ys).
Proof. intros H. unfold np_binop. by rewrite H, Nat.eqb_refl. Qed.

(** What [ensemble_forecast] returns when its three calls return. *)
Lemma ensemble_run (column : string) (h : nat) (s s1 s2 s3 : state)
    (ma_f sn_f es_f : ForecastFrame) (fa fb fc : list num) :
  moving_average_forecast column 3 h s = (s1, Ok ma_f) ->
  seasonal_naive_forecast column h s1 = (s2, Ok sn_f) ->
  exponential_smoothing_forecast holt_winters_fit column h s2 = (s3, Ok es_f) ->
  cols ma_f !! "forecast" = Some fa ->
  cols sn_f !! "forecast" = Some fb ->
  cols es_f !! "forecast" = Some fc ->
  length fa = length fb -> length fb = length fc ->
  ensemble_forecast holt_winters_fit column h s
  = (s3, Ok (mkForecastFrame (date ma_f) "Ensemble"
               (<["es_forecast" := fc]>
                  (<["seasonal_forecast" := fb]>
                     (<["ma_forecast" := fa]>
                        {["forecast" :=
                            map (fun x => (x / of_Z 3)%num)
                                (zip_with Num.add (zip_with Num.add fa fb) fc)]}))))).
Proof.
  intros Hma Hsn Hes Ha Hb Hc Hab Hbc.
  unfold ensemble_forecast.
  unfold bind at 1. rewrite Hma.
  unfold bind at 1. rewrite Hsn.
  unfold bind at 1. rewrite Hes.
  run_method. rewrite Ha, Hb. cbn beta iota.
  rewrite (np_binop_same_length _ fa fb Hab). cbn beta iota.
  rewrite Hc. cbn beta iota.
  rewrite np_binop_same_length; [reflexivity|].
  rewrite length_zip_with. lia.
Qed.

End Ensemble.

(** ** The ensemble averages by position *)

(** Adding three numbers and dividing by three is their arithmetic mean. *)
Lemma mean_of_three (a b c : num) :
  Num.same ((a + b + c) / of_Z 3)%num (arithmetic_mean [a; b; c]).
Proof.
  unfold arithmetic_mean, Num.sum, of_nat, of_Z.
  destruct a as [x| | |], b as [y| | |], c as [z| | |];
    cbn -[Qplus Qdiv inject_Z]; try exact I.
  change (Qeq_bool (inject_Z 3) 0) with false. cbn iota.
  change (inject_Z (Z.of_nat 3)) with (inject_Z 3).
  apply Qdiv_comp; [|reflexivity]. ring.
Qed.

Section EnsembleMean.

Variable holt_winters_fit : list num -> string + HoltWinters.

(** When the three variants return from the same state, so does the
    ensemble, on their three forecast columns, each of [h] entries. *)
Lemma ensemble_of_three_runs (s : state) (column : string) (h : nat)
    (s1 s2 s3 : state) (ma_f sn_f es_f : ForecastFrame) :
  moving_average_forecast column 3 h s = (s1, Ok ma_f) ->
  seasonal_naive_forecast column h s = (s2, Ok sn_f) ->
  exponential_smoothing_forecast holt_winters_fit column h s = (s3, Ok es_f) ->
  exists fa fb fc s',
    cols ma_f !! "forecast" = Some fa /\ length fa = h /\
    cols sn_f !! "forecast" = Some fb /\ length fb = h /\
    cols es_f !! "forecast" = Some fc /\ length fc = h /\
    date sn_f = date ma_f /\
    ensemble_forecast holt_winters_fit column h s
    = (s', Ok (mkForecastFrame (date ma_f) "Ensemble"
                 (<["es_forecast" := fc]>
                    (<["seasonal_forecast" := fb]>
                       (<["ma_forecast" := fa]>
                          {["forecast" :=
                              map (fun x => (x / of_Z 3)%num)
                                  (zip_with Num.add (zip_with Num.add fa fb) fc)]}))))).
Proof.
  intros Hma Hsn Hes.
  destruct (moving_average_inv _ _ _ _ _ _ Hma)
    as (-> & col & last_ma & last & Hcol & Hlast_ma & Hlast & Hma_f).
  assert (Hne : is_Some (iloc_last (year_month (data s)))) by eauto.
  destruct (seasonal_naive_length _ _ _ _ _ _ Hne Hcol Hsn)
    as (fb & Hb & Hlb & _).
  destruct (exponential_smoothing_length _ _ _ _ _ _ Hes)
    as (fc & Hc & Hlc & _).
  destruct (exponential_smoothing_with_month _ _ _ _ _ _ Hes) as [s3' Hes'].
  assert (Hs2 : s2 = with_month s /\ date sn_f = dates_after last h).
  { destruct (with_month_has_month s) as [month_col Hm].
    rewrite (seasonal_naive_run column h s last col month_col) in Hsn;
      eauto using with_month_fields. by injection Hsn as <- <-. }
  destruct Hs2 as [-> Hdate].
  assert (Ha : cols ma_f !! "forecast" = Some (replicate h last_ma)).
  { subst ma_f. apply lookup_forecast_singleton. }
  exists (replicate h last_ma), fb, fc, s3'.
  rewrite length_replicate.
  repeat (split; [by subst|]).
  eapply (ensemble_run holt_winters_fit column h s s (with_month s) s3');
    eauto.
  - rewrite length_replicate. lia.
  - lia.
Qed.

(** C1.  Whenever the three variants succeed on a series, column and
    horizon [h], the ensemble succeeds too, and at every position [i < h]
    its point forecast is the sum of the three variants' forecasts at [i]
    divided by three: their arithmetic mean.  The three component values
    are the ones kept in [ma_forecast], [seasonal_forecast] and
    [es_forecast]. *)
Theorem ensemble_point_forecast_is_mean (s : state) (column : string) (h : nat)
    (s1 s2 s3 : state) (ma_f sn_f es_f : ForecastFrame) :
  moving_average_forecast column 3 h s = (s1, Ok ma_f) ->
  seasonal_naive_forecast column h s = (s2, Ok sn_f) ->
  exponential_smoothing_forecast holt_winters_fit column h s = (s3, Ok es_f) ->
  exists s' df,
    ensemble_forecast holt_winters_fit column h s = (s', Ok df) /\
    forall i, (i < h)%nat ->
      exists a b c e,
        forecast_at ma_f i = Some a /\
        forecast_at sn_f i = Some b /\
        forecast_at es_f i = Some c /\
        cell_at df "ma_forecast" i = Some a /\
        cell_at df "seasonal_forecast" i = Some b /\
        cell_at df "es_forecast" i = Some c /\
        forecast_at df i = Some e /\
        e = ((a + b + c) / of_Z 3)%num /\
        Num.same e (arithmetic_mean [a; b; c]).
Proof.
  intros Hma Hsn Hes.
  destruct (ensemble_of_three_runs
              s column h s1 s2 s3 ma_f sn_f es_f Hma Hsn Hes)
    as (fa & fb & fc & s' & Ha & Hla & Hb & Hlb & Hc & Hlc & _ & Hrun).
  eexists s', _. split; [exact Hrun|].
  intros i Hi.
  destruct (lookup_lt_is_Some_2 fa i) as [a Hai]; [lia|].
  destruct (lookup_lt_is_Some_2 fb i) as [b Hbi]; [lia|].
  destruct (lookup_lt_is_Some_2 fc i) as [c Hci]; [lia|].
  exists a, b, c, ((a + b + c) / of_Z 3)%num.
  unfold forecast_at, cell_at. rewrite Ha, Hb, Hc. cbn [cols].
  assert (He : map (fun x => (x / of_Z 3)%num)
                 (zip_with Num.add (zip_with Num.add fa fb) fc)
               !! i = Some ((a + b + c) / of_Z 3)%num).
  { by rewrite list_lookup_fmap, !lookup_zip_with, Hai, Hbi, Hci. }
  repeat split; simplify_map_eq; auto using mean_of_three.
Qed.

End EnsembleMean.

(** ** Confidence intervals *)

Section ConfidenceIntervals.

Variable sqrtQ : Q -> Q.

Lemma set_col_lookup_ne (name key : string) (v : list num) (df : ForecastFrame) :
  name <> key -> cols (set_col name v df) !! key = cols df !! key.
Proof. intros H. unfold set_col. cbn [cols]. by rewrite lookup_insert_ne. Qed.

Lemma set_col_lookup_eq (name : string) (v : list num) (df : ForecastFrame) :
  cols (set_col name v df) !! name = Some v.
Proof. unfold set_col. cbn [cols]. by rewrite lookup_insert_eq. Qed.

Lemma confidence_intervals_run (df : ForecastFrame) (column : string)
    (s : state) (col f : list num) :
  fields (data s) !! column = Some col ->
  cols df !! "forecast" = Some f ->
  calculate_confidence_intervals sqrtQ df column s
  = (s, Ok (with_bands (Num.std sqrtQ col) f df)).
Proof.
  intros Hcol Hf.
  unfold calculate_confidence_intervals, assign_band, with_bands. run_method.
  rewrite Hcol. cbn beta iota. rewrite Hf. cbn beta iota.
  rewrite !set_col_lookup_ne, Hf by done. cbn beta iota.
  rewrite !set_col_lookup_ne, Hf by done. cbn beta iota.
  rewrite !set_col_lookup_ne, Hf by done. cbn beta iota.
  reflexivity.
Qed.

Lemma confidence_intervals_raise_column (df : ForecastFrame) (column : string)
    (s : state) :
  fields (data s) !! column = None ->
  calculate_confidence_intervals sqrtQ df column s = (s, Raise (KeyError column)).
Proof.
  intros Hcol. unfold calculate_confidence_intervals. run_method.
  by rewrite Hcol.
Qed.

Lemma confidence_intervals_raise_forecast (df : ForecastFrame) (column : string)
    (s : state) (col : list num) :
  fields (data s) !! column = Some col ->
  cols df !! "forecast" = None ->
  calculate_confidence_intervals sqrtQ df column s
  = (s, Raise (KeyError "forecast")).
Proof.
  intros Hcol Hf. unfold calculate_confidence_intervals, assign_band. run_method.
  rewrite Hcol. cbn beta iota. by rewrite Hf.
Qed.

Lemma with_bands_forecast (sigma : num) (f : list num) (df : ForecastFrame) :
  cols df !! "forecast" = Some f ->
  cols (with_bands sigma f df) !! "forecast" = Some f.
Proof.
  intros Hf. unfold with_bands. by rewrite !set_col_lookup_ne by done.
Qed.

Lemma with_bands_idem (sigma : num) (f : list num) (df : ForecastFrame) :
  with_bands sigma f (with_bands sigma f df) = with_bands sigma f df.
Proof.
  unfold with_bands, set_col. cbn [date method cols]. f_equal.
  apply map_eq. intros k.
  rewrite !lookup_insert. repeat case_decide; congruence.
Qed.

(** C10.  Applying [calculate_confidence_intervals] a second time, to the
    frame the first application returned and with the same series and
    column, gives exactly what the first application gave: the same frame,
    so the same four bounds, and the same outcome when the first
    application raises. *)
Theorem confidence_intervals_idempotent (df : ForecastFrame) (column : string)
    (s : state) :
  (do df1 <- calculate_confidence_intervals sqrtQ df column;
   calculate_confidence_intervals sqrtQ df1 column) s
  = calculate_confidence_intervals sqrtQ df column s.
Proof.
  unfold bind.
  destruct (fields (data s) !! column) as [col|] eqn:Hcol.
  - destruct (cols df !! "forecast") as [f|] eqn:Hf.
    + rewrite (confidence_intervals_run df column s col f) by done.
      rewrite (confidence_intervals_run _ column s col f);
        auto using with_bands_forecast.
      by rewrite with_bands_idem.
    + by rewrite (confidence_intervals_raise_forecast df column s col).
  - by rewrite confidence_intervals_raise_column.
Qed.

End ConfidenceIntervals.

(** ** Sums, means and standard deviations of finite numbers *)

Lemma Qsquare_nonneg (a : Q) : (0 <= a * a)%Q.
Proof.
  destruct (Qlt_le_dec a 0) as [Hneg|Hpos].
  - assert (H : (a * a == (- a) * (- a))%Q) by ring.
    rewrite H. apply Qmult_le_0_compat; lra.
  - by apply Qmult_le_0_compat.
Qed.

Lemma fold_add_finite (l : list num) (acc : Q) :
  Forall is_finite l -> exists q, fold_left Num.add l (Fin acc) = Fin q.
Proof.
  intros H. revert acc. induction H as [|a l Ha _ IH]; intros acc; simpl.
  - eauto.
  - destruct a as [x| | |]; solve [done | apply IH].
Qed.

Lemma fold_add_nonneg (l : list num) (acc : Q) :
  (0 <= acc)%Q -> Forall nonneg l ->
  exists q, fold_left Num.add l (Fin acc) = Fin q /\ (0 <= q)%Q.
Proof.
  intros Hacc H. revert acc Hacc.
  induction H as [|a l Ha _ IH]; intros acc Hacc; simpl.
  - eauto.
  - destruct a as [x| | |]; try done. simpl in Ha. apply IH. lra.
Qed.

Lemma dropna_finite (l : list num) : Forall is_finite l -> Num.dropna l = l.
Proof.
  induction 1 as [|a l Ha _ IH]; [done|].
  unfold Num.dropna in *. simpl. destruct a; try done. simpl.
  by rewrite IH.
Qed.

Lemma inject_nat_nonzero (n : nat) :
  (0 < n)%nat -> Qeq_bool (inject_Z (Z.of_nat n)) 0 = false.
Proof.
  intros Hn. destruct (Qeq_bool _ 0) eqn:E; [|done].
  apply Qeq_bool_iff in E. unfold Qeq in E. simpl in E. lia.
Qed.

Lemma mean_finite (l : list num) :
  Forall is_finite l -> (0 < length l)%nat -> exists mu, Num.mean l = Fin mu.
Proof.
  intros Hl Hn. unfold Num.mean. rewrite dropna_finite by done.
  destruct (fold_add_finite l 0 Hl) as [q Hq]. unfold Num.sum. rewrite Hq.
  unfold Num.div, of_nat, of_Z. rewrite inject_nat_nonzero by done. eauto.
Qed.

Section StandardDeviation.

Variable sqrtQ : Q -> Q.
Hypothesis sqrtQ_nonneg : forall x : Q, (0 <= x)%Q -> (0 <= sqrtQ x)%Q.

(** With at least two observations, all finite, the standard deviation is
    a finite number, and it is not negative. *)
Lemma std_finite (l : list num) :
  Forall is_finite (Num.dropna l) ->
  (2 <= length (Num.dropna l))%nat ->
  exists sigma, Num.std sqrtQ l = Fin sigma /\ (0 <= sigma)%Q.
Proof.
  intros Hfin Hlen. unfold Num.std.
  set (v := Num.dropna l) in *.
  destruct (length v <=? 1)%nat eqn:E; [apply Nat.leb_le in E; lia|].
  destruct (mean_finite v Hfin) as [mu Hmu]; [lia|]. rewrite Hmu.
  assert (Hsq : Forall nonneg (map (fun x => Num.sq (x - Fin mu)%num) v)).
  { apply Forall_fmap. eapply Forall_impl; [exact Hfin|].
    intros [x| | |] Hx; try done.
    apply Qsquare_nonneg. }
  destruct (fold_add_nonneg _ 0 ltac:(lra) Hsq) as (ss & Hss & Hss0).
  unfold Num.sum. rewrite Hss.
  unfold Num.div, of_nat, of_Z. rewrite inject_nat_nonzero by lia.
  assert (Hq : (0 <= ss / inject_Z (Z.of_nat (length v - 1)))%Q).
  { apply Qle_shift_div_l; [|lra].
    unfold Qlt. simpl. lia. }
  unfold Num.sqrt. apply Qle_bool_iff in Hq as Hb. rewrite Hb.
  eauto.
Qed.

End StandardDeviation.

(** The band ordering for one entry: around a forecast that is not [NaN],
    with a finite, non-negative standard deviation. *)
Lemma bands_ordered (x : num) (sigma : Q) :
  x <> NaN -> (0 <= sigma)%Q ->
  (x - Fin Q_1_96 * Fin sigma <= x - Fin Q_1_28 * Fin sigma)%num /\
  (x - Fin Q_1_28 * Fin sigma <= x)%num /\
  (x <= x + Fin Q_1_28 * Fin sigma)%num /\
  (x + Fin Q_1_28 * Fin sigma <= x + Fin Q_1_96 * Fin sigma)%num.
Proof.
  intros Hx Hs. unfold Num.le, Q_1_28, Q_1_96.
  destruct x as [q| | |]; try done.
  cbn -[Qplus Qmult Qopp]. rewrite !Qle_bool_iff. repeat split; lra.
Qed.

Lemma floor_sqrt_nonneg (x : Q) : (0 <= x)%Q -> (0 <= floor_sqrt x)%Q.
Proof.
  intros _. unfold floor_sqrt, Qle. simpl.
  pose proof (Z.sqrt_nonneg (Qnum x * Z.pos (Qden x))). lia.
Qed.

Section ConfidenceBands.

Variable sqrtQ : Q -> Q.
Hypothesis sqrtQ_nonneg : forall x : Q, (0 <= x)%Q -> (0 <= sqrtQ x)%Q.

(** C3, as amended.  When the target column holds at least two
    observations that are not missing, all of them finite, the historical
    standard deviation is a finite number [sigma >= 0]; after
    [calculate_confidence_intervals] every entry has its four bounds at
    forecast -/+ 1.28 sigma and forecast -/+ 1.96 sigma, with the same
    [sigma] at every period; and every entry whose point forecast is not
    [NaN] satisfies lower_95 <= lower_80 <= forecast <= upper_80 <=
    upper_95. *)
Theorem confidence_bands_ordered (df : ForecastFrame) (column : string)
    (s : state) (col f : list num) :
  fields (data s) !! column = Some col ->
  cols df !! "forecast" = Some f ->
  Forall is_finite (Num.dropna col) ->
  (2 <= length (Num.dropna col))%nat ->
  exists df' sigma,
    calculate_confidence_intervals sqrtQ df column s = (s, Ok df') /\
    Num.std sqrtQ col = Fin sigma /\
    forall i x, f !! i = Some x ->
      exists l95 l80 u80 u95,
        forecast_at df' i = Some x /\
        cell_at df' "lower_95" i = Some l95 /\
        cell_at df' "lower_80" i = Some l80 /\
        cell_at df' "upper_80" i = Some u80 /\
        cell_at df' "upper_95" i = Some u95 /\
        l95 = (x - Fin Q_1_96 * Fin sigma)%num /\
        l80 = (x - Fin Q_1_28 * Fin sigma)%num /\
        u80 = (x + Fin Q_1_28 * Fin sigma)%num /\
        u95 = (x + Fin Q_1_96 * Fin sigma)%num /\
        (x <> NaN ->
         (l95 <= l80)%num /\ (l80 <= x)%num /\ (x <= u80)%num /\ (u80 <= u95)%num).
Proof.
  intros Hcol Hf Hfin Hlen.
  destruct (std_finite sqrtQ sqrtQ_nonneg col Hfin Hlen) as (sigma & Hstd & Hs).
  exists (with_bands (Num.std sqrtQ col) f df), sigma.
  split; [by apply confidence_intervals_run|]. split; [done|].
  intros i x Hx. rewrite Hstd.
  eexists _, _, _, _. unfold forecast_at, cell_at.
  rewrite with_bands_forecast by done. unfold with_bands.
  rewrite set_col_lookup_eq.
  rewrite (set_col_lookup_ne _ "lower_95"), set_col_lookup_eq by done.
  rewrite !(set_col_lookup_ne _ "upper_80"), set_col_lookup_eq by done.
  rewrite !(set_col_lookup_ne _ "lower_80"), set_col_lookup_eq by done.
  simpl. rewrite !list_lookup_fmap, Hx. simpl.
  repeat (split; [reflexivity|]).
  intros Hnan. by apply bands_ordered.
Qed.

End ConfidenceBands.

(** C3, as stated, fails.  With a single observation the historical
    standard deviation is [NaN], and so are the four bounds around a
    forecast of 100; and with two observations, the moving-average forecast
    (window 3) is [NaN] and so are its bounds.  Nothing compares with
    [NaN]. *)
Lemma confidence_bands_unordered :
  (exists df' l95 l80 x u80 u95,
     calculate_confidence_intervals floor_sqrt (one_entry_frame (Fin 100))
       "net_cash_flow" (sample_state [jan_2020] [100])
     = (sample_state [jan_2020] [100], Ok df') /\
     cell_at df' "lower_95" 0 = Some l95 /\
     cell_at df' "lower_80" 0 = Some l80 /\
     forecast_at df' 0 = Some x /\
     cell_at df' "upper_80" 0 = Some u80 /\
     cell_at df' "upper_95" 0 = Some u95 /\
     x = Fin 100 /\
     ~ ((l95 <= l80)%num /\ (l80 <= x)%num /\ (x <= u80)%num /\ (u80 <= u95)%num))
  /\
  (exists s ma_f df' l95 l80 x u80 u95,
     moving_average_forecast "net_cash_flow" 3 1
       (sample_state [jan_2020; jan_2020 + 1] [100; 200]) = (s, Ok ma_f) /\
     calculate_confidence_intervals floor_sqrt ma_f "net_cash_flow" s
     = (s, Ok df') /\
     cell_at df' "lower_95" 0 = Some l95 /\
     cell_at df' "lower_80" 0 = Some l80 /\
     forecast_at df' 0 = Some x /\
     cell_at df' "upper_80" 0 = Some u80 /\
     cell_at df' "upper_95" 0 = Some u95 /\
     ~ ((l95 <= l80)%num /\ (l80 <= x)%num /\ (x <= u80)%num /\ (u80 <= u95)%num)).
Proof.
  split.
  - eexists _, NaN, NaN, (Fin 100), NaN, NaN.
    split; [vm_compute; reflexivity|].
    repeat (split; [vm_compute; reflexivity|]).
    intros (H & _). discriminate H.
  - eexists _, _, _, NaN, NaN, NaN, NaN, NaN.
    split; [vm_compute; reflexivity|].
    split; [vm_compute; reflexivity|].
    repeat (split; [vm_compute; reflexivity|]).
    intros (H & _). discriminate H.
Qed.

(** ** Scenarios *)

Lemma length_append (a b : string) :
  String.length (a +:+ b) = (String.length a + String.length b)%nat.
Proof. induction a as [|c a IH]; simpl; [done|]. by rewrite IH. Qed.

Lemma append_inj_suffix (t a b : string) : a +:+ t = b +:+ t -> a = b.
Proof.
  revert b. induction a as [|c a IH]; intros [|c' b] H.
  - done.
  - apply (f_equal String.length) in H.
    rewrite !length_append in H. cbn [String.length] in H. lia.
  - apply (f_equal String.length) in H.
    rewrite !length_append in H. cbn [String.length] in H. lia.
  - injection H as -> H. f_equal. by apply IH.
Qed.

Lemma scenario_column_not_forecast (name : string) :
  name +:+ "_forecast" <> "forecast".
Proof.
  intros H. apply (f_equal String.length) in H.
  rewrite length_append in H. simpl in H. lia.
Qed.

Lemma with_scenarios_other (f : list num) (items : Scenarios)
    (df : ForecastFrame) (key : string) :
  (forall name, name ∈ map fst items -> key <> name +:+ "_forecast") ->
  cols (with_scenarios f items df) !! key = cols df !! key.
Proof.
  revert df. induction items as [|[name m] rest IH]; intros df Hkey; [done|].
  unfold with_scenarios in *. cbn [fold_left fst snd].
  rewrite IH.
  - apply set_col_lookup_ne. intros Heq. eapply Hkey; [|by symmetry].
    simpl. apply list_elem_of_here.
  - intros n Hn. apply Hkey. simpl. by apply list_elem_of_further.
Qed.

Lemma with_scenarios_forecast (f : list num) (items : Scenarios)
    (df : ForecastFrame) :
  cols (with_scenarios f items df) !! "forecast" = cols df !! "forecast".
Proof.
  apply with_scenarios_other. intros name _ H.
  by apply (scenario_column_not_forecast name).
Qed.

Lemma with_scenarios_lookup (f : list num) (items : Scenarios)
    (df : ForecastFrame) (name : string) (m : num) :
  NoDup (map fst items) ->
  (name, m) ∈ items ->
  cols (with_scenarios f items df) !! (name +:+ "_forecast")
  = Some (map (fun x => (x * m)%num) f).
Proof.
  revert df. induction items as [|[n0 m0] rest IH]; intros df Hnd Hin.
  - by apply elem_of_nil in Hin.
  - simpl in Hnd. apply NoDup_cons in Hnd as [Hfresh Hnd].
    apply elem_of_cons in Hin as [[= -> ->]|Hin].
    + unfold with_scenarios. cbn [fold_left fst snd].
      fold (with_scenarios f rest
              (set_col (n0 +:+ "_forecast") (map (fun x => (x * m0)%num) f) df)).
      rewrite with_scenarios_other; [apply set_col_lookup_eq|].
      intros n Hn Heq. apply append_inj_suffix in Heq. by subst n.
    + unfold with_scenarios. cbn [fold_left fst snd]. by apply IH.
Qed.

Lemma scenario_loop_run (f : list num) (items : Scenarios) (df : ForecastFrame)
    (s : state) :
  cols df !! "forecast" = Some f ->
  scenario_loop df items s = (s, Ok (with_scenarios f items df)).
Proof.
  revert df. induction items as [|[name m] rest IH]; intros df Hf; [done|].
  cbn [scenario_loop]. unfold bind, scenario_step. run_method.
  rewrite Hf. cbn beta iota. rewrite IH; [done|].
  rewrite set_col_lookup_ne; [done|]. apply scenario_column_not_forecast.
Qed.

(** C4.  On a forecast frame, and for the scenarios of the mapping passed
    (whose names are distinct, as the keys of a dictionary are), or for
    pessimistic 0.8, optimistic 1.2 and conservative 0.9 when none is
    passed: [scenario_analysis] returns the frame with, for every scenario
    [name] with multiplier [m], a column [name_forecast] whose entry at
    every period is the point forecast of that period times [m].  The
    point forecasts themselves, and every column that is not a scenario
    column, are left as they were. *)
Theorem scenario_analysis_columns (df : ForecastFrame)
    (scenarios : option Scenarios) (s : state) (f : list num) :
  let items :=
    match scenarios with
    | None => [("pessimistic", Fin (8 # 10)); ("optimistic", Fin (12 # 10));
               ("conservative", Fin (9 # 10))]
    | Some d => d
    end in
  cols df !! "forecast" = Some f ->
  NoDup (map fst items) ->
  exists df',
    scenario_analysis df scenarios s = (s, Ok df') /\
    cols df' !! "forecast" = Some f /\
    (forall name m, (name, m) ∈ items ->
       cols df' !! (name +:+ "_forecast") = Some (map (fun x => (x * m)%num) f) /\
       forall i x, forecast_at df i = Some x ->
                   cell_at df' (name +:+ "_forecast") i = Some (x * m)%num) /\
    (forall key, (forall name, name ∈ map fst items -> key <> name +:+ "_forecast") ->
                 cols df' !! key = cols df !! key).
Proof.
  intros items Hf Hnd. exists (with_scenarios f items df).
  split; [|split; [|split]].
  - unfold scenario_analysis. destruct scenarios; by apply scenario_loop_run.
  - by rewrite with_scenarios_forecast.
  - intros name m Hin.
    assert (Hcol := with_scenarios_lookup f items df name m Hnd Hin).
    split; [done|]. intros i x. unfold forecast_at, cell_at.
    rewrite Hcol, Hf. simpl. intros Hx. by rewrite list_lookup_fmap, Hx.
  - intros key Hkey. by apply with_scenarios_other.
Qed.

(** ** Fallback of exponential smoothing *)

Section Fallback.

Variable holt_winters_fit : list num -> string + HoltWinters.

(** C5.  The call reaches the fit when the series is not empty and has the
    target column (with one cell per row, as every column of a frame).
    Then, when the Holt-Winters fit fails, with whatever message,
    [exponential_smoothing_forecast] does not raise: it returns the frame
    [seasonal_naive_forecast] returns for the same column and horizon, and
    the only trace of the failure is one line, carrying the message,
    appended to the standard output. *)
Theorem exponential_smoothing_falls_back (s : state) (column : string)
    (h : nat) (first : Period) (values : list num) (msg : string) :
  period_min (year_month (data s)) = Some first ->
  wf_data (data s) ->
  fields (data s) !! column = Some values ->
  holt_winters_fit values = inl msg ->
  exists s' df,
    exponential_smoothing_forecast holt_winters_fit column h s = (s', Ok df) /\
    seasonal_naive_forecast column h s = (with_month s, Ok df) /\
    method df = "Seasonal Naive" /\
    data s' = data (with_month s) /\
    stdout s'
    = stdout s ++ ["Exponential smoothing failed: " +:+ msg +:+ ". Falling back."].
Proof.
  intros Hmin Hwf Hcol Hfit.
  assert (Hlen := Hwf column values Hcol).
  destruct (period_min_iloc_last _ _ Hmin) as [last Hlast].
  destruct (with_month_has_month s) as [month_col Hm].
  rewrite (exponential_smoothing_run _ _ _ _ first values) by done.
  unfold fitted_forecast. rewrite Hfit.
  rewrite (seasonal_naive_run column h (logged msg s) last values month_col);
    rewrite ?with_month_logged; cbn [logged data];
    eauto using with_month_fields.
  rewrite (seasonal_naive_run column h s last values month_col);
    eauto using with_month_fields.
  eexists _, _. split; [reflexivity|]. cbn [logged data stdout method].
  by rewrite with_month_stdout.
Qed.

End Fallback.

(** ** Seasonal naive on a month never observed *)

Lemma select_none {A : Type} (mask : list bool) (values : list A) :
  Forall (fun b => b = false) mask -> select mask values = [].
Proof.
  intros H. revert values. unfold select.
  induction H as [|b mask -> _ IH]; intros [|v values]; simpl; auto.
Qed.

Lemma mean_nil : Num.mean [] = NaN.
Proof. reflexivity. Qed.

Lemma eqb_of_Z_ne (a b : Z) : a <> b -> Num.eqb (of_Z a) (of_Z b) = false.
Proof.
  intros H. unfold Num.eqb, of_Z.
  destruct (Qeq_bool _ _) eqn:E; [|done].
  apply Qeq_bool_iff in E. unfold Qeq in E. simpl in E. lia.
Qed.

(** C6, as amended.  On every non-empty series with the target column,
    whatever its [month] column holds: if the forecast month at position
    [i] has no observation one year before it in the series, and no row of
    the series has the calendar month of the forecast month in its [month]
    column, the seasonal-naive forecast still returns, and its value at
    position [i] is [NaN].  The [month] column is the one the series has,
    or, when it has none, the calendar months of [year_month], which the
    method derives. *)
Theorem seasonal_naive_unseen_month_is_nan (s : state) (column : string)
    (h i : nat) (last : Period) (col : list num) :
  iloc_last (year_month (data s)) = Some last ->
  fields (data s) !! column = Some col ->
  (i < h)%nat ->
  let target := last + 1 + Z.of_nat i in
  let month_col :=
    match fields (data s) !! "month" with
    | Some m => m
    | None => dt_month (year_month (data s))
    end in
  (forall p, p ∈ year_month (data s) -> p <> target - 12) ->
  (forall m, m ∈ month_col -> Num.eqb m (of_Z (period_month target)) = false) ->
  exists s' df,
    seasonal_naive_forecast column h s = (s', Ok df) /\
    forecast_at df i = Some NaN.
Proof.
  intros Hlast Hcol Hi target month_col Hprior Hsame.
  assert (Hmonth : fields (data (with_month s)) !! "month" = Some month_col).
  { subst month_col. unfold with_month.
    destruct (fields (data s) !! "month") as [m|] eqn:E; [done|].
    cbn [assign_month data fields]. apply lookup_insert_eq. }
  eexists _, _. split.
  - eapply seasonal_naive_run; eauto using with_month_fields.
  - unfold forecast_at. cbn [cols]. rewrite lookup_forecast_singleton. simpl.
    destruct (lookup_lt_is_Some_2 (dates_after last h) i) as [d Hd];
      [by rewrite length_dates_after|].
    rewrite list_lookup_fmap, Hd. simpl. f_equal.
    destruct (ts_month_dates_after _ _ _ _ Hd) as [Hp Hmon].
    unfold naive_value. rewrite with_month_year_month.
    rewrite select_none.
    + rewrite select_none; [apply mean_nil|].
      rewrite Forall_fmap. apply Forall_forall. intros m Hm. simpl.
      rewrite Hmon. by apply Hsame.
    + rewrite Forall_fmap. apply Forall_forall. intros p Hp'. simpl.
      apply Z.eqb_neq. unfold sub_years.
      rewrite to_period_add_months, Hp. specialize (Hprior p Hp').
      fold target. lia.
Qed.

(** C6, as stated, fails.  The series holds January 2020 only.  The first
    forecast month is February 2020: the series has no February 2019 and no
    February at all, and the forecast returns, with [NaN] for that month. *)
Lemma seasonal_naive_unseen_month_no_error :
  (forall p, p ∈ [jan_2020] -> p <> jan_2020 + 1 - 12) /\
  (forall p, p ∈ [jan_2020] -> period_month p <> period_month (jan_2020 + 1)) /\
  exists s' df,
    seasonal_naive_forecast "net_cash_flow" 1 (sample_state [jan_2020] [100])
    = (s', Ok df) /\
    map to_period (date df) = [jan_2020 + 1] /\
    forecast_at df 0 = Some NaN.
Proof.
  split; [|split].
  - intros p Hp. apply list_elem_of_singleton in Hp as ->. done.
  - intros p Hp. apply list_elem_of_singleton in Hp as ->. done.
  - eexists _, _. split; [vm_compute; reflexivity|].
    split; vm_compute; reflexivity.
Qed.

(** ** Moving average on a short series *)

Lemma iloc_last_map_seq {A : Type} (g : nat -> A) (n : nat) :
  iloc_last (map g (seq 0 (S n))) = Some (g n).
Proof.
  unfold iloc_last. rewrite seq_S, map_app. simpl.
  by rewrite last_snoc.
Qed.

Lemma rolling_mean_short (window : nat) (col : list num) :
  col <> [] -> (length col < window)%nat ->
  iloc_last (rolling_mean window col) = Some NaN.
Proof.
  intros Hne Hlen. unfold rolling_mean.
  destruct (length col) as [|n] eqn:E.
  - by destruct col.
  - rewrite iloc_last_map_seq.
    assert (Hlt : (n + 1 <? window)%nat = true) by (apply Nat.ltb_lt; lia).
    by rewrite Hlt.
Qed.

(** C8, as amended.  On a series with at least one and fewer than [window]
    observations in the target column, the moving-average forecast returns:
    it keeps the window, raises nothing, and every one of its [h] forecast
    values is [NaN]. *)
Theorem moving_average_short_series_is_nan (s : state) (column : string)
    (window h : nat) (col : list num) (last : Period) :
  fields (data s) !! column = Some col ->
  iloc_last (year_month (data s)) = Some last ->
  col <> [] ->
  (length col < window)%nat ->
  exists df,
    moving_average_forecast column window h s = (s, Ok df) /\
    cols df !! "forecast" = Some (replicate h NaN) /\
    length (date df) = h /\
    forall i, (i < h)%nat -> forecast_at df i = Some NaN.
Proof.
  intros Hcol Hlast Hne Hlen. eexists. split.
  - eapply moving_average_run; eauto using rolling_mean_short.
  - cbn [cols date]. rewrite lookup_forecast_singleton, length_dates_after.
    split; [done|]. split; [done|].
    intros i Hi. unfold forecast_at. cbn [cols].
    rewrite lookup_forecast_singleton. simpl. by apply lookup_replicate_2.
Qed.

(** C8, as stated, fails.  With two observations and the window of three,
    the forecast neither shrinks the window (the mean of 100 and 200 would
    be 150) nor raises: it returns [NaN] for both periods asked. *)
Lemma moving_average_short_series_no_error :
  exists df,
    moving_average_forecast "net_cash_flow" 3 2
      (sample_state [jan_2020; jan_2020 + 1] [100; 200])
    = (sample_state [jan_2020; jan_2020 + 1] [100; 200], Ok df) /\
    cols df !! "forecast" = Some [NaN; NaN].
Proof.
  eexists. split; vm_compute; reflexivity.
Qed.

(** ** The ensemble does not compare its members *)

Section EnsembleConsistency.

Variable holt_winters_fit : list num -> string + HoltWinters.

(** C7, as amended.  Whenever the three variants return on a series,
    column and horizon [h], each of them has exactly [h] entries, so that
    they cannot disagree on the number of entries; the moving-average and
    seasonal-naive dates are the same; and [ensemble_forecast] returns,
    whatever the dates of the exponential-smoothing forecast are: it takes
    its dates from the moving-average forecast, and its point forecast at
    every position is the sum of the three variants' forecasts at that
    position, divided by three. *)
Theorem ensemble_takes_moving_average_dates (s : state) (column : string)
    (h : nat) (s1 s2 s3 : state) (ma_f sn_f es_f : ForecastFrame) :
  moving_average_forecast column 3 h s = (s1, Ok ma_f) ->
  seasonal_naive_forecast column h s = (s2, Ok sn_f) ->
  exponential_smoothing_forecast holt_winters_fit column h s = (s3, Ok es_f) ->
  (exists fa fb fc,
     cols ma_f !! "forecast" = Some fa /\ length fa = h /\
     cols sn_f !! "forecast" = Some fb /\ length fb = h /\
     cols es_f !! "forecast" = Some fc /\ length fc = h) /\
  length (date ma_f) = h /\ length (date sn_f) = h /\ length (date es_f) = h /\
  date sn_f = date ma_f /\
  exists s' df,
    ensemble_forecast holt_winters_fit column h s = (s', Ok df) /\
    date df = date ma_f /\
    method df = "Ensemble" /\
    forall i, (i < h)%nat ->
      exists a b c,
        forecast_at ma_f i = Some a /\
        forecast_at sn_f i = Some b /\
        forecast_at es_f i = Some c /\
        forecast_at df i = Some ((a + b + c) / of_Z 3)%num.
Proof.
  intros Hma Hsn Hes.
  destruct (ensemble_of_three_runs holt_winters_fit
              s column h s1 s2 s3 ma_f sn_f es_f Hma Hsn Hes)
    as (fa & fb & fc & s' & Ha & Hla & Hb & Hlb & Hc & Hlc & Hd & Hrun).
  assert (Hmean : forall i, (i < h)%nat ->
            exists a b c,
              forecast_at ma_f i = Some a /\
              forecast_at sn_f i = Some b /\
              forecast_at es_f i = Some c /\
              map (fun x => (x / of_Z 3)%num)
                  (zip_with Num.add (zip_with Num.add fa fb) fc) !! i
              = Some ((a + b + c) / of_Z 3)%num).
  { intros i Hi.
    destruct (lookup_lt_is_Some_2 fa i) as [a Hai]; [lia|].
    destruct (lookup_lt_is_Some_2 fb i) as [b Hbi]; [lia|].
    destruct (lookup_lt_is_Some_2 fc i) as [c Hci]; [lia|].
    exists a, b, c. unfold forecast_at. rewrite Ha, Hb, Hc. cbn.
    by rewrite list_lookup_fmap, !lookup_zip_with, Hai, Hbi, Hci. }
  destruct (moving_average_inv _ _ _ _ _ _ Hma)
    as (-> & col & last_ma & last & Hcol & Hlast_ma & Hlast & Hma_f).
  assert (Hne : is_Some (iloc_last (year_month (data s)))) by eauto.
  destruct (seasonal_naive_length _ _ _ _ _ _ Hne Hcol Hsn)
    as (fb' & Hb' & _ & Hdb).
  destruct (exponential_smoothing_length _ _ _ _ _ _ Hes)
    as (fc' & Hc' & _ & Hdc).
  split; [by exists fa, fb, fc|].
  split; [subst ma_f; apply length_dates_after|].
  split; [done|]. split; [done|]. split; [done|].
  eexists _, _. split; [exact Hrun|]. split; [done|]. split; [done|].
  intros i Hi. destruct (Hmean i Hi) as (a & b & c & Hai & Hbi & Hci & He).
  exists a, b, c. repeat (split; [done|]).
  unfold forecast_at. cbn [cols]. by simplify_map_eq.
Qed.

End EnsembleConsistency.

(** C7, as stated, fails.  The series has 24 observations, January 2020 to
    November 2021 and then January 2022.  The three variants return two
    entries each.  Moving average and seasonal naive forecast February and
    March 2022, the months after the last one; exponential smoothing dates
    its history as 24 consecutive months from January 2020 and so forecasts
    January and February 2022.  The ensemble returns all the same, under the
    moving-average dates. *)
Lemma ensemble_misaligned_months_no_error :
  let s := sample_state gapped_months gapped_values in
  exists s1 s2 s3 ma_f sn_f es_f s' df,
    moving_average_forecast "net_cash_flow" 3 2 s = (s1, Ok ma_f) /\
    seasonal_naive_forecast "net_cash_flow" 2 s = (s2, Ok sn_f) /\
    exponential_smoothing_forecast sample_fit "net_cash_flow" 2 s = (s3, Ok es_f) /\
    map to_period (date ma_f) = [jan_2020 + 25; jan_2020 + 26] /\
    map to_period (date sn_f) = [jan_2020 + 25; jan_2020 + 26] /\
    map to_period (date es_f) = [jan_2020 + 24; jan_2020 + 25] /\
    method es_f = "Exponential Smoothing" /\
    ensemble_forecast sample_fit "net_cash_flow" 2 s = (s', Ok df) /\
    date df = date ma_f.
Proof.
  intros s. eexists _, _, _, _, _, _, _, _.
  split; [vm_compute; reflexivity|].
  split; [vm_compute; reflexivity|].
  split; [vm_compute; reflexivity|].
  split; [vm_compute; reflexivity|].
  split; [vm_compute; reflexivity|].
  split; [vm_compute; reflexivity|].
  split; [vm_compute; reflexivity|].
  split; vm_compute; reflexivity.
Qed.

(** ** What the operations do to the series they are given *)

Lemma read_only_ret {S A : Type} (a : A) : read_only (ret a : M S A).
Proof. by intros s. Qed.

Lemma read_only_raise {S A : Type} (e : exn) : read_only (raise e : M S A).
Proof. by intros s. Qed.

Lemma read_only_get {S : Type} : read_only (get : M S S).
Proof. by intros s. Qed.

Lemma read_only_lift_option {S A : Type} (e : exn) (o : option A) :
  read_only (lift_option e o : M S A).
Proof. destruct o; by intros s. Qed.

Lemma read_only_bind {S A B : Type} (m : M S A) (k : A -> M S B) :
  read_only m -> (forall a, read_only (k a)) -> read_only (bind m k).
Proof.
  intros Hm Hk s. unfold bind. specialize (Hm s).
  destruct (m s) as [s' [a|e]]; simpl in Hm; subst s'; [apply Hk|done].
Qed.

Lemma read_only_for_each {S A B : Type} (body : A -> M S B) (items : list A) :
  (forall x, read_only (body x)) -> read_only (for_each body items).
Proof.
  intros Hbody. induction items as [|x rest IH]; simpl.
  - apply read_only_ret.
  - apply read_only_bind; [apply Hbody|]. intros v.
    apply read_only_bind; [apply IH|]. intros vs. apply read_only_ret.
Qed.

Lemma read_only_data_getitem (column : string) : read_only (data_getitem column).
Proof.
  apply read_only_bind; [apply read_only_get|].
  intros s. apply read_only_lift_option.
Qed.

Lemma read_only_frame_getitem {S : Type} (df : ForecastFrame) (column : string) :
  read_only (frame_getitem df column : M S (list num)).
Proof. apply read_only_lift_option. Qed.

Create HintDb read_only.
#[local] Hint Resolve read_only_ret read_only_raise read_only_get
  read_only_lift_option read_only_data_getitem read_only_frame_getitem
  : read_only.

Ltac read_only_step :=
  first
    [ solve [auto with read_only]
    | apply read_only_bind; [|intros ?]
    | apply read_only_for_each; intros ?
    | match goal with
      | |- read_only (match ?x with _ => _ end) => destruct x
      | |- read_only (if ?b then _ else _) => destruct b
      | |- read_only (let '(_, _) := ?p in _) => destruct p
      end ].

Lemma moving_average_read_only (column : string) (window h : nat) :
  read_only (moving_average_forecast column window h).
Proof. unfold moving_average_forecast. repeat read_only_step. Qed.

Lemma seasonal_naive_value_read_only (column : string) (d : Timestamp) :
  read_only (seasonal_naive_value column d).
Proof. unfold seasonal_naive_value. repeat read_only_step. Qed.

#[local] Hint Resolve moving_average_read_only seasonal_naive_value_read_only
  : read_only.

Lemma data_with_month (s : state) : data (with_month s) = derive_month (data s).
Proof.
  unfold with_month, derive_month.
  by destruct (fields (data s) !! "month").
Qed.

Lemma seasonal_naive_state (column : string) (h : nat) (s : state) :
  fst (seasonal_naive_forecast column h s) = with_month s.
Proof.
  unfold seasonal_naive_forecast.
  unfold bind at 1, get at 1. cbn beta iota.
  set (k := fun _ : unit => _).
  assert (Hk : read_only (k tt)).
  { subst k. cbn beta. repeat read_only_step. }
  unfold with_month.
  destruct (fields (data s) !! "month"); unfold bind, ret, modify; apply Hk.
Qed.

Lemma derive_month_idem (d : MonthlyData) :
  derive_month (derive_month d) = derive_month d.
Proof.
  unfold derive_month at 1.
  destruct (fields (derive_month d) !! "month") eqn:E; [done|].
  unfold derive_month in E. destruct (fields d !! "month") eqn:E'.
  - congruence.
  - simpl in E. by rewrite lookup_insert_eq in E.
Qed.

Section FrameEffect.

Variable sqrtQ : Q -> Q.
Variable holt_winters_fit : list num -> string + HoltWinters.
Variable seasonal_decompose
  : list num -> Z -> string + SeasonalAnalyzer.Decomposition.
Variable linregress : list num -> list num -> string + (num * num * num * num * num).
Variable adfuller : list num -> string + num.

Lemma exponential_smoothing_state (column : string) (h : nat) (s : state) :
  let s' := fst (exponential_smoothing_forecast holt_winters_fit column h s) in
  if falls_back holt_winters_fit column h s
  then exists msg, s' = with_month (logged msg s)
  else s' = s.
Proof.
  unfold exponential_smoothing_forecast, falls_back. run_method.
  destruct (period_min (year_month (data s))); cbn beta iota; [|done].
  destruct (fields (data s) !! column) as [values|]; cbn beta iota; [|done].
  rewrite length_date_range_ME.
  destruct (_ =? _)%nat; cbn beta iota; [|done].
  unfold fitted_forecast. cbn [andb].
  destruct (holt_winters_fit values) as [msg|model]; cbn beta iota.
  - exists msg. unfold print, modify. cbn beta iota.
    apply seasonal_naive_state.
  - destruct (model h) as [msg|forecast]; cbn beta iota; [|done].
    exists msg. unfold print, modify. cbn beta iota.
    apply seasonal_naive_state.
Qed.

Lemma exponential_smoothing_data (column : string) (h : nat) (s : state) :
  data (fst (exponential_smoothing_forecast holt_winters_fit column h s))
  = if falls_back holt_winters_fit column h s
    then derive_month (data s)
    else data s.
Proof.
  pose proof (exponential_smoothing_state column h s) as H. cbv zeta in H.
  destruct (falls_back holt_winters_fit column h s).
  - destruct H as [msg ->]. by rewrite data_with_month.
  - by rewrite H.
Qed.

Lemma ensemble_data (column : string) (h : nat) (s : state) :
  data (fst (ensemble_forecast holt_winters_fit column h s))
  = match snd (moving_average_forecast column 3 h s) with
    | Ok _ => derive_month (data s)
    | Raise _ => data s
    end.
Proof.
  unfold ensemble_forecast. rewrite bind_run.
  pose proof (moving_average_read_only column 3 h s) as Hma.
  destruct (moving_average_forecast column 3 h s) as [s1 [ma_f|e]];
    cbn [fst snd] in *; subst s1; [|done].
  rewrite bind_run.
  pose proof (seasonal_naive_state column h s) as Hsn.
  destruct (seasonal_naive_forecast column h s) as [s2 [sn_f|e]];
    cbn [fst] in Hsn; subst s2; [|cbn [fst]; by rewrite data_with_month].
  rewrite bind_run.
  pose proof (exponential_smoothing_data column h (with_month s)) as Hes.
  rewrite data_with_month, derive_month_idem in Hes.
  assert (Hes' : data (fst (exponential_smoothing_forecast holt_winters_fit
                              column h (with_month s)))
                 = derive_month (data s)).
  { rewrite Hes. by destruct (falls_back _ _ _ _). }
  clear Hes.
  destruct (exponential_smoothing_forecast _ column h (with_month s))
    as [s3 [es_f|e]]; cbn [fst] in Hes'; [|done].
  match goal with
  | |- data (fst (?tail s3)) = _ =>
      assert (Htail : read_only tail) by repeat read_only_step;
      rewrite Htail
  end.
  done.
Qed.

End FrameEffect.

Lemma keeps_data_read_only {A : Type} (m : M SeasonalAnalyzer.state A) :
  read_only m -> keeps_data m.
Proof. intros H a. by rewrite H. Qed.

Lemma keeps_data_bind {A B : Type} (m : M SeasonalAnalyzer.state A)
    (k : A -> M SeasonalAnalyzer.state B) :
  keeps_data m -> (forall x, keeps_data (k x)) -> keeps_data (bind m k).
Proof.
  intros Hm Hk a. rewrite bind_run. specialize (Hm a).
  destruct (m a) as [a' [x|e]]; cbn [fst] in *; [|done].
  by rewrite Hk.
Qed.

Lemma analyzer_getitem_read_only (column : string) :
  read_only (SeasonalAnalyzer.data_getitem column).
Proof.
  unfold SeasonalAnalyzer.data_getitem.
  apply read_only_bind; [apply read_only_get|].
  intros a. apply read_only_lift_option.
Qed.

Lemma call_library_read_only {A : Type} (r : string + A) :
  read_only (SeasonalAnalyzer.call_library r).
Proof. destruct r as [msg|x]; by intros a. Qed.

#[local] Hint Resolve analyzer_getitem_read_only call_library_read_only
  : read_only.

Ltac keeps_data_step :=
  first
    [ solve [apply keeps_data_read_only; repeat read_only_step]
    | solve [intros ?; reflexivity]
    | apply keeps_data_bind; [|intros ?]
    | match goal with
      | |- keeps_data (match ?x with _ => _ end) => destruct x
      | |- keeps_data (if ?b then _ else _) => destruct b
      end ].

Section AnalyzerEffect.

Variable sqrtQ : Q -> Q.
Variable seasonal_decompose
  : list num -> Z -> string + SeasonalAnalyzer.Decomposition.
Variable linregress : list num -> list num -> string + (num * num * num * num * num).
Variable adfuller : list num -> string + num.

Lemma decompose_time_series_keeps_data (column : string) (period : Z) :
  keeps_data (SeasonalAnalyzer.decompose_time_series seasonal_decompose column period).
Proof.
  unfold SeasonalAnalyzer.decompose_time_series. repeat keeps_data_step.
Qed.

Lemma trend_analysis_read_only (column : string) :
  read_only (SeasonalAnalyzer.trend_analysis linregress adfuller column).
Proof.
  unfold SeasonalAnalyzer.trend_analysis. repeat read_only_step.
Qed.

Lemma analyze_seasonality_data (column : string) (a : SeasonalAnalyzer.state) :
  SeasonalAnalyzer.data (fst (SeasonalAnalyzer.analyze_seasonality sqrtQ column a))
  = derive_month (SeasonalAnalyzer.data a).
Proof.
  unfold SeasonalAnalyzer.analyze_seasonality.
  rewrite bind_run. unfold get at 1. cbn beta iota.
  match goal with
  | |- SeasonalAnalyzer.data (fst (bind ?m ?k a)) = _ =>
      assert (Hk : keeps_data (k tt)) by (cbn beta; repeat keeps_data_step)
  end.
  rewrite bind_run. unfold derive_month.
  destruct (fields (SeasonalAnalyzer.data a) !! "month");
    unfold ret, modify; rewrite Hk; reflexivity.
Qed.

End AnalyzerEffect.

Lemma derive_month_spec (d : MonthlyData) :
  year_month (derive_month d) = year_month d /\
  (forall c, c <> "month" -> fields (derive_month d) !! c = fields d !! c) /\
  (is_Some (fields d !! "month") -> derive_month d = d) /\
  (fields d !! "month" = None ->
   fields (derive_month d) !! "month" = Some (dt_month (year_month d))).
Proof.
  unfold derive_month. destruct (fields d !! "month") as [v|] eqn:E.
  - repeat split; try done.
  - cbn [year_month fields]. repeat split.
    + intros c Hc. by rewrite lookup_insert_ne.
    + by intros [v Hv].
    + intros _. apply lookup_insert_eq.
Qed.

Section SeriesEffect.

Variable sqrtQ : Q -> Q.
Variable holt_winters_fit : list num -> string + HoltWinters.
Variable seasonal_decompose
  : list num -> Z -> string + SeasonalAnalyzer.Decomposition.
Variable linregress : list num -> list num -> string + (num * num * num * num * num).
Variable adfuller : list num -> string + num.

(** C9, as amended.  Whether they return or raise: [trend_analysis],
    [decompose_time_series] and [moving_average_forecast] leave the series
    exactly as it was; [analyze_seasonality] and [seasonal_naive_forecast]
    leave it with the [month] column derived.
    [exponential_smoothing_forecast] leaves it with the [month] column
    derived exactly when it falls back to the seasonal-naive forecast, and
    as it was otherwise: after a forecast of the fitted model, and when it
    raises before its [try] block.  [ensemble_forecast] leaves it with
    the [month] column derived when its first call, the moving average,
    returns, and as it was when that call raises.  Deriving the [month]
    column keeps [year_month] and every other column as they were, changes
    nothing when the series has a [month] column, and otherwise adds that
    column, the calendar months of [year_month]. *)
Theorem series_changed_by_month_column_only :
  (forall column a,
     SeasonalAnalyzer.data
       (fst (SeasonalAnalyzer.trend_analysis linregress adfuller column a))
     = SeasonalAnalyzer.data a) /\
  (forall column period a,
     SeasonalAnalyzer.data
       (fst (SeasonalAnalyzer.decompose_time_series seasonal_decompose
               column period a))
     = SeasonalAnalyzer.data a) /\
  (forall column window h s,
     data (fst (moving_average_forecast column window h s)) = data s) /\
  (forall column a,
     SeasonalAnalyzer.data
       (fst (SeasonalAnalyzer.analyze_seasonality sqrtQ column a))
     = derive_month (SeasonalAnalyzer.data a)) /\
  (forall column h s,
     data (fst (seasonal_naive_forecast column h s)) = derive_month (data s)) /\
  (forall column h s,
     data (fst (exponential_smoothing_forecast holt_winters_fit column h s))
     = if falls_back holt_winters_fit column h s
       then derive_month (data s)
       else data s) /\
  (forall column h s,
     data (fst (ensemble_forecast holt_winters_fit column h s))
     = match snd (moving_average_forecast column 3 h s) with
       | Ok _ => derive_month (data s)
       | Raise _ => data s
       end) /\
  (forall d,
     year_month (derive_month d) = year_month d /\
     (forall c, c <> "month" -> fields (derive_month d) !! c = fields d !! c) /\
     (is_Some (fields d !! "month") -> derive_month d = d) /\
     (fields d !! "month" = None ->
      fields (derive_month d) !! "month" = Some (dt_month (year_month d)))).
Proof.
  repeat split.
  - intros column a. by rewrite trend_analysis_read_only.
  - intros column period a. apply decompose_time_series_keeps_data.
  - intros column window h s. by rewrite moving_average_read_only.
  - intros column a. apply analyze_seasonality_data.
  - intros column h s. by rewrite seasonal_naive_state, data_with_month.
  - intros column h s. apply exponential_smoothing_data.
  - intros column h s. apply ensemble_data.
  - apply derive_month_spec.
  - apply derive_month_spec.
  - apply derive_month_spec.
  - apply derive_month_spec.
Qed.

End SeriesEffect.

(** C9, as stated, fails.  The series has the columns [year_month] and
    [net_cash_flow] and no [month] column.  After [seasonal_naive_forecast],
    and after [analyze_seasonality], it has a [month] column: the series is
    not the one that was handed over. *)
Lemma month_column_added_to_series :
  fields (data (sample_state [jan_2020; jan_2020 + 1] [100; 200])) !! "month"
  = None /\
  (exists s' df,
     seasonal_naive_forecast "net_cash_flow" 1
       (sample_state [jan_2020; jan_2020 + 1] [100; 200]) = (s', Ok df) /\
     fields (data s') !! "month" = Some [of_Z 1; of_Z 2] /\
     data s' <> data (sample_state [jan_2020; jan_2020 + 1] [100; 200])) /\
  (exists a' stats,
     SeasonalAnalyzer.analyze_seasonality floor_sqrt "net_cash_flow"
       (sample_analyzer [jan_2020; jan_2020 + 1] [100; 200]) = (a', Ok stats) /\
     fields (SeasonalAnalyzer.data a') !! "month" = Some [of_Z 1; of_Z 2] /\
     SeasonalAnalyzer.data a'
     <> SeasonalAnalyzer.data (sample_analyzer [jan_2020; jan_2020 + 1] [100; 200])).
Proof.
  split; [vm_compute; reflexivity|]. split.
  - eexists _, _. split; [vm_compute; reflexivity|].
    split; [vm_compute; reflexivity|].
    intros H. apply (f_equal (fun d => fields d !! "month")) in H.
    vm_compute in H. discriminate H.
  - eexists _, _. split; [vm_compute; reflexivity|].
    split; [vm_compute; reflexivity|].
    intros H. apply (f_equal (fun d => fields d !! "month")) in H.
    vm_compute in H. discriminate H.
Qed.

(** ** The theorems at sample inputs *)

(** Four months from January 2020, too few for the sample fit: exponential
    smoothing falls back. *)
Lemma ensemble_point_forecast_is_mean_witness :
  exists s' df,
    ensemble_forecast sample_fit "net_cash_flow" 2
      (sample_state [600; 601; 602; 603] [10; 20; 30; 40]) = (s', Ok df) /\
    forall i, (i < 2)%nat ->
      exists a b c e,
        forecast_at
          (mkForecastFrame (dates_after 603 2) "Moving Average"
             {["forecast" := [Fin (90 # 3); Fin (90 # 3)]]}) i = Some a /\
        forecast_at
          (mkForecastFrame (dates_after 603 2) "Seasonal Naive"
             {["forecast" := [NaN; NaN]]}) i = Some b /\
        forecast_at
          (mkForecastFrame (dates_after 603 2) "Seasonal Naive"
             {["forecast" := [NaN; NaN]]}) i = Some c /\
        cell_at df "ma_forecast" i = Some a /\
        cell_at df "seasonal_forecast" i = Some b /\
        cell_at df "es_forecast" i = Some c /\
        forecast_at df i = Some e /\
        e = ((a + b + c) / of_Z 3)%num /\
        Num.same e (arithmetic_mean [a; b; c]).
Proof.
  eapply (ensemble_point_forecast_is_mean sample_fit
            (sample_state [600; 601; 602; 603] [10; 20; 30; 40])
            "net_cash_flow" 2);
    vm_compute; reflexivity.
Defined.

Lemma seasonal_naive_horizon_months_witness :
  exists s' df fc,
    seasonal_naive_forecast "net_cash_flow" 3
      (sample_state [600; 601] [10; 20]) = (s', Ok df) /\
    cols df !! "forecast" = Some fc /\
    length fc = 3%nat /\
    length (date df) = 3%nat /\
    map to_period (date df) = months_after 601 3.
Proof.
  apply (seasonal_naive_horizon_months (sample_state [600; 601] [10; 20])
           "net_cash_flow" 3 601 [of_Z 10; of_Z 20]);
    vm_compute; reflexivity.
Defined.

Lemma confidence_bands_ordered_witness :
  exists df' sigma,
    calculate_confidence_intervals floor_sqrt (one_entry_frame (Fin 100))
      "net_cash_flow" (sample_state [600; 601] [10; 20])
    = (sample_state [600; 601] [10; 20], Ok df') /\
    Num.std floor_sqrt [of_Z 10; of_Z 20] = Fin sigma /\
    forall i x, [Fin 100] !! i = Some x ->
      exists l95 l80 u80 u95,
        forecast_at df' i = Some x /\
        cell_at df' "lower_95" i = Some l95 /\
        cell_at df' "lower_80" i = Some l80 /\
        cell_at df' "upper_80" i = Some u80 /\
        cell_at df' "upper_95" i = Some u95 /\
        l95 = (x - Fin Q_1_96 * Fin sigma)%num /\
        l80 = (x - Fin Q_1_28 * Fin sigma)%num /\
        u80 = (x + Fin Q_1_28 * Fin sigma)%num /\
        u95 = (x + Fin Q_1_96 * Fin sigma)%num /\
        (x <> NaN ->
         (l95 <= l80)%num /\ (l80 <= x)%num /\ (x <= u80)%num /\ (u80 <= u95)%num).
Proof.
  apply (confidence_bands_ordered floor_sqrt floor_sqrt_nonneg
           (one_entry_frame (Fin 100)) "net_cash_flow"
           (sample_state [600; 601] [10; 20]) [of_Z 10; of_Z 20] [Fin 100]).
  - vm_compute; reflexivity.
  - vm_compute; reflexivity.
  - repeat constructor.
  - simpl. lia.
Defined.

Lemma scenario_analysis_columns_witness :
  exists df',
    scenario_analysis (one_entry_frame (Fin 100)) None
      (sample_state [600; 601] [10; 20])
    = (sample_state [600; 601] [10; 20], Ok df') /\
    cols df' !! "forecast" = Some [Fin 100] /\
    (forall name m,
       (name, m) ∈ [("pessimistic", Fin (8 # 10)); ("optimistic", Fin (12 # 10));
                    ("conservative", Fin (9 # 10))] ->
       cols df' !! (name +:+ "_forecast")
       = Some (map (fun x => (x * m)%num) [Fin 100]) /\
       forall i x, forecast_at (one_entry_frame (Fin 100)) i = Some x ->
                   cell_at df' (name +:+ "_forecast") i = Some (x * m)%num) /\
    (forall key,
       (forall name,
          name ∈ map fst [("pessimistic", Fin (8 # 10)); ("optimistic", Fin (12 # 10));
                          ("conservative", Fin (9 # 10))] ->
          key <> name +:+ "_forecast") ->
       cols df' !! key = cols (one_entry_frame (Fin 100)) !! key).
Proof.
  apply (scenario_analysis_columns (one_entry_frame (Fin 100)) None
           (sample_state [600; 601] [10; 20]) [Fin 100]).
  - vm_compute; reflexivity.
  - apply (bool_decide_unpack _). vm_compute. exact I.
Defined.

Lemma exponential_smoothing_falls_back_witness :
  exists s' df,
    exponential_smoothing_forecast sample_fit "net_cash_flow" 2
      (sample_state [600; 601] [10; 20]) = (s', Ok df) /\
    seasonal_naive_forecast "net_cash_flow" 2 (sample_state [600; 601] [10; 20])
    = (with_month (sample_state [600; 601] [10; 20]), Ok df) /\
    method df = "Seasonal Naive" /\
    data s' = data (with_month (sample_state [600; 601] [10; 20])) /\
    stdout s'
    = stdout (sample_state [600; 601] [10; 20])
      ++ ["Exponential smoothing failed: "
          +:+ "Cannot compute initial seasonals using heuristic method with less than two full seasonal cycles in the data."
          +:+ ". Falling back."].
Proof.
  apply (exponential_smoothing_falls_back sample_fit
           (sample_state [600; 601] [10; 20]) "net_cash_flow" 2 600
           [of_Z 10; of_Z 20]).
  - vm_compute; reflexivity.
  - intros c v Hv. unfold sample_state in Hv. cbn [data fields] in Hv.
    apply lookup_singleton_Some in Hv as [_ <-]. reflexivity.
  - vm_compute; reflexivity.
  - vm_compute; reflexivity.
Defined.

Lemma seasonal_naive_unseen_month_is_nan_witness :
  exists s' df,
    seasonal_naive_forecast "net_cash_flow" 2
      (sample_state [jan_2020] [100]) = (s', Ok df) /\
    forecast_at df 0 = Some NaN.
Proof.
  apply (seasonal_naive_unseen_month_is_nan (sample_state [jan_2020] [100])
           "net_cash_flow" 2 0 jan_2020 [of_Z 100]).
  - vm_compute; reflexivity.
  - vm_compute; reflexivity.
  - lia.
  - intros p Hp. apply list_elem_of_singleton in Hp. subst p. discriminate.
  - intros m Hm. change (m ∈ [of_Z 1]) in Hm.
    apply list_elem_of_singleton in Hm. subst m. reflexivity.
Defined.

Lemma ensemble_takes_moving_average_dates_witness :
  let s := sample_state gapped_months gapped_values in
  exists ma_f sn_f es_f,
    ((exists fa fb fc,
        cols ma_f !! "forecast" = Some fa /\ length fa = 2%nat /\
        cols sn_f !! "forecast" = Some fb /\ length fb = 2%nat /\
        cols es_f !! "forecast" = Some fc /\ length fc = 2%nat) /\
     length (date ma_f) = 2%nat /\ length (date sn_f) = 2%nat /\
     length (date es_f) = 2%nat /\
     date sn_f = date ma_f /\
     exists s' df,
       ensemble_forecast sample_fit "net_cash_flow" 2 s = (s', Ok df) /\
       date df = date ma_f /\
       method df = "Ensemble" /\
       forall i, (i < 2)%nat ->
         exists a b c,
           forecast_at ma_f i = Some a /\
           forecast_at sn_f i = Some b /\
           forecast_at es_f i = Some c /\
           forecast_at df i = Some ((a + b + c) / of_Z 3)%num).
Proof.
  intros s. eexists _, _, _.
  eapply (ensemble_takes_moving_average_dates sample_fit s "net_cash_flow" 2);
    vm_compute; reflexivity.
Defined.

Lemma moving_average_short_series_is_nan_witness :
  exists df,
    moving_average_forecast "net_cash_flow" 3 2
      (sample_state [600; 601] [10; 20])
    = (sample_state [600; 601] [10; 20], Ok df) /\
    cols df !! "forecast" = Some (replicate 2 NaN) /\
    length (date df) = 2%nat /\
    forall i, (i < 2)%nat -> forecast_at df i = Some NaN.
Proof.
  apply (moving_average_short_series_is_nan (sample_state [600; 601] [10; 20])
           "net_cash_flow" 3 2 [of_Z 10; of_Z 20] 601).
  - vm_compute; reflexivity.
  - vm_compute; reflexivity.
  - discriminate.
  - simpl. lia.
Defined.

(** ** Two runs of the model *)

(** A constant series of 5000 gives a flat moving-average forecast of
    5000. *)
Example moving_average_constant_series :
  exists df fc,
    moving_average_forecast "net_cash_flow" 3 4
      (sample_state [600; 601; 602; 603] [5000; 5000; 5000; 5000])
    = (sample_state [600; 601; 602; 603] [5000; 5000; 5000; 5000], Ok df) /\
    cols df !! "forecast" = Some fc /\
    length fc = 4%nat /\
    Forall (fun x => Num.same x (of_Z 5000)) fc.
Proof.
  eexists _, _. split; [vm_compute; reflexivity|].
  split; [vm_compute; reflexivity|]. split; [reflexivity|].
  repeat constructor.
Qed.

(** With the twelve months of 2020 as history, the seasonal-naive forecast
    of the twelve months of 2021 repeats the twelve values. *)
Example seasonal_naive_one_year_history :
  let months := map (fun i => jan_2020 + Z.of_nat i) (seq 0 12) in
  let values := map (fun i => 100 * Z.of_nat i) (seq 1 12) in
  exists s' df,
    seasonal_naive_forecast "net_cash_flow" 12 (sample_state months values)
    = (s', Ok df) /\
    cols df !! "forecast" = Some (map of_Z values) /\
    map to_period (date df) = map (fun i => jan_2020 + 12 + Z.of_nat i) (seq 0 12).
Proof.
  eexists _, _. split; [vm_compute; reflexivity|].
  split; vm_compute; reflexivity.
Qed.

(** * Further properties of the forecaster *)

(** ** Moving average *)

Lemma forallb_isfinite (l : list num) :
  Forall is_finite l -> forallb Num.isfinite l = true.
Proof.
  induction 1 as [|a l Ha _ IH]; [done|]. simpl. rewrite IH.
  by destruct a.
Qed.

Lemma rolling_mean_last_window (window : nat) (col : list num) :
  (0 < window)%nat -> (window <= length col)%nat ->
  Forall is_finite (skipn (length col - window) col) ->
  iloc_last (rolling_mean window col)
  = Some (arithmetic_mean (skipn (length col - window) col)).
Proof.
  intros Hw Hlen Hfin. unfold rolling_mean.
  destruct (length col) as [|n] eqn:E; [lia|].
  rewrite iloc_last_map_seq.
  assert (Hlt : (n + 1 <? window)%nat = false) by (apply Nat.ltb_ge; lia).
  rewrite Hlt. replace (n + 1 - window)%nat with (S n - window)%nat by lia.
  assert (Hl : length (skipn (S n - window) col) = window).
  { rewrite length_skipn. lia. }
  rewrite firstn_all2 by lia.
  rewrite forallb_isfinite by done.
  unfold arithmetic_mean. by rewrite Hl.
Qed.

(** X1.  With at least [window >= 1] observations, the last [window] of
    them finite, the moving-average forecast is flat: each of its [h]
    values is the arithmetic mean of the last [window] observations, and
    its dates are the month ends of the [h] months after the last one. *)
Theorem moving_average_last_window_mean (s : state) (column : string)
    (window h : nat) (col : list num) (last : Period) :
  fields (data s) !! column = Some col ->
  iloc_last (year_month (data s)) = Some last ->
  (0 < window)%nat -> (window <= length col)%nat ->
  Forall is_finite (skipn (length col - window) col) ->
  exists df,
    moving_average_forecast column window h s = (s, Ok df) /\
    cols df !! "forecast"
    = Some (replicate h (arithmetic_mean (skipn (length col - window) col))) /\
    map to_period (date df) = months_after last h /\
    method df = "Moving Average".
Proof.
  intros Hcol Hlast Hw Hlen Hfin. eexists. split.
  - eapply moving_average_run; eauto using rolling_mean_last_window.
  - cbn [cols date method]. rewrite lookup_forecast_singleton.
    split; [done|]. split; [apply to_period_dates_after|done].
Qed.

(** X2.  The moving-average forecast raises [KeyError] for a column the
    series does not have, and [IndexError] for a column without rows; in
    both cases the forecaster is left as it was. *)
Theorem moving_average_errors (s : state) (column : string) (window h : nat) :
  (fields (data s) !! column = None ->
   moving_average_forecast column window h s = (s, Raise (KeyError column))) /\
  (fields (data s) !! column = Some [] ->
   moving_average_forecast column window h s = (s, Raise IndexError)) /\
  (forall col, fields (data s) !! column = Some col ->
               year_month (data s) = [] ->
               moving_average_forecast column window h s = (s, Raise IndexError)).
Proof.
  unfold moving_average_forecast. run_method. repeat split.
  - by intros ->.
  - by intros ->.
  - intros col -> Hym. cbn beta iota.
    destruct (iloc_last (rolling_mean window col)); cbn beta iota; [|done].
    by rewrite Hym.
Qed.

(** ** Seasonal naive *)

Lemma select_first_true {A : Type} (mask : list bool) (values : list A)
    (k : nat) (v : A) :
  mask !! k = Some true ->
  values !! k = Some v ->
  (forall j, (j < k)%nat -> mask !! j = Some false) ->
  exists rest, select mask values = v :: rest.
Proof.
  revert values k. unfold select.
  induction mask as [|b mask IH]; intros values k Hm Hv Hbefore; [done|].
  destruct values as [|x values]; [done|].
  destruct k as [|k]; simpl in *.
  - injection Hm as ->. injection Hv as ->. simpl. eauto.
  - assert (Hb : b = false).
    { specialize (Hbefore 0%nat ltac:(lia)). simpl in Hbefore. congruence. }
    subst b. simpl. apply (IH values k); auto.
    intros j Hj. apply (Hbefore (S j)). lia.
Qed.

Lemma month_mask_true (l : list Z) (target : Z) (k : nat) :
  l !! k = Some target -> map (fun p => p =? target) l !! k = Some true.
Proof. intros H. rewrite list_lookup_fmap, H. simpl. by rewrite Z.eqb_refl. Qed.

Lemma month_mask_false (l : list Z) (target p : Z) (j : nat) :
  l !! j = Some p -> p <> target ->
  map (fun p => p =? target) l !! j = Some false.
Proof.
  intros H Hne. rewrite list_lookup_fmap, H. simpl. f_equal.
  by apply Z.eqb_neq.
Qed.

Lemma seasonal_naive_rest_run (column : string) (periods : nat) (s : state)
    (last : Period) (col month_col : list num) :
  iloc_last (year_month (data s)) = Some last ->
  fields (data s) !! column = Some col ->
  fields (data s) !! "month" = Some month_col ->
  seasonal_naive_rest column periods s
  = (s, Ok (mkForecastFrame (dates_after last periods) "Seasonal Naive"
              {["forecast" :=
                  map (naive_value (data s) col month_col)
                      (dates_after last periods)]})).
Proof.
  intros Hlast Hc Hm. unfold seasonal_naive_rest.
  rewrite bind_run. unfold get at 1. cbn beta iota.
  rewrite bind_run, Hlast. unfold lift_option at 1, ret at 1. cbn beta iota.
  rewrite bind_run.
  rewrite (for_each_read_only _ (naive_value (data s) col month_col)).
  - reflexivity.
  - intros d _. by apply seasonal_naive_value_run.
Qed.

(** The method is: derive the [month] column if missing, then the rest. *)
Lemma seasonal_naive_split (column : string) (periods : nat) (s : state) :
  seasonal_naive_forecast column periods s
  = seasonal_naive_rest column periods (with_month s).
Proof.
  unfold seasonal_naive_forecast, with_month.
  rewrite bind_run. unfold get at 1. cbn beta iota. rewrite bind_run.
  destruct (fields (data s) !! "month"); reflexivity.
Qed.

Lemma forecast_at_naive (d : MonthlyData) (col month_col : list num)
    (dates : list Timestamp) (label : string) (i : nat) (day : Timestamp) :
  dates !! i = Some day ->
  forecast_at
    (mkForecastFrame dates label
       {["forecast" := map (naive_value d col month_col) dates]}) i
  = Some (naive_value d col month_col day).
Proof.
  intros Hd. unfold forecast_at. cbn [cols].
  rewrite lookup_forecast_singleton. simpl.
  by rewrite list_lookup_fmap, Hd.
Qed.

(** X3.  If row [k] is the first row of the series dated one year before
    the forecast month at position [i], the seasonal-naive forecast at [i]
    is the value of the target column on row [k], as it is. *)
Theorem seasonal_naive_reuses_last_year (s : state) (column : string)
    (h i k : nat) (last : Period) (col : list num) (v : num) :
  iloc_last (year_month (data s)) = Some last ->
  fields (data s) !! column = Some col ->
  (i < h)%nat ->
  year_month (data s) !! k = Some (last + 1 + Z.of_nat i - 12) ->
  (forall j p, (j < k)%nat -> year_month (data s) !! j = Some p ->
               p <> last + 1 + Z.of_nat i - 12) ->
  col !! k = Some v ->
  exists s' df,
    seasonal_naive_forecast column h s = (s', Ok df) /\
    forecast_at df i = Some v.
Proof.
  intros Hlast Hcol Hi Hk Hfirst Hv.
  destruct (with_month_has_month s) as [month_col Hm].
  eexists _, _. split.
  - eapply seasonal_naive_run; eauto using with_month_fields.
  - destruct (lookup_lt_is_Some_2 (dates_after last h) i) as [d Hd];
      [by rewrite length_dates_after|].
    rewrite (forecast_at_naive _ _ _ _ _ _ d Hd). f_equal.
    destruct (ts_month_dates_after _ _ _ _ Hd) as [Hp _].
    unfold naive_value. rewrite with_month_year_month.
    assert (Htarget : to_period (sub_years d 1) = last + 1 + Z.of_nat i - 12).
    { unfold sub_years. rewrite to_period_add_months, Hp. lia. }
    rewrite Htarget.
    destruct (select_first_true
                (map (fun p => p =? last + 1 + Z.of_nat i - 12)
                     (year_month (data s))) col k v) as [rest ->]; auto.
    + by apply month_mask_true.
    + intros j Hj.
      destruct (lookup_lt_is_Some_2 (year_month (data s)) j) as [p Hp'].
      { eapply Nat.lt_trans; [exact Hj|]. exact (lookup_lt_Some _ _ _ Hk). }
      apply (month_mask_false _ _ p); eauto.
Qed.

Lemma lookup_consecutive_months (first : Period) (n j : nat) :
  (j < n)%nat ->
  consecutive_months first n !! j = Some (first + Z.of_nat j).
Proof.
  intros Hj. unfold consecutive_months.
  rewrite list_lookup_fmap, lookup_seq_lt by done. reflexivity.
Qed.

Lemma lookup_consecutive_months_inv (first : Period) (n j : nat) (p : Period) :
  consecutive_months first n !! j = Some p -> p = first + Z.of_nat j /\ (j < n)%nat.
Proof.
  unfold consecutive_months. intros H.
  apply list_lookup_fmap_Some in H as (j' & -> & Hj).
  apply lookup_seq in Hj as [-> Hlt]. done.
Qed.

Lemma iloc_last_consecutive_months (first : Period) (n : nat) :
  iloc_last (consecutive_months first (S n)) = Some (first + Z.of_nat n).
Proof. exact (iloc_last_map_seq (fun j => first + Z.of_nat j) n). Qed.

(** X4.  On a series of [n >= 12] months without a gap, each of the first
    twelve forecasts repeats the observation made twelve months before:
    the forecast at position [i < 12] is the value of row [n - 12 + i]. *)
Theorem seasonal_naive_repeats_last_twelve (s : state) (column : string)
    (h i n : nat) (first : Period) (col : list num) :
  year_month (data s) = consecutive_months first n ->
  fields (data s) !! column = Some col ->
  length col = n ->
  (12 <= n)%nat ->
  (i < h)%nat -> (i < 12)%nat ->
  exists s' df v,
    seasonal_naive_forecast column h s = (s', Ok df) /\
    col !! (n - 12 + i)%nat = Some v /\
    forecast_at df i = Some v.
Proof.
  intros Hym Hcol Hlen Hn Hi Hi12.
  destruct n as [|n']; [lia|].
  assert (Hlast : iloc_last (year_month (data s)) = Some (first + Z.of_nat n'))
    by (rewrite Hym; apply iloc_last_consecutive_months).
  destruct (lookup_lt_is_Some_2 col (S n' - 12 + i)) as [v Hv]; [lia|].
  destruct (with_month_has_month s) as [month_col Hm].
  eexists _, _, v. split; [|split; [exact Hv|]].
  - eapply seasonal_naive_run; eauto using with_month_fields.
  - destruct (lookup_lt_is_Some_2 (dates_after (first + Z.of_nat n') h) i)
      as [d Hd]; [by rewrite length_dates_after|].
    rewrite (forecast_at_naive _ _ _ _ _ _ d Hd). f_equal.
    destruct (ts_month_dates_after _ _ _ _ Hd) as [Hp _].
    unfold naive_value. rewrite with_month_year_month, Hym.
    assert (Htarget : to_period (sub_years d 1)
                      = first + Z.of_nat (S n' - 12 + i)).
    { unfold sub_years. rewrite to_period_add_months, Hp. lia. }
    rewrite Htarget.
    destruct (select_first_true
                (map (fun p => p =? first + Z.of_nat (S n' - 12 + i))
                     (consecutive_months first (S n'))) col
                (S n' - 12 + i) v) as [rest ->]; auto.
    + apply month_mask_true. apply lookup_consecutive_months. lia.
    + intros j Hj. apply (month_mask_false _ _ (first + Z.of_nat j)).
      * apply lookup_consecutive_months. lia.
      * lia.
Qed.

Lemma eqb_of_Z (a b : Z) : Num.eqb (of_Z a) (of_Z b) = (a =? b).
Proof.
  destruct (Z.eqb_spec a b) as [->|Hne].
  - unfold Num.eqb, of_Z. apply Qeq_bool_iff. reflexivity.
  - by apply eqb_of_Z_ne.
Qed.

Lemma month_mask_dt_month (l : list Period) (m : Z) :
  map (fun x => Num.eqb x (of_Z m)) (dt_month l)
  = map (fun p => period_month p =? m) l.
Proof.
  unfold dt_month. rewrite map_map. apply map_ext. intros p. apply eqb_of_Z.
Qed.

Lemma period_month_next_year (p : Period) :
  period_month (p + 12) = period_month p.
Proof. unfold period_month. Z.div_mod_to_equations. lia. Qed.


(** X6.  Errors and the empty horizon of the seasonal-naive forecast.  On a
    series without rows it raises [IndexError]; on a series that lacks the
    target column it raises [KeyError] as soon as one period is asked for,
    and returns an empty frame when none is.  In all three cases the
    [month] column has been derived by then, if it was missing. *)
Theorem seasonal_naive_errors (s : state) (column : string) :
  (year_month (data s) = [] ->
   forall h, seasonal_naive_forecast column h s = (with_month s, Raise IndexError)) /\
  (year_month (data s) <> [] ->
   fields (data (with_month s)) !! column = None ->
   forall h, seasonal_naive_forecast column (S h) s
             = (with_month s, Raise (KeyError column))) /\
  (year_month (data s) <> [] ->
   seasonal_naive_forecast column 0 s
   = (with_month s, Ok (mkForecastFrame [] "Seasonal Naive" {["forecast" := []]}))).
Proof.
  repeat split.
  - intros Hym h. rewrite seasonal_naive_split. unfold seasonal_naive_rest.
    run_method. by rewrite with_month_year_month, Hym.
  - intros Hym Hcol h. rewrite seasonal_naive_split.
    unfold seasonal_naive_rest.
    rewrite bind_run. unfold get at 1. cbn beta iota.
    rewrite with_month_year_month.
    destruct (iloc_last (year_month (data s))) as [last|] eqn:Hlast.
    + rewrite bind_run. unfold lift_option at 1, ret at 1. cbn beta iota.
      rewrite bind_run. unfold dates_after, date_range_ME.
      cbn [seq map for_each]. rewrite bind_run.
      unfold seasonal_naive_value at 1. run_method. by rewrite Hcol.
    + apply eq_None_not_Some in Hlast. exfalso. apply Hlast.
      unfold iloc_last. by apply last_is_Some.
  - intros Hym. rewrite seasonal_naive_split. unfold seasonal_naive_rest.
    rewrite bind_run. unfold get at 1. cbn beta iota.
    rewrite with_month_year_month.
    destruct (iloc_last (year_month (data s))) as [last|] eqn:Hlast.
    + reflexivity.
    + apply eq_None_not_Some in Hlast. exfalso. apply Hlast.
      unfold iloc_last. by apply last_is_Some.
Qed.

Lemma seasonal_naive_rest_read_only (column : string) (h : nat) :
  read_only (seasonal_naive_rest column h).
Proof. unfold seasonal_naive_rest. repeat read_only_step. Qed.

(** X7.  A second call of the seasonal-naive forecast, with the same
    arguments and on the state the first call left, changes nothing and has
    the outcome of the first call: the same frame, or the same exception. *)
Theorem seasonal_naive_second_call (s : state) (column : string) (h : nat) :
  seasonal_naive_forecast column h
    (fst (seasonal_naive_forecast column h s))
  = seasonal_naive_forecast column h s.
Proof.
  rewrite !seasonal_naive_split.
  rewrite (seasonal_naive_rest_read_only column h (with_month s)).
  by rewrite with_month_idem.
Qed.

(** ** Exponential smoothing *)

Lemma fold_min_lower_bound (l : list Z) (a : Z) :
  Forall (fun p => a <= p) l -> fold_left Z.min l a = a.
Proof.
  induction 1 as [|p l Hp _ IH]; [done|]. simpl.
  by rewrite Z.min_l.
Qed.

Lemma period_min_consecutive_months (first : Period) (n : nat) :
  period_min (consecutive_months first (S n)) = Some first.
Proof.
  unfold consecutive_months. cbn [seq map period_min].
  replace (first + Z.of_nat 0) with first by lia. f_equal.
  apply fold_min_lower_bound. rewrite Forall_fmap. apply Forall_forall.
  intros j _. simpl. lia.
Qed.

Lemma add_months_to_timestamp (p : Period) (k : Z) :
  add_months (to_timestamp p) k = to_timestamp (p + k).
Proof.
  unfold add_months, to_timestamp, period_year, period_month.
  cbn [ts_year ts_month ts_day].
  assert (Ht : (1970 + p / 12) * 12 + (p mod 12 + 1 - 1) + k = 1970 * 12 + (p + k))
    by (Z.div_mod_to_equations; lia).
  rewrite Ht.
  assert (Hy : (1970 * 12 + (p + k)) / 12 = 1970 + (p + k) / 12)
    by (Z.div_mod_to_equations; lia).
  assert (Hm : (1970 * 12 + (p + k)) mod 12 = (p + k) mod 12)
    by (Z.div_mod_to_equations; lia).
  rewrite Hy, Hm. f_equal.
  apply Z.min_l. unfold days_in_month.
  repeat match goal with |- context [if ?b then _ else _] => destruct b end; lia.
Qed.

Lemma period_min_is_Some (l : list Period) : l <> [] -> is_Some (period_min l).
Proof. destruct l; [done|]. simpl. eauto. Qed.

Section ExponentialSmoothingMore.

Variable holt_winters_fit : list num -> string + HoltWinters.

(** X8.  On a series of consecutive months on which the fit succeeds and
    the fitted model forecasts [h] steps without raising, exponential
    smoothing leaves the forecaster untouched (nothing printed, no column
    added), returns the model's predictions for steps 1 to [h], and dates
    them by the month ends of the [h] months after the last one: the dates
    of the two other variants. *)
Theorem exponential_smoothing_gap_free (s : state) (column : string)
    (h n : nat) (first : Period) (col : list num) (model : HoltWinters)
    (forecast : nat -> num) :
  year_month (data s) = consecutive_months first (S n) ->
  fields (data s) !! column = Some col ->
  length col = S n ->
  holt_winters_fit col = inr model ->
  model h = inr forecast ->
  exists df,
    exponential_smoothing_forecast holt_winters_fit column h s = (s, Ok df) /\
    date df = dates_after (first + Z.of_nat n) h /\
    iloc_last (year_month (data s)) = Some (first + Z.of_nat n) /\
    cols df !! "forecast" = Some (map forecast (seq 1 h)) /\
    method df = "Exponential Smoothing".
Proof.
  intros Hym Hcol Hlen Hfit Hforecast. eexists. split.
  - rewrite (exponential_smoothing_run _ _ _ _ first col); auto.
    + unfold fitted_forecast. by rewrite Hfit, Hforecast.
    + rewrite Hym. apply period_min_consecutive_months.
    + rewrite Hym. unfold consecutive_months.
      by rewrite length_map, length_seq.
  - cbn [date cols method]. rewrite lookup_forecast_singleton.
    split; [|split; [|done]].
    + unfold dates_after. rewrite !add_months_to_timestamp. f_equal. f_equal.
      rewrite Hym. unfold consecutive_months.
      rewrite length_map, length_seq. lia.
    + rewrite Hym. apply iloc_last_consecutive_months.
Qed.

(** X9.  What exponential smoothing does with an error depends on where
    it arises.  On a series without rows, or without the target column,
    the method raises before its [try] block is entered: nothing is
    printed, no [month] column is derived, and the seasonal-naive forecast
    is not consulted.  Inside the [try] block, a forecast that raises
    after a successful fit is handled as a fit that raises: the line with
    its message is printed and the outcome is that of the seasonal-naive
    forecast. *)
Theorem exponential_smoothing_errors (s : state) (column : string) (h : nat) :
  (year_month (data s) = [] ->
   exists e, exponential_smoothing_forecast holt_winters_fit column h s
             = (s, Raise e)) /\
  (year_month (data s) <> [] ->
   fields (data s) !! column = None ->
   exponential_smoothing_forecast holt_winters_fit column h s
   = (s, Raise (KeyError column))) /\
  (forall values model msg,
     year_month (data s) <> [] ->
     fields (data s) !! column = Some values ->
     length values = length (year_month (data s)) ->
     holt_winters_fit values = inr model ->
     model h = inl msg ->
     exponential_smoothing_forecast holt_winters_fit column h s
     = seasonal_naive_forecast column h
         (mkForecaster (data s)
            (stdout s ++ ["Exponential smoothing failed: " +:+ msg
                          +:+ ". Falling back."]))).
Proof.
  split; [|split].
  - unfold exponential_smoothing_forecast. run_method.
    intros ->. cbn. eauto.
  - unfold exponential_smoothing_forecast. run_method.
    intros Hym Hcol.
    destruct (year_month (data s)) as [|p rest]; [done|].
    cbn [period_min]. cbn beta iota. by rewrite Hcol.
  - intros values model msg Hym Hcol Hlen Hfit Hforecast.
    destruct (period_min_is_Some _ Hym) as [first Hmin].
    rewrite (exponential_smoothing_run _ _ _ _ first values) by done.
    unfold fitted_forecast. by rewrite Hfit, Hforecast.
Qed.

End ExponentialSmoothingMore.

(** ** Ensemble *)

Section EnsembleMore.

Variable holt_winters_fit : list num -> string + HoltWinters.

(** Exponential smoothing returns on every non-empty series that has the
    column, with one cell per row: by the fit, or by the fallback. *)
Lemma exponential_smoothing_returns (s : state) (column : string) (h : nat)
    (col : list num) :
  year_month (data s) <> [] ->
  fields (data s) !! column = Some col ->
  length col = length (year_month (data s)) ->
  exists s' df,
    exponential_smoothing_forecast holt_winters_fit column h s = (s', Ok df).
Proof.
  intros Hym Hcol Hlen.
  destruct (period_min_is_Some _ Hym) as [first Hmin].
  destruct (period_min_iloc_last _ _ Hmin) as [last Hlast].
  rewrite (exponential_smoothing_run _ _ _ _ first col) by done.
  destruct (fitted_forecast holt_winters_fit col h) as [msg|forecast]; [|eauto].
  destruct (with_month_has_month (logged msg s)) as [month_col Hm].
  rewrite (seasonal_naive_run column h (logged msg s) last col month_col);
    eauto using with_month_fields.
Qed.

(** X10.  On a series of one or two months the ensemble returns, and every
    one of its point forecasts is [NaN]: the moving average over three
    months is undefined, and the average of the three variants with it. *)
Theorem ensemble_short_series_is_nan (s : state) (column : string) (h : nat)
    (col : list num) :
  fields (data s) !! column = Some col ->
  length col = length (year_month (data s)) ->
  col <> [] ->
  (length col < 3)%nat ->
  exists s' df,
    ensemble_forecast holt_winters_fit column h s = (s', Ok df) /\
    length (date df) = h /\
    forall i, (i < h)%nat -> forecast_at df i = Some NaN.
Proof.
  intros Hcol Hlen Hne Hshort.
  assert (Hym : year_month (data s) <> []).
  { intros Hnil. rewrite Hnil in Hlen. by destruct col. }
  assert (Hlast : is_Some (iloc_last (year_month (data s))))
    by (unfold iloc_last; by apply last_is_Some).
  destruct Hlast as [last Hlast].
  pose proof (moving_average_run column 3 h s col NaN last Hcol
                (rolling_mean_short 3 col Hne Hshort) Hlast) as Hma.
  destruct (with_month_has_month s) as [month_col Hm].
  pose proof (seasonal_naive_run column h s last col month_col Hlast
                (with_month_fields _ _ _ Hcol) Hm) as Hsn.
  destruct (exponential_smoothing_returns s column h col Hym Hcol Hlen)
    as (s3 & es_f & Hes).
  destruct (ensemble_of_three_runs holt_winters_fit s column h _ _ _ _ _ _
              Hma Hsn Hes)
    as (fa & fb & fc & s' & Ha & Hla & Hb & Hlb & Hc & Hlc & _ & Hrun).
  cbn [cols] in Ha. rewrite lookup_forecast_singleton in Ha.
  injection Ha as <-.
  eexists _, _. split; [exact Hrun|]. cbn [date].
  split; [apply length_dates_after|].
  intros i Hi. unfold forecast_at. cbn [cols]. simplify_map_eq.
  destruct (lookup_lt_is_Some_2 fb i) as [b Hbi]; [lia|].
  destruct (lookup_lt_is_Some_2 fc i) as [c Hci]; [lia|].
  rewrite list_lookup_fmap, !lookup_zip_with, Hbi, Hci.
  by rewrite lookup_replicate_2.
Qed.

(** X11.  The ensemble raises what its first call raises, before anything
    is changed: [KeyError] for a column the series does not have (the
    [month] column is not derived on that path), [IndexError] for a column
    without rows. *)
Theorem ensemble_errors (s : state) (column : string) (h : nat) :
  (fields (data s) !! column = None ->
   ensemble_forecast holt_winters_fit column h s = (s, Raise (KeyError column))) /\
  (fields (data s) !! column = Some [] ->
   ensemble_forecast holt_winters_fit column h s = (s, Raise IndexError)).
Proof.
  unfold ensemble_forecast. rewrite bind_run.
  unfold moving_average_forecast. run_method. split.
  - by intros ->.
  - by intros ->.
Qed.

End EnsembleMore.

(** ** Confidence intervals and scenarios *)

Lemma with_bands_other (sigma : num) (f : list num) (df : ForecastFrame)
    (key : string) :
  key ∉ band_columns -> cols (with_bands sigma f df) !! key = cols df !! key.
Proof.
  intros Hkey. unfold with_bands, band_columns in *.
  rewrite !set_col_lookup_ne; [done|..]; intros <-; apply Hkey; set_solver.
Qed.

Lemma with_bands_band (sigma : num) (f : list num) (df : ForecastFrame)
    (key : string) :
  key ∈ band_columns ->
  exists v, cols (with_bands sigma f df) !! key = Some v /\ length v = length f.
Proof.
  unfold band_columns, with_bands. intros Hkey.
  repeat (apply elem_of_cons in Hkey as [->|Hkey]);
    [..|by apply elem_of_nil in Hkey];
    eexists; (split; [by rewrite ?set_col_lookup_eq,
                         ?(set_col_lookup_ne "upper_95"), ?set_col_lookup_eq,
                         ?(set_col_lookup_ne "lower_95"), ?set_col_lookup_eq,
                         ?(set_col_lookup_ne "upper_80"), ?set_col_lookup_eq
                     |by rewrite length_map]).
Qed.

Section ConfidenceIntervalsMore.

Variable sqrtQ : Q -> Q.

(** X12.  When [calculate_confidence_intervals] returns, the forecaster is
    as it was, and so are the dates, the method label and every column of
    the frame other than the four bounds, the point forecasts among them;
    each of the four bounds has one value per forecast row. *)
Theorem confidence_intervals_frame (df df' : ForecastFrame) (column : string)
    (s s' : state) :
  calculate_confidence_intervals sqrtQ df column s = (s', Ok df') ->
  s' = s /\
  date df' = date df /\
  method df' = method df /\
  (forall key, key ∉ band_columns -> cols df' !! key = cols df !! key) /\
  (exists f, cols df !! "forecast" = Some f /\
     forall key, key ∈ band_columns ->
       exists v, cols df' !! key = Some v /\ length v = length f).
Proof.
  destruct (fields (data s) !! column) as [col|] eqn:Hcol.
  - destruct (cols df !! "forecast") as [f|] eqn:Hf.
    + rewrite (confidence_intervals_run sqrtQ df column s col f) by done.
      intros [= <- <-]. split; [done|]. split; [done|]. split; [done|].
      split; [apply with_bands_other|].
      exists f. split; [done|]. apply with_bands_band.
    + by rewrite (confidence_intervals_raise_forecast sqrtQ df column s col).
  - by rewrite confidence_intervals_raise_column.
Qed.

(** X13.  [calculate_confidence_intervals] raises [KeyError] for a column
    the series does not have, and, when the series has it, [KeyError] for
    a frame without a [forecast] column; the forecaster is left as it was,
    and no bound has been assigned when the exception is raised. *)
Theorem confidence_intervals_errors (df : ForecastFrame) (column : string)
    (s : state) :
  (fields (data s) !! column = None ->
   calculate_confidence_intervals sqrtQ df column s
   = (s, Raise (KeyError column))) /\
  (is_Some (fields (data s) !! column) ->
   cols df !! "forecast" = None ->
   calculate_confidence_intervals sqrtQ df column s
   = (s, Raise (KeyError "forecast"))).
Proof.
  split.
  - apply confidence_intervals_raise_column.
  - intros [col Hcol] Hf. by apply (confidence_intervals_raise_forecast _ _ _ _ col).
Qed.

Lemma band_not_scenario (key name : string) :
  key ∈ band_columns -> key <> name +:+ "_forecast".
Proof.
  unfold band_columns. intros Hkey Heq.
  apply (f_equal String.length) in Heq. rewrite length_append in Heq.
  repeat (apply elem_of_cons in Hkey as [->|Hkey]);
    [..|by apply elem_of_nil in Hkey]; simpl in Heq; lia.
Qed.

Lemma set_col_comm (k1 k2 : string) (v1 v2 : list num) (df : ForecastFrame) :
  k1 <> k2 ->
  set_col k1 v1 (set_col k2 v2 df) = set_col k2 v2 (set_col k1 v1 df).
Proof.
  intros Hne. unfold set_col. cbn [date method cols]. f_equal.
  by apply insert_insert_ne.
Qed.

Lemma with_scenarios_set_col (f : list num) (items : Scenarios)
    (df : ForecastFrame) (key : string) (v : list num) :
  (forall name, key <> name +:+ "_forecast") ->
  with_scenarios f items (set_col key v df)
  = set_col key v (with_scenarios f items df).
Proof.
  intros Hkey. revert df.
  induction items as [|[name m] rest IH]; intros df; [done|].
  unfold with_scenarios in *. cbn [fold_left fst snd].
  rewrite set_col_comm by (intros Heq; by apply (Hkey name)).
  apply IH.
Qed.

Lemma with_scenarios_with_bands (sigma : num) (f : list num)
    (items : Scenarios) (df : ForecastFrame) :
  with_scenarios f items (with_bands sigma f df)
  = with_bands sigma f (with_scenarios f items df).
Proof.
  unfold with_bands.
  rewrite !with_scenarios_set_col; [done|..];
    intros name; apply band_not_scenario; unfold band_columns; set_solver.
Qed.

(** X14.  On a frame with point forecasts and a series with the column,
    the two post-processing steps give the same values in either order.
    Scenarios then confidence intervals, and confidence intervals then
    scenarios, both return and leave the forecaster as it was; the two
    frames have the same dates, the same method label and, under every
    column name, the same values.  The position of a column in its frame
    is not compared: a frame is modelled by its columns by name. *)
Theorem scenarios_and_intervals_commute (df : ForecastFrame) (column : string)
    (scenarios : option Scenarios) (s : state) :
  is_Some (cols df !! "forecast") ->
  is_Some (fields (data s) !! column) ->
  exists d1 d2,
    (do d <- scenario_analysis df scenarios;
     calculate_confidence_intervals sqrtQ d column) s = (s, Ok d1) /\
    (do d <- calculate_confidence_intervals sqrtQ df column;
     scenario_analysis d scenarios) s = (s, Ok d2) /\
    date d1 = date d2 /\
    method d1 = method d2 /\
    forall key, cols d1 !! key = cols d2 !! key.
Proof.
  intros [f Hf] [col Hcol]. rewrite !bind_run.
  unfold scenario_analysis.
  set (items := match scenarios with
                | Some d => d
                | None => default_scenarios
                end).
  rewrite (scenario_loop_run f items df s Hf).
  rewrite (confidence_intervals_run sqrtQ _ column s col f);
    [|done|by rewrite with_scenarios_forecast].
  rewrite (confidence_intervals_run sqrtQ df column s col f) by done.
  rewrite (scenario_loop_run f items _ s) by (by apply with_bands_forecast).
  eexists _, _. split; [reflexivity|]. split; [reflexivity|].
  by rewrite with_scenarios_with_bands.
Qed.

End ConfidenceIntervalsMore.

(** X15.  [scenario_analysis] on a frame without a [forecast] column
    raises [KeyError] when there is a scenario to apply, the three default
    ones included, and returns the frame as it is when the dictionary passed
    is empty. *)
Theorem scenario_analysis_errors (df : ForecastFrame) (s : state) :
  scenario_analysis df (Some []) s = (s, Ok df) /\
  (cols df !! "forecast" = None ->
   scenario_analysis df None s = (s, Raise (KeyError "forecast")) /\
   forall item rest,
     scenario_analysis df (Some (item :: rest)) s
     = (s, Raise (KeyError "forecast"))).
Proof.
  split; [reflexivity|]. intros Hf. split.
  - unfold scenario_analysis, default_scenarios. cbn [scenario_loop].
    rewrite bind_run. unfold scenario_step. run_method. by rewrite Hf.
  - intros [name m] rest. unfold scenario_analysis. cbn [scenario_loop].
    rewrite bind_run. unfold scenario_step. run_method. by rewrite Hf.
Qed.

Lemma frame_ext (a b : ForecastFrame) :
  date a = date b -> method a = method b -> cols a = cols b -> a = b.
Proof. destruct a, b. cbn. by intros -> -> ->. Qed.

Lemma with_scenarios_date_method (f : list num) (items : Scenarios)
    (df : ForecastFrame) :
  date (with_scenarios f items df) = date df /\
  method (with_scenarios f items df) = method df.
Proof.
  revert df. induction items as [|[name m] rest IH]; intros df; [done|].
  unfold with_scenarios in *. cbn [fold_left fst snd].
  destruct (IH (set_col (name +:+ "_forecast")
                        (map (fun x => (x * m)%num) f) df)) as [-> ->].
  done.
Qed.

Lemma with_scenarios_idem (f : list num) (items : Scenarios)
    (df : ForecastFrame) :
  NoDup (map fst items) ->
  with_scenarios f items (with_scenarios f items df)
  = with_scenarios f items df.
Proof.
  intros Hnd. apply frame_ext.
  - apply with_scenarios_date_method.
  - apply with_scenarios_date_method.
  - apply map_eq. intros key.
    destruct (decide (key ∈ map (fun n => n +:+ "_forecast") (map fst items)))
      as [Hin|Hout].
    + apply list_elem_of_fmap in Hin as (name & -> & Hname).
      apply list_elem_of_fmap in Hname as ([name' m] & -> & Hitem).
      cbn [fst].
      by rewrite !(with_scenarios_lookup f items _ name' m).
    + rewrite with_scenarios_other; [done|].
      intros name Hname ->. apply Hout.
      apply list_elem_of_fmap. eauto.
Qed.

(** X16.  Applying [scenario_analysis] a second time, with the same
    scenarios and to the frame the first application returned, gives the
    frame of the first application: the scenario columns are computed from
    the point forecasts, which no scenario overwrites. *)
Theorem scenario_analysis_idempotent (df : ForecastFrame)
    (scenarios : option Scenarios) (s : state) :
  NoDup (map fst (match scenarios with
                  | Some d => d
                  | None => default_scenarios
                  end)) ->
  (do d <- scenario_analysis df scenarios; scenario_analysis d scenarios) s
  = scenario_analysis df scenarios s.
Proof.
  intros Hnd. rewrite bind_run. unfold scenario_analysis.
  set (items := match scenarios with
                | Some d => d
                | None => default_scenarios
                end).
  assert (Hitems : NoDup (map fst items)) by done.
  destruct (cols df !! "forecast") as [f|] eqn:Hf.
  - rewrite (scenario_loop_run f items df s Hf).
    rewrite (scenario_loop_run f items _ s)
      by (by rewrite with_scenarios_forecast).
    by rewrite with_scenarios_idem.
  - destruct items as [|[name m] rest]; [reflexivity|].
    cbn [scenario_loop]. rewrite bind_run. unfold scenario_step. run_method.
    by rewrite Hf.
Qed.

(** * Properties of the analyzer *)

(** ** Decomposition *)

Section AnalyzerMore.

Variable seasonal_decompose
  : list num -> Z -> string + SeasonalAnalyzer.Decomposition.

(** X17.  On a non-empty series with the target column,
    [decompose_time_series] calls the library on the values of the column
    with the period asked for when the series has at least two periods of
    rows, and otherwise with half the number of rows, rounded down, and at
    least one.  What the library returns is returned and kept in
    [self.decomposition]; when it raises, the analyzer is left as it was.
    A period of zero or less is passed on as it is. *)
Theorem decompose_time_series_period (a : SeasonalAnalyzer.state)
    (column : string) (period : Z) (values : list num) :
  year_month (SeasonalAnalyzer.data a) <> [] ->
  fields (SeasonalAnalyzer.data a) !! column = Some values ->
  length values = length (year_month (SeasonalAnalyzer.data a)) ->
  let len := Z.of_nat (length (year_month (SeasonalAnalyzer.data a))) in
  let p := effective_period len period in
  SeasonalAnalyzer.decompose_time_series seasonal_decompose column period a
  = match seasonal_decompose values p with
    | inr r =>
        (SeasonalAnalyzer.mkAnalyzer (SeasonalAnalyzer.data a) (Some r)
           (SeasonalAnalyzer.seasonal_stats a), Ok r)
    | inl msg => (a, Raise (LibraryError msg))
    end /\
  (2 * period <= len -> p = period) /\
  (len < 2 * period -> 1 <= p /\ (2 <= len -> 2 * p <= len)) /\
  (period <= 0 -> p = period).
Proof.
  intros Hym Hcol Hlen len p. split; [|split; [|split]].
  - unfold SeasonalAnalyzer.decompose_time_series.
    rewrite bind_run. unfold get at 1. cbn beta iota zeta.
    destruct (period_min_is_Some _ Hym) as [first Hmin].
    rewrite bind_run, Hmin. unfold lift_option at 1, ret at 1. cbn beta iota.
    rewrite bind_run. unfold SeasonalAnalyzer.data_getitem at 1.
    rewrite bind_run. unfold get at 1. cbn beta iota. rewrite Hcol.
    unfold lift_option at 1, ret at 1. cbn beta iota.
    rewrite bind_run, length_date_range_ME, Hlen, Nat.eqb_refl.
    unfold ret at 1. cbn beta iota. rewrite bind_run.
    fold len. fold (effective_period len period). fold p.
    destruct (seasonal_decompose values p) as [msg|r]; reflexivity.
  - intros H. subst p. unfold effective_period.
    destruct (Z.ltb_spec len (2 * period)); [lia|done].
  - intros H. subst p. unfold effective_period.
    destruct (Z.ltb_spec len (2 * period)); [|lia].
    split; [lia|]. intros H2. Z.div_mod_to_equations. lia.
  - intros H. subst p. unfold effective_period.
    destruct (Z.ltb_spec len (2 * period)); [lia|done].
Qed.

End AnalyzerMore.

(** ** Seasonality *)

Lemma derive_month_has_month (d : MonthlyData) :
  is_Some (fields (derive_month d) !! "month").
Proof.
  unfold derive_month. destruct (fields d !! "month") eqn:E.
  - rewrite E. eauto.
  - cbn [fields]. rewrite lookup_insert_eq. eauto.
Qed.

Lemma lift_option_run {S A : Type} (e : exn) (o : option A) (s : S) :
  lift_option e o s
  = (s, match o with Some a => Ok a | None => Raise e end).
Proof. by destruct o. Qed.

Lemma analyzer_getitem_run (column : string) (a : SeasonalAnalyzer.state) :
  SeasonalAnalyzer.data_getitem column a
  = (a, match fields (SeasonalAnalyzer.data a) !! column with
        | Some v => Ok v
        | None => Raise (KeyError column)
        end).
Proof.
  unfold SeasonalAnalyzer.data_getitem. rewrite bind_run.
  unfold get at 1. cbn beta iota. apply lift_option_run.
Qed.

Section Seasonality.

Variable sqrtQ : Q -> Q.

(** The method, in terms of the statistics of the two columns. *)
Lemma analyze_seasonality_run (column : string) (a : SeasonalAnalyzer.state)
    (month_col : list num) :
  fields (derive_month (SeasonalAnalyzer.data a)) !! "month" = Some month_col ->
  SeasonalAnalyzer.analyze_seasonality sqrtQ column a
  = match fields (derive_month (SeasonalAnalyzer.data a)) !! column with
    | None => (analyzer_with_month a, Raise (KeyError column))
    | Some col =>
        match seasonal_stats_of sqrtQ month_col col with
        | Ok stats =>
            (SeasonalAnalyzer.mkAnalyzer
               (derive_month (SeasonalAnalyzer.data a))
               (SeasonalAnalyzer.decomposition a) (Some stats), Ok stats)
        | Raise e => (analyzer_with_month a, Raise e)
        end
    end.
Proof.
  intros Hm. unfold SeasonalAnalyzer.analyze_seasonality.
  rewrite bind_run. unfold get at 1. cbn beta iota.
  assert (Hfirst : forall k : unit -> M SeasonalAnalyzer.state
                                        SeasonalAnalyzer.SeasonalStats,
            bind (match fields (SeasonalAnalyzer.data a) !! "month" with
                  | Some _ => ret tt
                  | None =>
                      modify (SeasonalAnalyzer.assign_month
                                (dt_month (year_month (SeasonalAnalyzer.data a))))
                  end) k a = k tt (analyzer_with_month a)).
  { intros k. unfold analyzer_with_month, derive_month.
    destruct (fields (SeasonalAnalyzer.data a) !! "month");
      [by destruct a|reflexivity]. }
  rewrite Hfirst. clear Hfirst.
  assert (Hdata : SeasonalAnalyzer.data (analyzer_with_month a)
                  = derive_month (SeasonalAnalyzer.data a)) by reflexivity.
  rewrite bind_run, analyzer_getitem_run, Hdata, Hm.
  rewrite bind_run, analyzer_getitem_run, Hdata.
  destruct (fields (derive_month (SeasonalAnalyzer.data a)) !! column)
    as [col|] eqn:Hcol; [|reflexivity].
  cbn zeta. rewrite bind_run, analyzer_getitem_run, Hdata, Hcol.
  unfold seasonal_stats_of.
  rewrite bind_run, lift_option_run.
  destruct (SeasonalAnalyzer.idxmax _) as [imax|]; [|reflexivity].
  rewrite bind_run, lift_option_run.
  destruct (SeasonalAnalyzer.group_keys month_col !! imax) as [peak|];
    [|reflexivity].
  rewrite bind_run, lift_option_run.
  destruct (SeasonalAnalyzer.idxmin _) as [imin|]; [|reflexivity].
  rewrite bind_run, lift_option_run.
  destruct (SeasonalAnalyzer.group_keys month_col !! imin) as [trough|];
    reflexivity.
Qed.

End Seasonality.

(** ** The order on numbers *)

Lemma leb_Fin (x y : Q) : Num.leb (Fin x) (Fin y) = true <-> (x <= y)%Q.
Proof. apply Qle_bool_iff. Qed.

Lemma eqb_Fin (x y : Q) : Num.eqb (Fin x) (Fin y) = true <-> (x == y)%Q.
Proof. apply Qeq_bool_iff. Qed.

Lemma ltb_Fin (x y : Q) : Num.ltb (Fin x) (Fin y) = true <-> (x < y)%Q.
Proof.
  unfold Num.ltb. rewrite andb_true_iff, negb_true_iff, leb_Fin.
  rewrite <- not_true_iff_false, eqb_Fin. split.
  - intros [Hle Hne]. apply Qle_lteq in Hle as [Hlt|Heq]; [done|].
    by destruct Hne.
  - intros Hlt. split; [by apply Qlt_le_weak|]. intros Heq. lra.
Qed.

Ltac num_order :=
  repeat match goal with
         | a : num |- _ => destruct a
         end;
  unfold num_lt in *;
  repeat match goal with
         | H : Num.ltb (Fin _) (Fin _) = true |- _ => apply ltb_Fin in H
         | H : Num.leb (Fin _) (Fin _) = true |- _ => apply leb_Fin in H
         | H : Num.eqb (Fin _) (Fin _) = true |- _ => apply eqb_Fin in H
         | H : Num.ltb (Fin _) (Fin _) = false |- _ =>
             apply not_true_iff_false in H; rewrite ltb_Fin in H
         | H : Num.leb (Fin _) (Fin _) = false |- _ =>
             apply not_true_iff_false in H; rewrite leb_Fin in H
         | H : Num.eqb (Fin _) (Fin _) = false |- _ =>
             apply not_true_iff_false in H; rewrite eqb_Fin in H
         | |- Num.ltb (Fin _) (Fin _) = true => apply ltb_Fin
         | |- Num.leb (Fin _) (Fin _) = true => apply leb_Fin
         | |- Num.eqb (Fin _) (Fin _) = true => apply eqb_Fin
         | |- Num.ltb (Fin _) (Fin _) = false =>
             apply not_true_iff_false; rewrite ltb_Fin
         | |- Num.leb (Fin _) (Fin _) = false =>
             apply not_true_iff_false; rewrite leb_Fin
         | |- Num.eqb (Fin _) (Fin _) = false =>
             apply not_true_iff_false; rewrite eqb_Fin
         end;
  try done; try lra.

Lemma num_lt_trans (a b c : num) : num_lt a b -> num_lt b c -> num_lt a c.
Proof. intros H1 H2. num_order. Qed.

Lemma num_lt_of_not_leb (a b : num) :
  Num.notna a = true -> Num.notna b = true ->
  Num.leb a b = false -> num_lt b a.
Proof. intros Ha Hb H. num_order. Qed.

Lemma num_lt_of_leb_ne (a b : num) :
  Num.leb a b = true -> Num.eqb a b = false -> num_lt a b.
Proof. intros H1 H2. unfold num_lt, Num.ltb. by rewrite H1, H2. Qed.

Lemma eqb_refl_notna (a : num) : Num.notna a = true -> Num.eqb a a = true.
Proof. intros Ha. num_order. Qed.

Lemma leb_trans (a b c : num) :
  Num.leb a b = true -> Num.leb b c = true -> Num.leb a c = true.
Proof. intros H1 H2. num_order. Qed.

Lemma leb_total (a b : num) :
  Num.notna a = true -> Num.notna b = true ->
  Num.leb a b = true \/ Num.leb b a = true.
Proof.
  intros Ha Hb. destruct a as [x| | |], b as [y| | |]; try done; auto.
  destruct (Qlt_le_dec x y).
  - left. apply leb_Fin. lra.
  - right. by apply leb_Fin.
Qed.

Lemma leb_eqb_r (a b c : num) :
  Num.leb a b = true -> Num.eqb c b = true -> Num.leb a c = true.
Proof. intros H1 H2. num_order. Qed.

Lemma leb_refl_notna (a : num) : Num.notna a = true -> Num.leb a a = true.
Proof. intros Ha. num_order. Qed.

(** ** The keys of a grouping *)

Lemma insert_key_elem (k m : num) (keys : list num) :
  m ∈ SeasonalAnalyzer.insert_key k keys -> m = k \/ m ∈ keys.
Proof.
  induction keys as [|x rest IH]; simpl.
  - intros H. apply list_elem_of_singleton in H. by left.
  - destruct (Num.eqb k x); [by right|].
    destruct (Num.leb k x).
    + intros H. apply elem_of_cons in H as [->|H]; [by left|by right].
    + intros H. apply elem_of_cons in H as [->|H].
      * right. apply list_elem_of_here.
      * destruct (IH H) as [->|H']; [by left|].
        right. by apply list_elem_of_further.
Qed.

Lemma insert_key_keeps (k m : num) (keys : list num) :
  m ∈ keys -> m ∈ SeasonalAnalyzer.insert_key k keys.
Proof.
  induction keys as [|x rest IH]; simpl;
    [intros H; by apply elem_of_nil in H|].
  destruct (Num.eqb k x); [done|].
  destruct (Num.leb k x).
  - intros H. by apply list_elem_of_further.
  - intros H. apply elem_of_cons in H as [->|H].
    + apply list_elem_of_here.
    + apply list_elem_of_further. by apply IH.
Qed.

Lemma insert_key_present (k : num) (keys : list num) :
  Num.notna k = true ->
  exists m, m ∈ SeasonalAnalyzer.insert_key k keys /\ Num.eqb k m = true.
Proof.
  intros Hk. induction keys as [|x rest IH]; simpl.
  - exists k. split; [apply list_elem_of_here|by apply eqb_refl_notna].
  - destruct (Num.eqb k x) eqn:E.
    + exists x. split; [apply list_elem_of_here|done].
    + destruct (Num.leb k x).
      * exists k. split; [apply list_elem_of_here|by apply eqb_refl_notna].
      * destruct IH as (m & Hm & He). exists m.
        split; [by apply list_elem_of_further|done].
Qed.

Lemma insert_key_sorted (k : num) (keys : list num) :
  Num.notna k = true ->
  Forall (fun x => Num.notna x = true) keys ->
  StronglySorted num_lt keys ->
  StronglySorted num_lt (SeasonalAnalyzer.insert_key k keys).
Proof.
  intros Hk Hna Hs. induction Hs as [|x rest Hs IH Hx]; simpl.
  - repeat constructor.
  - apply Forall_cons in Hna as [Hxna Hna].
    destruct (Num.eqb k x) eqn:E; [by constructor|].
    destruct (Num.leb k x) eqn:L.
    + assert (Hkx : num_lt k x) by (by apply num_lt_of_leb_ne).
      constructor; [by constructor|].
      constructor; [done|].
      eapply Forall_impl; [exact Hx|]. intros y Hy.
      by apply (num_lt_trans k x y).
    + constructor; [by apply IH|].
      apply Forall_forall. intros m Hm.
      apply insert_key_elem in Hm as [->|Hm].
      * by apply num_lt_of_not_leb.
      * rewrite Forall_forall in Hx. by apply Hx.
Qed.

Lemma insert_key_notna (k : num) (keys : list num) :
  Num.notna k = true ->
  Forall (fun x => Num.notna x = true) keys ->
  Forall (fun x => Num.notna x = true) (SeasonalAnalyzer.insert_key k keys).
Proof.
  intros Hk Hna. apply Forall_forall. intros m Hm.
  apply insert_key_elem in Hm as [->|Hm]; [done|].
  rewrite Forall_forall in Hna. by apply Hna.
Qed.

Lemma fold_insert_key_spec (l keys : list num) :
  Forall (fun x => Num.notna x = true) l ->
  Forall (fun x => Num.notna x = true) keys ->
  StronglySorted num_lt keys ->
  let out := fold_left (fun ks k => SeasonalAnalyzer.insert_key k ks) l keys in
  StronglySorted num_lt out /\
  Forall (fun x => Num.notna x = true) out /\
  (forall m, m ∈ out -> m ∈ keys \/ m ∈ l) /\
  (forall m, m ∈ keys -> m ∈ out) /\
  (forall x, x ∈ l -> exists m, m ∈ out /\ Num.eqb x m = true).
Proof.
  intros Hl. revert keys.
  induction Hl as [|k l Hk Hl IH]; intros keys Hna Hs; cbn zeta; simpl.
  - repeat split; auto. intros x Hx. by apply elem_of_nil in Hx.
  - destruct (IH (SeasonalAnalyzer.insert_key k keys))
      as (H1 & H2 & H3 & H4 & H5);
      [by apply insert_key_notna|by apply insert_key_sorted|].
    repeat split; auto.
    + intros m Hm. destruct (H3 m Hm) as [Hin|Hin].
      * apply insert_key_elem in Hin as [->|Hin]; [right|by left].
        apply list_elem_of_here.
      * right. by apply list_elem_of_further.
    + intros m Hm. apply H4. by apply insert_key_keeps.
    + intros x Hx. apply elem_of_cons in Hx as [->|Hx]; [|by apply H5].
      destruct (insert_key_present k keys Hk) as (m & Hm & He).
      exists m. split; [by apply H4|done].
Qed.

Lemma dropna_spec (l : list num) (x : num) :
  x ∈ Num.dropna l <-> x ∈ l /\ Num.notna x = true.
Proof.
  unfold Num.dropna. rewrite !list_elem_of_In. apply filter_In.
Qed.

Lemma group_keys_spec (l : list num) :
  StronglySorted num_lt (SeasonalAnalyzer.group_keys l) /\
  (forall m, m ∈ SeasonalAnalyzer.group_keys l -> m ∈ l /\ Num.notna m = true) /\
  (forall x, x ∈ l -> Num.notna x = true ->
             exists m, m ∈ SeasonalAnalyzer.group_keys l /\ Num.eqb x m = true).
Proof.
  unfold SeasonalAnalyzer.group_keys.
  assert (Hna : Forall (fun x => Num.notna x = true) (Num.dropna l)).
  { apply Forall_forall. intros x Hx. by apply dropna_spec in Hx as [_ ?]. }
  destruct (fold_insert_key_spec (Num.dropna l) [] Hna)
    as (H1 & H2 & H3 & _ & H5); [constructor|constructor|].
  cbn zeta in *. split; [done|]. split.
  - intros m Hm. destruct (H3 m Hm) as [Hin|Hin]; [by apply elem_of_nil in Hin|].
    by apply dropna_spec.
  - intros x Hx Hxna. apply H5. by apply dropna_spec.
Qed.

(** ** Extremes *)

Lemma leb_of_not_ltb (a b : num) :
  Num.notna a = true -> Num.notna b = true ->
  Num.ltb a b = false -> Num.leb b a = true.
Proof.
  intros Ha Hb H. unfold Num.ltb in H.
  apply andb_false_iff in H as [H|H].
  - destruct (leb_total a b Ha Hb) as [H'|H']; [congruence|done].
  - apply negb_false_iff in H. num_order.
Qed.

Lemma leb_of_ltb (a b : num) : Num.ltb a b = true -> Num.leb a b = true.
Proof. unfold Num.ltb. by intros [H _]%andb_true_iff. Qed.

Lemma fold_max_spec (rest : list num) (x : num) :
  Forall (fun y => Num.notna y = true) (x :: rest) ->
  let m := fold_left (fun a b => if Num.ltb a b then b else a) rest x in
  m ∈ x :: rest /\ forall y, y ∈ x :: rest -> Num.leb y m = true.
Proof.
  revert x. induction rest as [|b rest IH]; intros x Hna; cbn zeta; simpl.
  - apply Forall_cons in Hna as [Hx _]. split; [apply list_elem_of_here|].
    intros y Hy. apply list_elem_of_singleton in Hy as ->.
    by apply leb_refl_notna.
  - apply Forall_cons in Hna as [Hx Hna].
    pose proof Hna as Hna'. apply Forall_cons in Hna' as [Hb Hrest].
    set (acc := if Num.ltb x b then b else x).
    assert (Hacc : Num.notna acc = true /\ Num.leb x acc = true /\
                   Num.leb b acc = true /\ (acc = x \/ acc = b)).
    { subst acc. destruct (Num.ltb x b) eqn:E.
      - repeat split; auto using leb_of_ltb, leb_refl_notna.
      - repeat split; auto using leb_of_not_ltb, leb_refl_notna. }
    destruct Hacc as (Hacc & Hxa & Hba & Hor).
    destruct (IH acc) as [Hin Hle]; [by constructor|]. cbn zeta in *.
    split.
    + apply elem_of_cons in Hin as [Heq|Hin].
      * rewrite Heq. destruct Hor as [->| ->];
          [apply list_elem_of_here|].
        apply list_elem_of_further, list_elem_of_here.
      * by do 2 apply list_elem_of_further.
    + intros y Hy.
      assert (Hacc_le := Hle acc (list_elem_of_here _ _)).
      apply elem_of_cons in Hy as [->|Hy]; [by eapply leb_trans|].
      apply elem_of_cons in Hy as [->|Hy]; [by eapply leb_trans|].
      apply Hle. by apply list_elem_of_further.
Qed.

Lemma fold_min_spec (rest : list num) (x : num) :
  Forall (fun y => Num.notna y = true) (x :: rest) ->
  let m := fold_left (fun a b => if Num.ltb b a then b else a) rest x in
  m ∈ x :: rest /\ forall y, y ∈ x :: rest -> Num.leb m y = true.
Proof.
  revert x. induction rest as [|b rest IH]; intros x Hna; cbn zeta; simpl.
  - apply Forall_cons in Hna as [Hx _]. split; [apply list_elem_of_here|].
    intros y Hy. apply list_elem_of_singleton in Hy as ->.
    by apply leb_refl_notna.
  - apply Forall_cons in Hna as [Hx Hna].
    pose proof Hna as Hna'. apply Forall_cons in Hna' as [Hb Hrest].
    set (acc := if Num.ltb b x then b else x).
    assert (Hacc : Num.notna acc = true /\ Num.leb acc x = true /\
                   Num.leb acc b = true /\ (acc = x \/ acc = b)).
    { subst acc. destruct (Num.ltb b x) eqn:E.
      - repeat split; auto using leb_of_ltb, leb_refl_notna.
      - repeat split; auto using leb_of_not_ltb, leb_refl_notna. }
    destruct Hacc as (Hacc & Hxa & Hba & Hor).
    destruct (IH acc) as [Hin Hle]; [by constructor|]. cbn zeta in *.
    split.
    + apply elem_of_cons in Hin as [Heq|Hin].
      * rewrite Heq. destruct Hor as [->| ->];
          [apply list_elem_of_here|].
        apply list_elem_of_further, list_elem_of_here.
      * by do 2 apply list_elem_of_further.
    + intros y Hy.
      assert (Hacc_le := Hle acc (list_elem_of_here _ _)).
      apply elem_of_cons in Hy as [->|Hy]; [by eapply leb_trans|].
      apply elem_of_cons in Hy as [->|Hy]; [by eapply leb_trans|].
      apply Hle. by apply list_elem_of_further.
Qed.

Lemma dropna_notna (l : list num) :
  Forall (fun y => Num.notna y = true) (Num.dropna l).
Proof. apply Forall_forall. intros x Hx. by apply dropna_spec in Hx as [_ ?]. Qed.

(** The maximum is at least every value that is not missing, the minimum
    at most. *)
Lemma max_upper_bound (l : list num) (y : num) :
  y ∈ l -> Num.notna y = true -> Num.leb y (Num.max l) = true.
Proof.
  intros Hy Hna. unfold Num.max.
  assert (Hin : y ∈ Num.dropna l) by (by apply dropna_spec).
  pose proof (dropna_notna l) as Hall.
  destruct (Num.dropna l) as [|x rest]; [by apply elem_of_nil in Hin|].
  by apply (fold_max_spec rest x Hall).
Qed.

Lemma min_lower_bound (l : list num) (y : num) :
  y ∈ l -> Num.notna y = true -> Num.leb (Num.min l) y = true.
Proof.
  intros Hy Hna. unfold Num.min.
  assert (Hin : y ∈ Num.dropna l) by (by apply dropna_spec).
  pose proof (dropna_notna l) as Hall.
  destruct (Num.dropna l) as [|x rest]; [by apply elem_of_nil in Hin|].
  by apply (fold_min_spec rest x Hall).
Qed.

Lemma idx_first_spec (target : num) (l : list num) (i : nat) :
  SeasonalAnalyzer.idx_first target l = Some i ->
  exists v, l !! i = Some v /\ Num.eqb v target = true /\
            forall j w, (j < i)%nat -> l !! j = Some w ->
                        Num.eqb w target = false.
Proof.
  unfold SeasonalAnalyzer.idx_first. intros H.
  apply fmap_Some in H as ([i' v] & Hfind & ->). cbn [fst].
  apply list_find_Some in Hfind as (Hv & He & Hbefore).
  exists v. split; [done|]. split; [done|].
  intros j w Hj Hw. apply not_true_iff_false. by apply (Hbefore j w).
Qed.

Lemma ltb_of_leb_eqb (w v m : num) :
  Num.leb w m = true -> Num.eqb w m = false -> Num.eqb v m = true ->
  num_lt w v.
Proof. intros H1 H2 H3. num_order. Qed.

Lemma ltb_of_leb_eqb_min (w v m : num) :
  Num.leb m w = true -> Num.eqb w m = false -> Num.eqb v m = true ->
  num_lt v w.
Proof. intros H1 H2 H3. num_order. Qed.

Lemma leb_eqb_l (a b c : num) :
  Num.leb b a = true -> Num.eqb c b = true -> Num.leb c a = true.
Proof. intros H1 H2. num_order. Qed.

(** The first position of the maximum: nothing exceeds its value, and
    every value before it is smaller or missing.  Likewise the minimum. *)
Lemma idxmax_spec (l : list num) (i : nat) :
  SeasonalAnalyzer.idxmax l = Some i ->
  exists v, l !! i = Some v /\
    (forall w, w ∈ l -> Num.notna w = true -> Num.leb w v = true) /\
    (forall j w, (j < i)%nat -> l !! j = Some w -> Num.notna w = true ->
                 num_lt w v).
Proof.
  intros H. apply idx_first_spec in H as (v & Hv & He & Hbefore).
  exists v. split; [done|]. split.
  - intros w Hw Hna. eapply leb_eqb_r; [by apply max_upper_bound|done].
  - intros j w Hj Hw Hna. eapply ltb_of_leb_eqb; eauto.
    apply max_upper_bound; [|done]. by eapply list_elem_of_lookup_2.
Qed.

Lemma idxmin_spec (l : list num) (i : nat) :
  SeasonalAnalyzer.idxmin l = Some i ->
  exists v, l !! i = Some v /\
    (forall w, w ∈ l -> Num.notna w = true -> Num.leb v w = true) /\
    (forall j w, (j < i)%nat -> l !! j = Some w -> Num.notna w = true ->
                 num_lt v w).
Proof.
  intros H. apply idx_first_spec in H as (v & Hv & He & Hbefore).
  exists v. split; [done|]. split.
  - intros w Hw Hna. eapply leb_eqb_l; [by apply min_lower_bound|done].
  - intros j w Hj Hw Hna. eapply ltb_of_leb_eqb_min; eauto.
    apply min_lower_bound; [|done]. by eapply list_elem_of_lookup_2.
Qed.

(** ** What [analyze_seasonality] reports *)

Lemma map_zip_with {A B C D : Type} (g : C -> D) (f : A -> B -> C)
    (l : list A) (k : list B) :
  map g (zip_with f l k) = zip_with (fun a b => g (f a b)) l k.
Proof.
  revert k. induction l as [|a l IH]; intros [|b k]; simpl; try done.
  by rewrite IH.
Qed.

Lemma zip_with_left {A B : Type} (l : list A) (k : list B) :
  length k = length l -> zip_with (fun a _ => a) l k = l.
Proof.
  revert k. induction l as [|a l IH]; intros [|b k] H; simpl in *; try done.
  f_equal. apply IH. lia.
Qed.

Lemma zip_with_right {A B C : Type} (h : B -> C) (l : list A) (k : list B) :
  length k = length l -> zip_with (fun _ b => h b) l k = map h k.
Proof.
  revert k. induction l as [|a l IH]; intros [|b k] H; simpl in *; try done.
  f_equal. apply IH. lia.
Qed.

Section SeasonalityReport.

Variable sqrtQ : Q -> Q.

Lemma analyze_seasonality_inv (column : string) (a a' : SeasonalAnalyzer.state)
    (stats : SeasonalAnalyzer.SeasonalStats) :
  SeasonalAnalyzer.analyze_seasonality sqrtQ column a = (a', Ok stats) ->
  exists month_col col,
    fields (derive_month (SeasonalAnalyzer.data a)) !! "month" = Some month_col /\
    fields (derive_month (SeasonalAnalyzer.data a)) !! column = Some col /\
    seasonal_stats_of sqrtQ month_col col = Ok stats /\
    a' = SeasonalAnalyzer.mkAnalyzer (derive_month (SeasonalAnalyzer.data a))
           (SeasonalAnalyzer.decomposition a) (Some stats).
Proof.
  destruct (derive_month_has_month (SeasonalAnalyzer.data a)) as [mc Hm].
  rewrite (analyze_seasonality_run sqrtQ column a mc Hm).
  destruct (fields (derive_month (SeasonalAnalyzer.data a)) !! column)
    as [col|]; [|done].
  destruct (seasonal_stats_of sqrtQ mc col) as [st|e] eqn:E; [|done].
  intros [= <- <-]. by exists mc, col.
Qed.

Lemma seasonal_stats_of_inv (month_col col : list num)
    (stats : SeasonalAnalyzer.SeasonalStats) :
  seasonal_stats_of sqrtQ month_col col = Ok stats ->
  let keys := SeasonalAnalyzer.group_keys month_col in
  let groups := map (SeasonalAnalyzer.month_group month_col col) keys in
  let means := map Num.mean groups in
  exists imax imin,
    SeasonalAnalyzer.idxmax means = Some imax /\
    keys !! imax = Some (SeasonalAnalyzer.peak_month stats) /\
    SeasonalAnalyzer.idxmin means = Some imin /\
    keys !! imin = Some (SeasonalAnalyzer.trough_month stats) /\
    map SeasonalAnalyzer.month (SeasonalAnalyzer.monthly_stats stats) = keys /\
    map SeasonalAnalyzer.mean (SeasonalAnalyzer.monthly_stats stats) = means /\
    map SeasonalAnalyzer.count (SeasonalAnalyzer.monthly_stats stats)
    = map Num.count groups /\
    map SeasonalAnalyzer.seasonal_index (SeasonalAnalyzer.monthly_stats stats)
    = map (fun g => (Num.mean g / Num.mean col)%num) groups.
Proof.
  unfold seasonal_stats_of. cbn zeta.
  set (keys := SeasonalAnalyzer.group_keys month_col).
  set (groups := map (SeasonalAnalyzer.month_group month_col col) keys).
  destruct (SeasonalAnalyzer.idxmax _) as [imax|] eqn:E1; [|done].
  destruct (keys !! imax) as [peak|] eqn:E2; [|done].
  destruct (SeasonalAnalyzer.idxmin _) as [imin|] eqn:E3; [|done].
  destruct (keys !! imin) as [trough|] eqn:E4; [|done].
  intros [= <-]. exists imax, imin. cbn.
  assert (Hlen : length groups = length keys)
    by (subst groups; by rewrite length_map).
  rewrite !map_zip_with. cbn.
  repeat split; try done.
  - by apply zip_with_left.
  - by apply zip_with_right.
  - by apply (zip_with_right Num.count).
  - by apply (zip_with_right (fun x => (Num.mean x / Num.mean col)%num)).
Qed.

(** X18.  The rows of [monthly_stats] come in strictly increasing order of
    month, one row per month: every month reported is a value of the
    [month] column of the series, and every value of that column that is not
    missing is reported. *)
Theorem analyze_seasonality_months (column : string)
    (a a' : SeasonalAnalyzer.state) (stats : SeasonalAnalyzer.SeasonalStats)
    (month_col : list num) :
  fields (derive_month (SeasonalAnalyzer.data a)) !! "month" = Some month_col ->
  SeasonalAnalyzer.analyze_seasonality sqrtQ column a = (a', Ok stats) ->
  let months :=
    map SeasonalAnalyzer.month (SeasonalAnalyzer.monthly_stats stats) in
  StronglySorted num_lt months /\
  (forall m, m ∈ months -> m ∈ month_col /\ Num.notna m = true) /\
  (forall x, x ∈ month_col -> Num.notna x = true ->
             exists m, m ∈ months /\ Num.eqb x m = true).
Proof.
  intros Hm Hrun.
  destruct (analyze_seasonality_inv _ _ _ _ Hrun)
    as (mc & col & Hm' & Hcol & Hstats & _).
  rewrite Hm in Hm'. injection Hm' as <-.
  destruct (seasonal_stats_of_inv _ _ _ Hstats)
    as (imax & imin & _ & _ & _ & _ & Hmonths & _).
  cbn zeta. rewrite Hmonths. apply group_keys_spec.
Qed.

(** X19.  The peak month is the month of a row whose mean no other row's
    mean exceeds, and the first such row: every row before it has a
    smaller mean, or a missing one.  The trough month likewise, with the
    smallest mean. *)
Theorem analyze_seasonality_peak_trough (column : string)
    (a a' : SeasonalAnalyzer.state) (stats : SeasonalAnalyzer.SeasonalStats) :
  SeasonalAnalyzer.analyze_seasonality sqrtQ column a = (a', Ok stats) ->
  let rows := SeasonalAnalyzer.monthly_stats stats in
  (exists i r,
     rows !! i = Some r /\
     SeasonalAnalyzer.month r = SeasonalAnalyzer.peak_month stats /\
     (forall r', r' ∈ rows -> Num.notna (SeasonalAnalyzer.mean r') = true ->
                 Num.leb (SeasonalAnalyzer.mean r') (SeasonalAnalyzer.mean r) = true) /\
     (forall j r', (j < i)%nat -> rows !! j = Some r' ->
                   Num.notna (SeasonalAnalyzer.mean r') = true ->
                   num_lt (SeasonalAnalyzer.mean r') (SeasonalAnalyzer.mean r))) /\
  (exists i r,
     rows !! i = Some r /\
     SeasonalAnalyzer.month r = SeasonalAnalyzer.trough_month stats /\
     (forall r', r' ∈ rows -> Num.notna (SeasonalAnalyzer.mean r') = true ->
                 Num.leb (SeasonalAnalyzer.mean r) (SeasonalAnalyzer.mean r') = true) /\
     (forall j r', (j < i)%nat -> rows !! j = Some r' ->
                   Num.notna (SeasonalAnalyzer.mean r') = true ->
                   num_lt (SeasonalAnalyzer.mean r) (SeasonalAnalyzer.mean r'))).
Proof.
  intros Hrun.
  destruct (analyze_seasonality_inv _ _ _ _ Hrun)
    as (mc & col & Hm & Hcol & Hstats & _).
  destruct (seasonal_stats_of_inv _ _ _ Hstats)
    as (imax & imin & Himax & Hpeak & Himin & Htrough & Hmonths & Hmeans & _).
  cbn zeta in *.
  set (rows := SeasonalAnalyzer.monthly_stats stats) in *.
  assert (Hrow : forall i k, SeasonalAnalyzer.group_keys mc !! i = Some k ->
            exists r, rows !! i = Some r /\ SeasonalAnalyzer.month r = k).
  { intros i k Hk. rewrite <- Hmonths in Hk.
    apply list_lookup_fmap_Some in Hk as (r & -> & Hr). eauto. }
  assert (Hmean : forall i r, rows !! i = Some r ->
            map Num.mean
                (map (SeasonalAnalyzer.month_group mc col)
                     (SeasonalAnalyzer.group_keys mc)) !! i
            = Some (SeasonalAnalyzer.mean r)).
  { intros i r Hr. rewrite <- Hmeans. by rewrite list_lookup_fmap, Hr. }
  assert (Hmem : forall r, r ∈ rows ->
            SeasonalAnalyzer.mean r
            ∈ map Num.mean
                (map (SeasonalAnalyzer.month_group mc col)
                     (SeasonalAnalyzer.group_keys mc))).
  { intros r Hr. rewrite <- Hmeans. apply list_elem_of_fmap. eauto. }
  split.
  - destruct (idxmax_spec _ _ Himax) as (v & Hv & Hub & Hfirst).
    destruct (Hrow imax _ Hpeak) as (r & Hr & Hmonth).
    rewrite (Hmean _ _ Hr) in Hv. injection Hv as <-.
    exists imax, r. repeat split; auto.
    intros j r' Hj Hr' Hna. eapply Hfirst; eauto.
  - destruct (idxmin_spec _ _ Himin) as (v & Hv & Hlb & Hfirst).
    destruct (Hrow imin _ Htrough) as (r & Hr & Hmonth).
    rewrite (Hmean _ _ Hr) in Hv. injection Hv as <-.
    exists imin, r. repeat split; auto.
    intros j r' Hj Hr' Hna. eapply Hfirst; eauto.
Qed.

(** X20.  A second call of [analyze_seasonality], with the same column and
    on the analyzer the first call left, has the outcome of the first call
    and leaves the analyzer as it found it. *)
Theorem analyze_seasonality_second_call (column : string)
    (a : SeasonalAnalyzer.state) :
  SeasonalAnalyzer.analyze_seasonality sqrtQ column
    (fst (SeasonalAnalyzer.analyze_seasonality sqrtQ column a))
  = SeasonalAnalyzer.analyze_seasonality sqrtQ column a.
Proof.
  destruct (derive_month_has_month (SeasonalAnalyzer.data a)) as [mc Hm].
  rewrite (analyze_seasonality_run sqrtQ column a mc Hm).
  assert (Hagain : forall st,
            SeasonalAnalyzer.analyze_seasonality sqrtQ column
              (SeasonalAnalyzer.mkAnalyzer
                 (derive_month (SeasonalAnalyzer.data a))
                 (SeasonalAnalyzer.decomposition a) st)
            = match fields (derive_month (SeasonalAnalyzer.data a)) !! column with
              | None =>
                  (SeasonalAnalyzer.mkAnalyzer
                     (derive_month (SeasonalAnalyzer.data a))
                     (SeasonalAnalyzer.decomposition a) st,
                   Raise (KeyError column))
              | Some col =>
                  match seasonal_stats_of sqrtQ mc col with
                  | Ok stats =>
                      (SeasonalAnalyzer.mkAnalyzer
                         (derive_month (SeasonalAnalyzer.data a))
                         (SeasonalAnalyzer.decomposition a) (Some stats),
                       Ok stats)
                  | Raise e =>
                      (SeasonalAnalyzer.mkAnalyzer
                         (derive_month (SeasonalAnalyzer.data a))
                         (SeasonalAnalyzer.decomposition a) st, Raise e)
                  end
              end).
  { intros st.
    assert (Hd : derive_month
                   (SeasonalAnalyzer.data
                      (SeasonalAnalyzer.mkAnalyzer
                         (derive_month (SeasonalAnalyzer.data a))
                         (SeasonalAnalyzer.decomposition a) st))
                 = derive_month (SeasonalAnalyzer.data a))
      by (cbn [SeasonalAnalyzer.data]; apply derive_month_idem).
    rewrite (analyze_seasonality_run sqrtQ column _ mc) by (by rewrite Hd).
    rewrite Hd. unfold analyzer_with_month. rewrite Hd. reflexivity. }
  destruct (fields (derive_month (SeasonalAnalyzer.data a)) !! column)
    as [col|] eqn:Hcol.
  - destruct (seasonal_stats_of sqrtQ mc col) as [st|e] eqn:E; cbn [fst].
    + rewrite Hagain, ?Hcol, ?E. reflexivity.
    + unfold analyzer_with_month. rewrite Hagain, ?Hcol, ?E. reflexivity.
  - cbn [fst]. unfold analyzer_with_month. rewrite Hagain, ?Hcol. reflexivity.
Qed.

(** X21.  [analyze_seasonality] on a series without rows raises
    [ValueError], and on a series without the target column [KeyError]; in
    both cases the [month] column has been derived by then, if it was
    missing, and [self.seasonal_stats] is not assigned. *)
Theorem analyze_seasonality_errors (column : string)
    (a : SeasonalAnalyzer.state) :
  (fields (derive_month (SeasonalAnalyzer.data a)) !! column = None ->
   SeasonalAnalyzer.analyze_seasonality sqrtQ column a
   = (analyzer_with_month a, Raise (KeyError column))) /\
  (fields (derive_month (SeasonalAnalyzer.data a)) !! "month" = Some [] ->
   is_Some (fields (derive_month (SeasonalAnalyzer.data a)) !! column) ->
   SeasonalAnalyzer.analyze_seasonality sqrtQ column a
   = (analyzer_with_month a, Raise (ValueError "argmax of an empty sequence"))).
Proof.
  split.
  - intros Hcol.
    destruct (derive_month_has_month (SeasonalAnalyzer.data a)) as [mc Hm].
    by rewrite (analyze_seasonality_run sqrtQ column a mc Hm), Hcol.
  - intros Hm [col Hcol].
    by rewrite (analyze_seasonality_run sqrtQ column a [] Hm), Hcol.
Qed.

End SeasonalityReport.

(** ** Sums over the groups of a grouping *)

Lemma fold_left_Qplus (l : list Q) (acc : Q) :
  (fold_left Qplus l acc == acc + qsum l)%Q.
Proof.
  revert acc. induction l as [|q l IH]; intros acc; simpl.
  - ring.
  - rewrite IH. ring.
Qed.

Lemma fold_left_add_Fin (l : list Q) (acc : Q) :
  fold_left Num.add (map Fin l) (Fin acc) = Fin (fold_left Qplus l acc).
Proof. revert acc. induction l as [|q l IH]; intros acc; simpl; [done|apply IH]. Qed.

Lemma sum_map_Fin (l : list Q) : Num.sum (map Fin l) = Fin (fold_left Qplus l 0%Q).
Proof. apply fold_left_add_Fin. Qed.

Lemma finite_as_map (l : list num) :
  Forall is_finite l -> l = map Fin (map to_Q l).
Proof.
  induction 1 as [|a l Ha _ IH]; [done|]. simpl. rewrite <- IH.
  by destruct a.
Qed.

Lemma select_map {A B : Type} (f : A -> B) (mask : list bool) (values : list A) :
  select mask (map f values) = map f (select mask values).
Proof.
  unfold select. revert values.
  induction mask as [|b mask IH]; intros [|v values]; simpl; try done.
  destruct b; simpl; by rewrite IH.
Qed.

Lemma select_cons {A : Type} (b : bool) (mask : list bool) (v : A)
    (values : list A) :
  select (b :: mask) (v :: values)
  = if b then v :: select mask values else select mask values.
Proof. unfold select. simpl. by destruct b. Qed.

Lemma qsum_ext {A : Type} (f g : A -> Q) (l : list A) :
  (forall k, k ∈ l -> (f k == g k)%Q) ->
  (qsum (map f l) == qsum (map g l))%Q.
Proof.
  induction l as [|k l IH]; intros H; simpl; [reflexivity|].
  rewrite (H k) by apply list_elem_of_here.
  rewrite IH; [reflexivity|]. intros k' Hk'. apply H.
  by apply list_elem_of_further.
Qed.

Lemma qsum_plus {A : Type} (f g : A -> Q) (l : list A) :
  (qsum (map (fun k => f k + g k) l) == qsum (map f l) + qsum (map g l))%Q.
Proof. induction l as [|k l IH]; simpl; [ring|]. rewrite IH. ring. Qed.

Lemma qsum_scale {A : Type} (f : A -> Q) (c : Q) (l : list A) :
  (qsum (map (fun k => f k * c) l) == qsum (map f l) * c)%Q.
Proof. induction l as [|k l IH]; simpl; [ring|]. rewrite IH. ring. Qed.

Lemma eqb_trans_lt (m k k' : num) :
  Num.eqb m k = true -> num_lt k k' -> Num.eqb m k' = false.
Proof. intros H1 H2. num_order. Qed.

(** A value that matches one of strictly increasing keys matches exactly
    one of them. *)
Lemma one_key_matches (keys : list num) (m : num) (q : Q) :
  StronglySorted num_lt keys ->
  (exists k, k ∈ keys /\ Num.eqb m k = true) ->
  (qsum (map (fun k => if Num.eqb m k then q else 0) keys) == q)%Q.
Proof.
  intros Hs. induction Hs as [|k keys Hs IH Hk]; intros (k0 & Hin & He).
  - by apply elem_of_nil in Hin.
  - simpl. destruct (Num.eqb m k) eqn:E.
    + assert (Hrest : (qsum (map (fun k => if Num.eqb m k then q else 0) keys)
                       == qsum (map (fun _ => 0) keys))%Q).
      { apply qsum_ext. intros k' Hk'. rewrite Forall_forall in Hk.
        by rewrite (eqb_trans_lt m k k' E (Hk k' Hk')). }
      rewrite Hrest.
      assert (Hzero : (qsum (map (fun _ : num => 0) keys) == 0)%Q).
      { clear. induction keys; simpl; [reflexivity|]. rewrite IHkeys. ring. }
      rewrite Hzero. ring.
    + apply elem_of_cons in Hin as [->|Hin]; [congruence|].
      rewrite IH by eauto. ring.
Qed.

Lemma one_key_matches_nat (keys : list num) (m : num) :
  StronglySorted num_lt keys ->
  (exists k, k ∈ keys /\ Num.eqb m k = true) ->
  list_sum (map (fun k => if Num.eqb m k then 1%nat else 0%nat) keys) = 1%nat.
Proof.
  intros Hs. induction Hs as [|k keys Hs IH Hk]; intros (k0 & Hin & He).
  - by apply elem_of_nil in Hin.
  - simpl. destruct (Num.eqb m k) eqn:E.
    + f_equal. rewrite Forall_forall in Hk.
      clear IH Hin. induction keys as [|k' keys IHk]; [done|]. simpl.
      rewrite (eqb_trans_lt m k k' E) by (apply Hk, list_elem_of_here).
      apply IHk.
      * by inversion Hs.
      * intros x Hx. apply Hk. by apply list_elem_of_further.
    + apply elem_of_cons in Hin as [->|Hin]; [congruence|].
      rewrite IH by eauto. done.
Qed.

(** The groups of a grouping split the rows: their sums add up to the sum
    of the column, their sizes to the number of rows. *)
Lemma groups_partition_sum (keys month_col : list num) (qs : list Q) :
  StronglySorted num_lt keys ->
  Forall (fun m => exists k, k ∈ keys /\ Num.eqb m k = true) month_col ->
  length month_col = length qs ->
  (qsum (map (fun k => qsum (select (map (fun m => Num.eqb m k) month_col) qs))
             keys)
   == qsum qs)%Q.
Proof.
  intros Hs Hall. revert qs.
  induction Hall as [|m mc Hm Hall IH]; intros [|q qs] Hlen; simpl in Hlen;
    try done.
  - simpl. clear. induction keys; simpl; [reflexivity|].
    rewrite IHkeys. unfold select. simpl. ring.
  - cbn [map].
    assert (Hstep : (qsum (map (fun k =>
                        qsum (select (Num.eqb m k :: map (fun m0 => Num.eqb m0 k) mc)
                                     (q :: qs))) keys)
                     == qsum (map (fun k =>
                          (if Num.eqb m k then q else 0)
                          + qsum (select (map (fun m0 => Num.eqb m0 k) mc) qs))
                          keys))%Q).
    { apply qsum_ext. intros k _. rewrite select_cons.
      destruct (Num.eqb m k); simpl; ring. }
    rewrite Hstep, qsum_plus, one_key_matches by done.
    rewrite IH by lia. simpl. reflexivity.
Qed.

Lemma groups_partition_count (keys month_col : list num) (qs : list Q) :
  StronglySorted num_lt keys ->
  Forall (fun m => exists k, k ∈ keys /\ Num.eqb m k = true) month_col ->
  length month_col = length qs ->
  list_sum (map (fun k => length (select (map (fun m => Num.eqb m k) month_col) qs))
                keys)
  = length qs.
Proof.
  intros Hs Hall. revert qs.
  induction Hall as [|m mc Hm Hall IH]; intros [|q qs] Hlen; simpl in Hlen;
    try done.
  - simpl. clear. induction keys; simpl; [done|]. by rewrite IHkeys.
  - cbn [map].
    assert (Hstep : map (fun k =>
                      length (select (Num.eqb m k :: map (fun m0 => Num.eqb m0 k) mc)
                                     (q :: qs))) keys
                    = map (fun k =>
                        ((if Num.eqb m k then 1 else 0)
                         + length (select (map (fun m0 => Num.eqb m0 k) mc) qs))%nat)
                        keys).
    { apply map_ext. intros k. rewrite select_cons.
      by destruct (Num.eqb m k). }
    rewrite Hstep.
    assert (Hsplit : forall (f g : num -> nat) l,
              list_sum (map (fun k => (f k + g k)%nat) l)
              = (list_sum (map f l) + list_sum (map g l))%nat).
    { clear. intros f g l. induction l; simpl; [done|]. rewrite IHl. lia. }
    rewrite Hsplit, one_key_matches_nat by done.
    rewrite IH by lia. simpl. lia.
Qed.

Lemma select_length_pos {A : Type} (mask : list bool) (values : list A) (j : nat) :
  mask !! j = Some true -> (j < length values)%nat ->
  (0 < length (select mask values))%nat.
Proof.
  revert values j. induction mask as [|b mask IH]; intros [|v values] j Hm Hj;
    simpl in *; try done; try lia.
  rewrite select_cons. destruct j as [|j]; simpl in Hm.
  - injection Hm as ->. simpl. lia.
  - destruct b; simpl; [lia|]. apply (IH values j); [done|lia].
Qed.

Lemma qsum_inject_nat {A : Type} (c : A -> nat) (l : list A) :
  (qsum (map (fun k => inject_Z (Z.of_nat (c k))) l)
   == inject_Z (Z.of_nat (list_sum (map c l))))%Q.
Proof.
  induction l as [|k l IH]; simpl; [reflexivity|].
  rewrite IH, Nat2Z.inj_add, inject_Z_plus. reflexivity.
Qed.

Lemma map_pair_zip {A B C D : Type} (F : B -> C -> D) (f : A -> B) (g : A -> C)
    (l : list A) :
  map (fun r => F (f r) (g r)) l = zip_with F (map f l) (map g l).
Proof. induction l as [|r l IH]; simpl; [done|]. by rewrite IH. Qed.

Lemma mean_map_Fin (l : list Q) :
  (0 < length l)%nat ->
  Num.mean (map Fin l)
  = Fin (fold_left Qplus l 0%Q / inject_Z (Z.of_nat (length l))).
Proof.
  intros Hl. unfold Num.mean.
  rewrite dropna_finite by (apply Forall_fmap, Forall_forall; by intros).
  rewrite sum_map_Fin, length_map. unfold Num.div, of_nat, of_Z.
  by rewrite inject_nat_nonzero.
Qed.

Lemma count_map_Fin (l : list Q) :
  Num.count (map Fin l) = of_nat (length l).
Proof.
  unfold Num.count.
  rewrite dropna_finite by (apply Forall_fmap, Forall_forall; by intros).
  by rewrite length_map.
Qed.

Section SeasonalIndex.

Variable sqrtQ : Q -> Q.

(** X22.  When the [month] column has no missing value, the target column
    holds finite numbers (one per row) and its overall mean is not zero:
    the counts of the rows of [monthly_stats] add up to the number of
    observations, and so do the seasonal indices weighted by their counts.
    The count-weighted average of the seasonal indices is one. *)
Theorem seasonal_index_weighted_mean (column : string)
    (a a' : SeasonalAnalyzer.state) (stats : SeasonalAnalyzer.SeasonalStats)
    (month_col col : list num) :
  fields (derive_month (SeasonalAnalyzer.data a)) !! "month" = Some month_col ->
  fields (derive_month (SeasonalAnalyzer.data a)) !! column = Some col ->
  SeasonalAnalyzer.analyze_seasonality sqrtQ column a = (a', Ok stats) ->
  Forall (fun m => Num.notna m = true) month_col ->
  Forall is_finite col ->
  length month_col = length col ->
  Num.eqb (Num.mean col) (of_Z 0) = false ->
  let rows := SeasonalAnalyzer.monthly_stats stats in
  Num.same
    (Num.sum (map (fun r => (SeasonalAnalyzer.count r
                             * SeasonalAnalyzer.seasonal_index r)%num) rows))
    (of_nat (length col)) /\
  Num.same (Num.sum (map SeasonalAnalyzer.count rows)) (of_nat (length col)).
Proof.
  intros Hm Hcol Hrun Hna Hfin Hlen Hmean rows.
  destruct (analyze_seasonality_inv _ _ _ _ _ Hrun)
    as (mc & col' & Hm' & Hcol' & Hstats & _).
  rewrite Hm in Hm'. injection Hm' as <-.
  rewrite Hcol in Hcol'. injection Hcol' as <-.
  destruct (seasonal_stats_of_inv _ _ _ _ Hstats)
    as (imax & imin & Himax & Hpeak & _ & _ & _ & _ & Hcounts & Hindex).
  cbn zeta in *. fold rows in Hcounts, Hindex.
  set (keys := SeasonalAnalyzer.group_keys month_col) in *.
  destruct (group_keys_spec month_col) as (Hsorted & Hkeys_in & Hkeys_all).
  fold keys in Hsorted, Hkeys_in, Hkeys_all.
  (* the column as rationals *)
  rewrite (finite_as_map col Hfin) in *.
  set (qs := map to_Q col) in *.
  assert (Hlenq : length month_col = length qs)
    by (rewrite Hlen; by rewrite length_map).
  clear Hlen. rewrite length_map.
  set (gq := fun k => select (map (fun m => Num.eqb m k) month_col) qs).
  assert (Hgroup : forall k,
            SeasonalAnalyzer.month_group month_col (map Fin qs) k
            = map Fin (gq k)).
  { intros k. unfold SeasonalAnalyzer.month_group. apply select_map. }
  assert (Hpos : forall k, k ∈ keys -> (0 < length (gq k))%nat).
  { intros k Hk. destruct (Hkeys_in k Hk) as [Hin Hkna].
    apply list_elem_of_lookup in Hin as [j Hj].
    apply (select_length_pos _ _ j).
    - rewrite list_lookup_fmap, Hj. simpl. by rewrite eqb_refl_notna.
    - rewrite <- Hlenq. by eapply lookup_lt_Some. }
  assert (Hcover : Forall (fun m => exists k, k ∈ keys /\ Num.eqb m k = true)
                          month_col).
  { apply Forall_forall. intros m Hin. apply Hkeys_all; [done|].
    rewrite Forall_forall in Hna. by apply Hna. }
  (* the series is not empty, and its mean is a finite number, not zero *)
  assert (Hn : (0 < length qs)%nat).
  { apply lookup_lt_Some in Hpeak. rewrite <- Hlenq.
    destruct keys as [|k0 ks] eqn:Ek; [simpl in Hpeak; lia|].
    destruct (Hkeys_in k0 (list_elem_of_here _ _)) as [Hin _].
    destruct month_col; [by apply elem_of_nil in Hin|simpl; lia]. }
  rewrite (mean_map_Fin qs Hn) in Hmean, Hindex.
  set (mu := (fold_left Qplus qs 0 / inject_Z (Z.of_nat (length qs)))%Q) in *.
  assert (Hmu : ~ (mu == 0)%Q).
  { intros H. apply not_true_iff_false in Hmean. apply Hmean.
    unfold of_Z. apply eqb_Fin. exact H. }
  assert (Hmu_b : Qeq_bool mu 0 = false).
  { apply not_true_iff_false. by rewrite Qeq_bool_iff. }
  assert (Hqs : (qsum qs == mu * inject_Z (Z.of_nat (length qs)))%Q).
  { subst mu. rewrite fold_left_Qplus. field.
    intros H. unfold Qeq in H. simpl in H. lia. }
  assert (Hnq : ~ (inject_Z (Z.of_nat (length qs)) == 0)%Q).
  { intros H. unfold Qeq in H. simpl in H. lia. }
  assert (Hpart_sum : (qsum (map (fun k => qsum (gq k)) keys) == qsum qs)%Q)
    by (by apply groups_partition_sum).
  assert (Hpart_count : list_sum (map (fun k => length (gq k)) keys) = length qs)
    by (by apply groups_partition_count).
  split.
  - rewrite (map_pair_zip Num.mul), Hcounts, Hindex.
    rewrite <- (map_pair_zip Num.mul), map_map.
    set (t := fun k =>
                (inject_Z (Z.of_nat (length (gq k)))
                 * ((fold_left Qplus (gq k) 0
                     / inject_Z (Z.of_nat (length (gq k)))) / mu))%Q).
    rewrite (map_ext_in _ (fun k => Fin (t k))).
    + rewrite <- (map_map t Fin), sum_map_Fin. cbn [Num.same of_nat of_Z].
      rewrite fold_left_Qplus.
      rewrite (qsum_ext t (fun k => qsum (gq k) * / mu)%Q).
      * rewrite qsum_scale, Hpart_sum, Hqs. field. done.
      * intros k Hk. subst t. cbn beta. rewrite fold_left_Qplus.
        assert (Hc : ~ (inject_Z (Z.of_nat (length (gq k))) == 0)%Q).
        { specialize (Hpos k Hk). intros H. unfold Qeq in H. simpl in H. lia. }
        field. done.
    + intros k Hk%list_elem_of_In. rewrite Hgroup, count_map_Fin.
      rewrite mean_map_Fin by by apply Hpos.
      subst t. cbn beta. unfold Num.div, Num.mul, of_nat, of_Z.
      by rewrite Hmu_b.
  - rewrite Hcounts, map_map.
    rewrite (map_ext _ (fun k => Fin (inject_Z (Z.of_nat (length (gq k)))))).
    + rewrite <- (map_map (fun k => inject_Z (Z.of_nat (length (gq k)))) Fin).
      rewrite sum_map_Fin. cbn [Num.same of_nat of_Z].
      rewrite fold_left_Qplus, qsum_inject_nat, Hpart_count. ring.
    + intros k. by rewrite Hgroup, count_map_Fin.
Qed.

End SeasonalIndex.

(** ** Trend *)

Section Trend.

Variable linregress : list num -> list num -> string + (num * num * num * num * num).
Variable adfuller : list num -> string + num.

(** X23.  When the regression and the unit-root test return,
    [trend_analysis] returns and leaves the analyzer as it was.  With a
    first observation equal to zero both percentages are reported as plus
    infinity, whatever the last observation and the slope are; otherwise
    they are the change from first to last, and the slope, over the
    absolute value of the first observation, times 100.  The series is
    reported stationary exactly when the p-value of the test compares below
    0.05, so never on a missing p-value. *)
Theorem trend_analysis_report (a : SeasonalAnalyzer.state) (column : string)
    (col : list num) (start_val end_val : num)
    (slope intercept r_value p_value std_err adf_p : num) :
  fields (SeasonalAnalyzer.data a) !! column = Some col ->
  head col = Some start_val ->
  iloc_last col = Some end_val ->
  linregress (map of_nat (seq 0 (length (year_month (SeasonalAnalyzer.data a)))))
    col = inr (slope, intercept, r_value, p_value, std_err) ->
  adfuller (Num.dropna col) = inr adf_p ->
  exists t,
    SeasonalAnalyzer.trend_analysis linregress adfuller column a = (a, Ok t) /\
    SeasonalAnalyzer.slope t = slope /\
    SeasonalAnalyzer.r_squared t = (r_value * r_value)%num /\
    SeasonalAnalyzer.adf_p_value t = adf_p /\
    SeasonalAnalyzer.is_stationary t = Num.ltb adf_p (Fin (5 # 100)) /\
    (adf_p = NaN -> SeasonalAnalyzer.is_stationary t = false) /\
    (Num.eqb start_val (of_Z 0) = true ->
     SeasonalAnalyzer.total_change_percent t = PosInf /\
     SeasonalAnalyzer.monthly_growth_rate_percent t = PosInf) /\
    (Num.eqb start_val (of_Z 0) = false ->
     SeasonalAnalyzer.total_change_percent t
     = ((end_val - start_val) / Num.abs start_val * of_Z 100)%num /\
     SeasonalAnalyzer.monthly_growth_rate_percent t
     = (slope / Num.abs start_val * of_Z 100)%num).
Proof.
  intros Hcol Hstart Hend Hfit Hadf. eexists. split.
  - unfold SeasonalAnalyzer.trend_analysis.
    rewrite bind_run. unfold get at 1. cbn beta iota zeta.
    rewrite bind_run, analyzer_getitem_run, Hcol.
    rewrite bind_run, Hfit. unfold SeasonalAnalyzer.call_library at 1, ret at 1.
    cbn beta iota.
    rewrite bind_run, analyzer_getitem_run, Hcol.
    rewrite bind_run, lift_option_run, Hstart.
    rewrite bind_run, lift_option_run, Hend.
    rewrite bind_run, analyzer_getitem_run, Hcol.
    rewrite bind_run, Hadf. unfold SeasonalAnalyzer.call_library at 1, ret at 1.
    cbn beta iota. reflexivity.
  - cbn [SeasonalAnalyzer.slope SeasonalAnalyzer.r_squared
         SeasonalAnalyzer.adf_p_value SeasonalAnalyzer.is_stationary
         SeasonalAnalyzer.total_change_percent
         SeasonalAnalyzer.monthly_growth_rate_percent].
    split; [done|]. split; [done|]. split; [done|]. split; [done|].
    split; [by intros ->|]. split; intros ->; done.
Qed.

End Trend.

(** ** Correlations *)

Section CorrelationReport.

Variable pearson : list num -> list num -> num.

Lemma iloc2_corr (labels : list string) (value : string -> list num)
    (i j : nat) (v1 v2 : string) :
  labels !! i = Some v1 -> labels !! j = Some v2 ->
  iloc2 (corr pearson labels (map value labels)) i j
  = Some (pearson (value v1) (value v2)).
Proof.
  intros H1 H2. unfold iloc2, corr. cbn [corr_values].
  rewrite list_lookup_fmap, list_lookup_fmap, H1. simpl.
  by rewrite list_lookup_fmap, list_lookup_fmap, H2.
Qed.

Lemma strong_pair_run (labels : list string) (value : string -> list num)
    (i j : nat) (a : SeasonalAnalyzer.state) :
  (i < length labels)%nat -> (j < length labels)%nat ->
  strong_pair (corr pearson labels (map value labels)) i j a
  = (a, Ok (strong_pairs pearson labels value i j)).
Proof.
  intros Hi Hj.
  destruct (lookup_lt_is_Some_2 labels i Hi) as [v1 H1].
  destruct (lookup_lt_is_Some_2 labels j Hj) as [v2 H2].
  unfold strong_pair, strong_pairs.
  rewrite bind_run, lift_option_run, (iloc2_corr _ _ _ _ v1 v2 H1 H2).
  rewrite H1, H2. cbn zeta. cbn [corr corr_columns].
  destruct (Num.ltb _ _); [|reflexivity].
  rewrite bind_run, lift_option_run, H1.
  rewrite bind_run, lift_option_run, H2. reflexivity.
Qed.

(** X24.  [correlation_analysis] always returns, and leaves the analyzer as
    it was.  Its matrix is labelled by those of the eight metric columns
    that the series has, in their fixed order.  An entry is reported for
    columns [var1], [var2] with correlation [c] exactly when [var1] comes
    before [var2] among those labels, [c] is the correlation of the two
    columns, and the absolute value of [c] compares above 0.7: so no column
    is paired with itself, no pair is reported in both orders, and a
    missing correlation is never reported. *)
Theorem correlation_analysis_report (a : SeasonalAnalyzer.state) :
  let labels :=
    List.filter
      (fun col => bool_decide (is_Some (fields (SeasonalAnalyzer.data a) !! col)))
      numeric_cols in
  exists m strong,
    correlation_analysis pearson a = (a, Ok (m, strong)) /\
    corr_columns m = labels /\
    forall v1 v2 c,
      mkCorrelation v1 v2 c ∈ strong <->
      exists i j x y,
        (i < j)%nat /\ labels !! i = Some v1 /\ labels !! j = Some v2 /\
        fields (SeasonalAnalyzer.data a) !! v1 = Some x /\
        fields (SeasonalAnalyzer.data a) !! v2 = Some y /\
        c = pearson x y /\
        Num.ltb (Fin (7 # 10)) (Num.abs c) = true.
Proof.
  intros labels.
  set (value := fun col => default [] (fields (SeasonalAnalyzer.data a) !! col)).
  assert (Hpresent : forall v, v ∈ labels ->
            fields (SeasonalAnalyzer.data a) !! v = Some (value v)).
  { intros v Hv. subst labels. apply list_elem_of_In, filter_In in Hv as [_ Hv].
    apply bool_decide_eq_true in Hv as [x Hx]. subst value. cbn beta.
    by rewrite Hx. }
  set (n := length labels).
  set (found := map (fun i => concat (map (strong_pairs pearson labels value i)
                                          (seq (i + 1) (n - (i + 1)))))
                    (seq 0 n)).
  exists (corr pearson labels (map value labels)), (concat found).
  split; [|split; [reflexivity|]].
  - unfold correlation_analysis.
    rewrite bind_run. unfold get at 1. cbn beta iota zeta. fold labels.
    rewrite bind_run.
    rewrite (for_each_read_only _ value).
    + cbn [corr corr_columns]. fold n. rewrite bind_run.
      rewrite (for_each_read_only _
                 (fun i => concat (map (strong_pairs pearson labels value i)
                                       (seq (i + 1) (n - (i + 1)))))).
      * reflexivity.
      * intros i Hi. apply list_elem_of_In, in_seq in Hi.
        rewrite bind_run.
        rewrite (for_each_read_only _ (strong_pairs pearson labels value i));
          [reflexivity|].
        intros j Hj. apply list_elem_of_In, in_seq in Hj.
        apply strong_pair_run; subst n; lia.
    + intros v Hv. rewrite analyzer_getitem_run. by rewrite (Hpresent v Hv).
  - intros v1 v2 c. rewrite list_elem_of_In, in_concat. split.
    + intros (l & Hl & Hc). subst found.
      apply in_map_iff in Hl as (i & <- & Hi). apply in_seq in Hi.
      apply in_concat in Hc as (l' & Hl' & Hc).
      apply in_map_iff in Hl' as (j & <- & Hj). apply in_seq in Hj.
      unfold strong_pairs in Hc.
      destruct (labels !! i) as [w1|] eqn:H1; [|done].
      destruct (labels !! j) as [w2|] eqn:H2; [|done].
      cbn zeta in Hc.
      destruct (Num.ltb _ _) eqn:Hs; [|done].
      destruct Hc as [[= <- <- <-]|[]].
      exists i, j, (value w1), (value w2).
      repeat split; auto; try lia.
      * apply Hpresent. by eapply list_elem_of_lookup_2.
      * apply Hpresent. by eapply list_elem_of_lookup_2.
    + intros (i & j & x & y & Hij & H1 & H2 & Hx & Hy & -> & Hs).
      assert (Hj : (j < n)%nat) by (subst n; by eapply lookup_lt_Some).
      exists (concat (map (strong_pairs pearson labels value i)
                          (seq (i + 1) (n - (i + 1))))).
      split.
      * subst found. apply in_map_iff. exists i. split; [done|].
        apply in_seq. lia.
      * apply in_concat. exists (strong_pairs pearson labels value i j).
        split; [apply in_map, in_seq; lia|].
        unfold strong_pairs. rewrite H1, H2. cbn zeta.
        assert (Hv1 : value v1 = x).
        { subst value. cbn beta. by rewrite Hx. }
        assert (Hv2 : value v2 = y).
        { subst value. cbn beta. by rewrite Hy. }
        rewrite Hv1, Hv2, Hs. by left.
Qed.

End CorrelationReport.

(** * Properties of the processor *)

(** ** Monthly aggregation *)

Lemma insert_period_elem (k m : Period) (keys : list Period) :
  m ∈ DataProcessor.insert_period k keys -> m = k \/ m ∈ keys.
Proof.
  induction keys as [|x rest IH]; simpl.
  - intros H. apply list_elem_of_singleton in H. by left.
  - destruct (k =? x); [by right|].
    destruct (k <? x).
    + intros H. apply elem_of_cons in H as [->|H]; [by left|by right].
    + intros H. apply elem_of_cons in H as [->|H].
      * right. apply list_elem_of_here.
      * destruct (IH H) as [->|H']; [by left|].
        right. by apply list_elem_of_further.
Qed.

Lemma insert_period_sorted (k : Period) (keys : list Period) :
  StronglySorted Z.lt keys ->
  StronglySorted Z.lt (DataProcessor.insert_period k keys).
Proof.
  intros Hs. induction Hs as [|x rest Hs IH Hx]; simpl.
  - repeat constructor.
  - destruct (Z.eqb_spec k x) as [->|Hne]; [by constructor|].
    destruct (Z.ltb_spec k x) as [Hlt|Hge].
    + constructor; [by constructor|].
      constructor; [done|].
      eapply Forall_impl; [exact Hx|]. intros y Hy. simpl in Hy. lia.
    + constructor; [done|].
      apply Forall_forall. intros m Hm.
      apply insert_period_elem in Hm as [->|Hm]; [lia|].
      rewrite Forall_forall in Hx. by apply Hx.
Qed.

Lemma insert_period_keeps (k m : Period) (keys : list Period) :
  m ∈ keys \/ m = k -> m ∈ DataProcessor.insert_period k keys.
Proof.
  induction keys as [|x rest IH]; simpl.
  - intros [H| ->]; [by apply elem_of_nil in H|apply list_elem_of_here].
  - destruct (Z.eqb_spec k x) as [->|Hne].
    + intros [H| ->]; [done|apply list_elem_of_here].
    + destruct (k <? x).
      * intros [H| ->]; [by apply list_elem_of_further|apply list_elem_of_here].
      * intros [H| ->].
        -- apply elem_of_cons in H as [->|H]; [apply list_elem_of_here|].
           apply list_elem_of_further. apply IH. by left.
        -- apply list_elem_of_further. apply IH. by right.
Qed.

Lemma fold_insert_period_spec (l keys : list Period) :
  StronglySorted Z.lt keys ->
  let out := fold_left (fun ks k => DataProcessor.insert_period k ks) l keys in
  StronglySorted Z.lt out /\
  (forall m, m ∈ out <-> m ∈ keys \/ m ∈ l).
Proof.
  revert keys. induction l as [|k l IH]; intros keys Hs; cbn zeta; simpl.
  - split; [done|]. intros m. split; [by left|].
    intros [H|H]; [done|by apply elem_of_nil in H].
  - destruct (IH (DataProcessor.insert_period k keys))
      as [H1 H2]; [by apply insert_period_sorted|].
    split; [done|]. intros m. cbn zeta in H2. rewrite H2. split.
    + intros [H|H].
      * apply insert_period_elem in H as [->|H]; [right|by left].
        apply list_elem_of_here.
      * right. by apply list_elem_of_further.
    + intros [H|H].
      * left. apply insert_period_keeps. by left.
      * apply elem_of_cons in H as [->|H]; [|by right].
        left. apply insert_period_keeps. by right.
Qed.

Lemma period_keys_spec (l : list Period) :
  StronglySorted Z.lt (DataProcessor.period_keys l) /\
  (forall m, m ∈ DataProcessor.period_keys l <-> m ∈ l).
Proof.
  unfold DataProcessor.period_keys.
  destruct (fold_insert_period_spec l []) as [H1 H2]; [constructor|].
  split; [done|]. intros m. cbn zeta in H2. rewrite H2. split.
  - intros [H|H]; [by apply elem_of_nil in H|done].
  - by right.
Qed.

Lemma aggregate_monthly_run (p : DataProcessor.state)
    (daily : DataProcessor.DailyData) :
  DataProcessor.data p = Some daily ->
  (forall name, name ∈ map fst DataProcessor.monthly_agg ->
                is_Some (DataProcessor.daily_fields daily !! name)) ->
  let periods := map to_period (DataProcessor.daily_date daily) in
  let keys := DataProcessor.period_keys periods in
  let value := fun name =>
                 default [] (DataProcessor.daily_fields daily !! name) in
  let md :=
    mkMonthlyData keys
      (<["year" := map (fun k => of_Z (period_year k)) keys]>
         (<["month" := dt_month keys]>
            (list_to_map (aggregated_columns periods value)))) in
  DataProcessor.aggregate_monthly p
  = (DataProcessor.mkProcessor
       (Some (DataProcessor.mkDailyData (DataProcessor.daily_date daily)
                (Some periods) (DataProcessor.daily_fields daily)))
       (Some md), Ok md).
Proof.
  intros Hdata Hcols periods keys value md.
  unfold DataProcessor.aggregate_monthly.
  rewrite bind_run. unfold get at 1. cbn beta iota.
  rewrite bind_run, lift_option_run, Hdata. cbn zeta.
  rewrite bind_run. unfold modify at 1. cbn beta iota.
  rewrite bind_run.
  rewrite (for_each_read_only _
             (fun '(name, f) =>
                (name,
                 map (fun k => DataProcessor.aggregate f
                                 (DataProcessor.period_group periods (value name) k))
                     keys))).
  - reflexivity.
  - intros [name f] Hin. rewrite bind_run, lift_option_run.
    cbn [DataProcessor.daily_fields].
    destruct (Hcols name) as [v Hv].
    { apply list_elem_of_fmap. by exists (name, f). }
    subst value. cbn beta. by rewrite Hv.
Qed.

(** X25.  On a loaded daily frame with the six columns it aggregates,
    [aggregate_monthly] returns the monthly frame it stores in
    [self.monthly_data].  The months of that frame are exactly the months
    of the daily dates, each once, in strictly increasing order; every
    column has one cell per month; and the [month] column holds the
    calendar months, so that the frame is one the engine does not have to
    complete. *)
Theorem aggregate_monthly_frame (p : DataProcessor.state)
    (daily : DataProcessor.DailyData) :
  DataProcessor.data p = Some daily ->
  (forall name, name ∈ map fst DataProcessor.monthly_agg ->
                is_Some (DataProcessor.daily_fields daily !! name)) ->
  exists p' md,
    DataProcessor.aggregate_monthly p = (p', Ok md) /\
    DataProcessor.monthly_data p' = Some md /\
    StronglySorted Z.lt (year_month md) /\
    (forall m, m ∈ year_month md <->
               exists d, d ∈ DataProcessor.daily_date daily /\ to_period d = m) /\
    wf_data md /\
    fields md !! "month" = Some (dt_month (year_month md)) /\
    derive_month md = md /\
    (forall name, name ∈ map fst DataProcessor.monthly_agg ->
                  is_Some (fields md !! name)).
Proof.
  intros Hdata Hcols.
  pose proof (aggregate_monthly_run p daily Hdata Hcols) as Hrun.
  cbn zeta in Hrun.
  set (periods := map to_period (DataProcessor.daily_date daily)) in *.
  set (keys := DataProcessor.period_keys periods) in *.
  destruct (period_keys_spec periods) as [Hsorted Hkeys]. fold keys in Hsorted, Hkeys.
  eexists _, _. split; [exact Hrun|].
  cbn [DataProcessor.monthly_data year_month fields].
  assert (Hmonth : (<["year" := map (fun k => of_Z (period_year k)) keys]>
                      (<["month" := dt_month keys]>
                         (list_to_map
                            (aggregated_columns periods
                               (fun name =>
                                  default []
                                    (DataProcessor.daily_fields daily !! name)))))
                    : gmap string (list num))
                   !! "month" = Some (dt_month keys)).
  { rewrite lookup_insert_ne by done. apply lookup_insert_eq. }
  split; [done|]. split; [done|]. split; [|split; [|split; [done|split]]].
  - intros m. rewrite Hkeys. subst periods. rewrite list_elem_of_fmap.
    split; intros (d & H1 & H2); exists d; by split.
  - intros c v Hv. cbn [year_month fields] in *.
    destruct (decide (c = "year")) as [->|Hy].
    { rewrite lookup_insert_eq in Hv. injection Hv as <-.
      by rewrite length_map. }
    rewrite lookup_insert_ne in Hv by done.
    destruct (decide (c = "month")) as [->|Hmo].
    { rewrite lookup_insert_eq in Hv. injection Hv as <-.
      unfold dt_month. by rewrite length_map. }
    rewrite lookup_insert_ne in Hv by done.
    apply elem_of_list_to_map_2 in Hv. unfold aggregated_columns in Hv.
    apply list_elem_of_fmap in Hv as ([name f] & Heq & _).
    injection Heq as -> ->. by rewrite length_map.
  - unfold derive_month. cbn [fields]. by rewrite Hmonth.
  - intros name Hname. cbn [fields].
    apply list_elem_of_fmap in Hname as ([name' f] & -> & Hin). cbn [fst].
    apply list_elem_of_lookup in Hin as [i Hi].
    unfold aggregated_columns, DataProcessor.monthly_agg. cbn [map].
    unfold list_to_map. cbn [foldr uncurry].
    repeat (destruct i as [|i];
            [injection Hi as <- <-; simplify_map_eq; eauto|]).
    done.
Qed.

Lemma for_each_first_raise {S A B : Type} (body : A -> M S B) (items : list A)
    (s : S) :
  (forall x, read_only (body x)) ->
  (exists x e, x ∈ items /\ body x s = (s, Raise e)) ->
  exists x e, x ∈ items /\ body x s = (s, Raise e) /\
              for_each body items s = (s, Raise e).
Proof.
  intros Hro. induction items as [|y rest IH]; intros (x & e & Hin & Hx).
  - by apply elem_of_nil in Hin.
  - cbn [for_each]. rewrite bind_run.
    pose proof (Hro y s) as Hy. destruct (body y s) as [s' [v|e']] eqn:E;
      cbn [fst] in Hy; subst s'.
    + apply elem_of_cons in Hin as [->|Hin]; [congruence|].
      destruct IH as (x' & e'' & Hin' & Hx' & Hrun); [eauto|].
      exists x', e''. split; [by apply list_elem_of_further|].
      split; [done|]. by rewrite bind_run, Hrun.
    + exists y, e'. split; [apply list_elem_of_here|]. done.
Qed.

(** X26.  [aggregate_monthly] raises [ValueError] when no data is loaded,
    leaving the processor as it was.  When the daily frame lacks one of the
    six columns it aggregates, it raises [KeyError]: by then the
    [year_month] column has been added to the daily frame, and
    [self.monthly_data] is what it was before the call. *)
Theorem aggregate_monthly_errors (p : DataProcessor.state) :
  (DataProcessor.data p = None ->
   DataProcessor.aggregate_monthly p = (p, Raise (ValueError "Data not loaded."))) /\
  (forall daily name,
     DataProcessor.data p = Some daily ->
     name ∈ map fst DataProcessor.monthly_agg ->
     DataProcessor.daily_fields daily !! name = None ->
     exists message,
       DataProcessor.aggregate_monthly p
       = (DataProcessor.mkProcessor
            (Some (DataProcessor.mkDailyData (DataProcessor.daily_date daily)
                     (Some (map to_period (DataProcessor.daily_date daily)))
                     (DataProcessor.daily_fields daily)))
            (DataProcessor.monthly_data p),
          Raise (KeyError message))).
Proof.
  split.
  - intros Hdata. unfold DataProcessor.aggregate_monthly.
    rewrite bind_run. unfold get at 1. cbn beta iota.
    by rewrite bind_run, lift_option_run, Hdata.
  - intros daily name Hdata Hname Hmissing.
    unfold DataProcessor.aggregate_monthly.
    rewrite bind_run. unfold get at 1. cbn beta iota.
    rewrite bind_run, lift_option_run, Hdata. cbn zeta.
    rewrite bind_run. unfold modify at 1. cbn beta iota.
    rewrite bind_run.
    match goal with
    | |- context [for_each ?body ?items ?s] =>
        destruct (for_each_first_raise body items s)
          as ([missing f] & e & Hin & Hx & Hrun)
    end.
    + intros [n f]. repeat read_only_step.
    + apply list_elem_of_fmap in Hname as ([n f] & -> & Hin).
      exists (n, f), (KeyError n). split; [done|].
      rewrite bind_run, lift_option_run. cbn [DataProcessor.daily_fields fst] in *.
      by rewrite Hmissing.
    + rewrite bind_run, lift_option_run in Hx.
      cbn [DataProcessor.daily_fields] in Hx.
      destruct (DataProcessor.daily_fields daily !! missing) eqn:E;
        [done|]. injection Hx as <-.
      exists missing. by rewrite Hrun.
Qed.

Lemma monthly_getitem_run (name : string) (p : DataProcessor.state) :
  DataProcessor.monthly_getitem name p
  = (p, match DataProcessor.monthly_data p with
        | None => Raise (ValueError "monthly_data is None")
        | Some md =>
            match fields md !! name with
            | Some v => Ok v
            | None => Raise (KeyError name)
            end
        end).
Proof.
  unfold DataProcessor.monthly_getitem. rewrite bind_run.
  unfold get at 1. cbn beta iota. rewrite bind_run, lift_option_run.
  destruct (DataProcessor.monthly_data p); [|done]. apply lift_option_run.
Qed.

Lemma days_outstanding_run (numerator denominator : string)
    (p : DataProcessor.state) (md : MonthlyData) (x y : list num) :
  DataProcessor.monthly_data p = Some md ->
  fields md !! numerator = Some x ->
  fields md !! denominator = Some y ->
  DataProcessor.days_outstanding numerator denominator p
  = (p, Ok (map (fun q => (q * of_Z 30)%num) (zip_with Num.div x y))).
Proof.
  intros Hmd Hx Hy. unfold DataProcessor.days_outstanding.
  rewrite bind_run, monthly_getitem_run, Hmd, Hx.
  by rewrite bind_run, monthly_getitem_run, Hmd, Hy.
Qed.

Lemma assign_monthly_run (name : string) (v : list num)
    (p : DataProcessor.state) (md : MonthlyData) :
  DataProcessor.monthly_data p = Some md ->
  DataProcessor.assign_monthly name v p
  = DataProcessor.mkProcessor (DataProcessor.data p)
      (Some (mkMonthlyData (year_month md) (<[name := v]> (fields md)))).
Proof. intros Hmd. unfold DataProcessor.assign_monthly. by rewrite Hmd. Qed.

Lemma kpis_rest_run (p : DataProcessor.state) (md : MonthlyData)
    (ar ci ap co inv : list num) :
  DataProcessor.monthly_data p = Some md ->
  fields md !! "accounts_receivable" = Some ar ->
  fields md !! "cash_inflow" = Some ci ->
  fields md !! "accounts_payable" = Some ap ->
  fields md !! "cash_outflow" = Some co ->
  fields md !! "inventory" = Some inv ->
  kpis_rest p
  = (DataProcessor.mkProcessor (DataProcessor.data p)
       (Some (kpi_frame md ar ci ap co inv)),
     Ok (kpi_frame md ar ci ap co inv)).
Proof.
  intros Hmd Har Hci Hap Hco Hinv. unfold kpis_rest.
  rewrite bind_run, (days_outstanding_run _ _ _ md ar ci) by done.
  rewrite bind_run. unfold modify at 1. cbn beta iota.
  rewrite (assign_monthly_run _ _ p md Hmd).
  rewrite bind_run.
  erewrite days_outstanding_run;
    [|reflexivity|cbn [fields]; by simplify_map_eq..].
  rewrite bind_run. unfold modify at 1. cbn beta iota.
  erewrite assign_monthly_run by reflexivity.
  cbn [DataProcessor.monthly_data DataProcessor.data year_month fields].
  rewrite bind_run.
  erewrite days_outstanding_run;
    [|reflexivity|cbn [fields]; by simplify_map_eq..].
  rewrite bind_run. unfold modify at 1. cbn beta iota.
  erewrite assign_monthly_run by reflexivity.
  cbn [DataProcessor.monthly_data DataProcessor.data year_month fields].
  rewrite bind_run, monthly_getitem_run.
  cbn [DataProcessor.monthly_data fields]. simplify_map_eq.
  rewrite bind_run, monthly_getitem_run.
  cbn [DataProcessor.monthly_data fields]. simplify_map_eq.
  rewrite bind_run, monthly_getitem_run.
  cbn [DataProcessor.monthly_data fields]. simplify_map_eq.
  reflexivity.
Qed.

Lemma calculate_kpis_some (p : DataProcessor.state) (md : MonthlyData) :
  DataProcessor.monthly_data p = Some md ->
  DataProcessor.calculate_kpis p = kpis_rest p.
Proof.
  intros Hmd. unfold DataProcessor.calculate_kpis.
  rewrite bind_run. unfold get at 1. cbn beta iota. by rewrite Hmd.
Qed.

Lemma calculate_kpis_none (p : DataProcessor.state) :
  DataProcessor.monthly_data p = None ->
  DataProcessor.calculate_kpis p
  = match DataProcessor.aggregate_monthly p with
    | (p1, Ok _) => kpis_rest p1
    | (p1, Raise e) => (p1, Raise e)
    end.
Proof.
  intros Hmd. unfold DataProcessor.calculate_kpis.
  rewrite bind_run. unfold get at 1. cbn beta iota. rewrite Hmd.
  rewrite !bind_run.
  by destruct (DataProcessor.aggregate_monthly p) as [p1 [md|e]].
Qed.

Lemma aggregate_monthly_stores (p p1 : DataProcessor.state) (md : MonthlyData) :
  DataProcessor.aggregate_monthly p = (p1, Ok md) ->
  DataProcessor.monthly_data p1 = Some md.
Proof.
  unfold DataProcessor.aggregate_monthly.
  rewrite bind_run. unfold get at 1. cbn beta iota.
  rewrite bind_run, lift_option_run.
  destruct (DataProcessor.data p) as [daily|]; [|done]. cbn zeta.
  rewrite bind_run. unfold modify at 1. cbn beta iota.
  rewrite bind_run.
  match goal with
  | |- context [for_each ?body ?items ?s] =>
      destruct (for_each body items s) as [s' [columns|e]]
  end; [|done].
  rewrite bind_run. unfold modify at 1. cbn beta iota.
  rewrite bind_run. unfold modify at 1. cbn beta iota.
  rewrite bind_run. unfold modify at 1. cbn beta iota.
  rewrite bind_run. unfold get at 1. cbn beta iota.
  rewrite lift_option_run.
  cbn [DataProcessor.assign_monthly DataProcessor.monthly_data].
  intros H. by injection H as <- <-.
Qed.

Lemma lookup_map {A B : Type} (f : A -> B) (l : list A) (i : nat) :
  map f l !! i = f <$> l !! i.
Proof. exact (list_lookup_fmap f l i). Qed.

Lemma zero_if_not_finite_finite (a : num) :
  is_finite (DataProcessor.zero_if_not_finite a).
Proof. by destruct a. Qed.

Lemma kpi_frame_lookup (md : MonthlyData) (ar ci ap co inv : list num)
    (c : string) :
  c ∉ kpi_columns ->
  fields (kpi_frame md ar ci ap co inv) !! c
  = map DataProcessor.zero_if_not_finite <$> fields md !! c.
Proof.
  intros Hc. unfold kpi_frame. cbn [fields]. rewrite lookup_fmap.
  rewrite !lookup_insert_ne; [done|..];
    intros <-; apply Hc; unfold kpi_columns; set_solver.
Qed.

(** X27.  On a processor that holds a monthly frame with the five columns
    it reads, [calculate_kpis] returns the frame it stores in
    [self.monthly_data], with the same months and the daily data untouched.
    The frame has the four KPI columns; every cell of every column is a
    finite number; a column that is not a KPI keeps its finite cells and
    has [0] where it had a missing or infinite one; and a frame with one
    cell per row and column stays so. *)
Theorem calculate_kpis_cells_finite (p : DataProcessor.state)
    (md : MonthlyData) :
  DataProcessor.monthly_data p = Some md ->
  (forall name, name ∈ kpi_inputs -> is_Some (fields md !! name)) ->
  exists p' md',
    DataProcessor.calculate_kpis p = (p', Ok md') /\
    DataProcessor.monthly_data p' = Some md' /\
    DataProcessor.data p' = DataProcessor.data p /\
    year_month md' = year_month md /\
    (forall c, c ∈ kpi_columns -> is_Some (fields md' !! c)) /\
    (forall c v, fields md' !! c = Some v -> Forall is_finite v) /\
    (forall c, c ∉ kpi_columns ->
               fields md' !! c
               = map DataProcessor.zero_if_not_finite <$> fields md !! c) /\
    (wf_data md -> wf_data md').
Proof.
  intros Hmd Hcols.
  destruct (Hcols "accounts_receivable") as [ar Har];
    [unfold kpi_inputs; set_solver|].
  destruct (Hcols "cash_inflow") as [ci Hci]; [unfold kpi_inputs; set_solver|].
  destruct (Hcols "accounts_payable") as [ap Hap];
    [unfold kpi_inputs; set_solver|].
  destruct (Hcols "cash_outflow") as [co Hco]; [unfold kpi_inputs; set_solver|].
  destruct (Hcols "inventory") as [inv Hinv]; [unfold kpi_inputs; set_solver|].
  rewrite (calculate_kpis_some p md Hmd).
  rewrite (kpis_rest_run p md ar ci ap co inv) by done.
  eexists _, _. split; [reflexivity|].
  split; [done|]. split; [done|]. split; [done|].
  split; [|split; [|split]].
  - intros c Hc. unfold kpi_frame. cbn [fields]. rewrite lookup_fmap.
    unfold kpi_columns in Hc.
    repeat (apply elem_of_cons in Hc as [->|Hc];
            [simplify_map_eq; eauto|]).
    by apply elem_of_nil in Hc.
  - intros c v. unfold kpi_frame. cbn [fields]. rewrite lookup_fmap.
    destruct (_ !! c) as [v0|]; [|done]. cbn. intros [= <-].
    apply Forall_forall. intros x Hx. apply list_elem_of_fmap in Hx as (a & -> & _).
    apply zero_if_not_finite_finite.
  - intros c Hc. by apply kpi_frame_lookup.
  - intros Hwf c v. unfold kpi_frame. cbn [fields year_month].
    rewrite lookup_fmap.
    pose proof (Hwf _ _ Har) as Lar. pose proof (Hwf _ _ Hci) as Lci.
    pose proof (Hwf _ _ Hap) as Lap. pose proof (Hwf _ _ Hco) as Lco.
    pose proof (Hwf _ _ Hinv) as Linv.
    destruct (decide (c = "cash_cycle")) as [->|H1].
    { rewrite lookup_insert_eq. cbn. intros [= <-].
      rewrite !length_map, !length_zip_with, !length_map, !length_zip_with.
      lia. }
    rewrite lookup_insert_ne by done.
    destruct (decide (c = "dio")) as [->|H2].
    { rewrite lookup_insert_eq. cbn. intros [= <-].
      rewrite !length_map, !length_zip_with. lia. }
    rewrite lookup_insert_ne by done.
    destruct (decide (c = "dpo")) as [->|H3].
    { rewrite lookup_insert_eq. cbn. intros [= <-].
      rewrite !length_map, !length_zip_with. lia. }
    rewrite lookup_insert_ne by done.
    destruct (decide (c = "dso")) as [->|H4].
    { rewrite lookup_insert_eq. cbn. intros [= <-].
      rewrite !length_map, !length_zip_with. lia. }
    rewrite lookup_insert_ne by done.
    destruct (fields md !! c) as [v0|] eqn:E; [|done]. cbn. intros [= <-].
    rewrite length_map. by apply (Hwf c).
Qed.

Lemma days_cell (a x : Q) :
  DataProcessor.zero_if_not_finite (Fin a / Fin x * of_Z 30)%num
  = if Qeq_bool x 0 then of_Z 0 else Fin (a / x * inject_Z 30).
Proof.
  cbn [div]. destruct (Qeq_bool x 0); [|reflexivity].
  unfold scale_inf. by destruct (a ?= 0)%Q.
Qed.

Lemma cycle_cell (a x b y c : Q) :
  DataProcessor.zero_if_not_finite
    (Fin a / Fin x * of_Z 30 + Fin c / Fin y * of_Z 30
     - Fin b / Fin y * of_Z 30)%num
  = if Qeq_bool x 0 || Qeq_bool y 0 then of_Z 0
    else Fin (a / x * inject_Z 30 + c / y * inject_Z 30
              + - (b / y * inject_Z 30)).
Proof.
  cbn [div]. destruct (Qeq_bool x 0), (Qeq_bool y 0); cbn [orb];
    unfold scale_inf;
    try destruct (a ?= 0)%Q; try destruct (b ?= 0)%Q;
    try destruct (c ?= 0)%Q; reflexivity.
Qed.

Lemma monthly_cell_inv (md : MonthlyData) (name : string) (i : nat) (v : num) :
  monthly_cell md name i = Some v ->
  exists col, fields md !! name = Some col /\ col !! i = Some v.
Proof.
  unfold monthly_cell. destruct (fields md !! name) as [col|]; [|done].
  cbn. eauto.
Qed.

(** X28.  On a row where the five columns [calculate_kpis] reads hold
    finite numbers, the KPI cells are: [dso = receivable / inflow * 30],
    [dpo = payable / outflow * 30], [dio = inventory / outflow * 30] and
    [cash_cycle = dso + dio - dpo], when inflow and outflow are not zero.
    A KPI whose denominator is zero is [0]; and [cash_cycle] is [0] as soon
    as one of the two denominators is zero, whatever the other KPIs of the
    row are. *)
Theorem calculate_kpis_row (p : DataProcessor.state) (md : MonthlyData)
    (i : nat) (a x b y c : Q) :
  DataProcessor.monthly_data p = Some md ->
  monthly_cell md "accounts_receivable" i = Some (Fin a) ->
  monthly_cell md "cash_inflow" i = Some (Fin x) ->
  monthly_cell md "accounts_payable" i = Some (Fin b) ->
  monthly_cell md "cash_outflow" i = Some (Fin y) ->
  monthly_cell md "inventory" i = Some (Fin c) ->
  exists p' md',
    DataProcessor.calculate_kpis p = (p', Ok md') /\
    monthly_cell md' "dso" i
    = Some (if Qeq_bool x 0 then of_Z 0 else Fin (a / x * inject_Z 30)) /\
    monthly_cell md' "dpo" i
    = Some (if Qeq_bool y 0 then of_Z 0 else Fin (b / y * inject_Z 30)) /\
    monthly_cell md' "dio" i
    = Some (if Qeq_bool y 0 then of_Z 0 else Fin (c / y * inject_Z 30)) /\
    monthly_cell md' "cash_cycle" i
    = Some (if Qeq_bool x 0 || Qeq_bool y 0 then of_Z 0
            else Fin (a / x * inject_Z 30 + c / y * inject_Z 30
                      + - (b / y * inject_Z 30))).
Proof.
  intros Hmd Ha Hx Hb Hy Hc.
  apply monthly_cell_inv in Ha as (ar & Har & Ha).
  apply monthly_cell_inv in Hx as (ci & Hci & Hx).
  apply monthly_cell_inv in Hb as (ap & Hap & Hb).
  apply monthly_cell_inv in Hy as (co & Hco & Hy).
  apply monthly_cell_inv in Hc as (inv & Hinv & Hc).
  rewrite (calculate_kpis_some p md Hmd).
  rewrite (kpis_rest_run p md ar ci ap co inv) by done.
  eexists _, _. split; [reflexivity|].
  unfold monthly_cell, kpi_frame. cbn [fields]. rewrite !lookup_fmap.
  simplify_map_eq. cbn [option_bind mbind option_fmap fmap option_map].
  rewrite !lookup_map, !lookup_zip_with, !lookup_map, !lookup_zip_with.
  rewrite Ha, Hx, Hb, Hy, Hc. cbn [option_bind mbind option_fmap fmap option_map].
  rewrite !days_cell. rewrite cycle_cell. done.
Qed.

(** X29.  On a processor with no monthly frame yet, [calculate_kpis] is
    [aggregate_monthly] followed by [calculate_kpis]: it stops with the
    error of the aggregation when there is one, and otherwise computes the
    KPIs on the aggregated frame. *)
Theorem calculate_kpis_aggregates_first (p : DataProcessor.state) :
  DataProcessor.monthly_data p = None ->
  DataProcessor.calculate_kpis p
  = (DataProcessor.aggregate_monthly;; DataProcessor.calculate_kpis)%method p.
Proof.
  intros Hmd. rewrite (calculate_kpis_none p Hmd), bind_run.
  destruct (DataProcessor.aggregate_monthly p) as [p1 [md|e]] eqn:E; [|done].
  symmetry. apply (calculate_kpis_some p1 md).
  by apply (aggregate_monthly_stores p).
Qed.

(** * Sample runs of the properties *)

(** Four months, a window of three. *)
Lemma moving_average_last_window_mean_witness :
  exists df,
    moving_average_forecast "net_cash_flow" 3 2
      (sample_state [600; 601; 602; 603] [10; 20; 30; 40])
    = (sample_state [600; 601; 602; 603] [10; 20; 30; 40], Ok df) /\
    cols df !! "forecast"
    = Some (replicate 2 (arithmetic_mean (map of_Z [20; 30; 40]))) /\
    map to_period (date df) = months_after 603 2 /\
    method df = "Moving Average".
Proof.
  apply (moving_average_last_window_mean
           (sample_state [600; 601; 602; 603] [10; 20; 30; 40])
           "net_cash_flow" 3 2 (map of_Z [10; 20; 30; 40]) 603).
  - vm_compute; reflexivity.
  - vm_compute; reflexivity.
  - lia.
  - simpl. lia.
  - cbn. repeat constructor.
Defined.

(** The twelve months of 2020: the forecast of January 2021 is the value
    of January 2020. *)
Lemma seasonal_naive_reuses_last_year_witness :
  exists s' df,
    seasonal_naive_forecast "net_cash_flow" 2
      (sample_state (consecutive_months 600 12)
         [1; 2; 3; 4; 5; 6; 7; 8; 9; 10; 11; 12]) = (s', Ok df) /\
    forecast_at df 0 = Some (of_Z 1).
Proof.
  apply (seasonal_naive_reuses_last_year
           (sample_state (consecutive_months 600 12)
              [1; 2; 3; 4; 5; 6; 7; 8; 9; 10; 11; 12])
           "net_cash_flow" 2 0 0 611
           (map of_Z [1; 2; 3; 4; 5; 6; 7; 8; 9; 10; 11; 12]) (of_Z 1)).
  - vm_compute; reflexivity.
  - vm_compute; reflexivity.
  - lia.
  - vm_compute; reflexivity.
  - intros j p Hj. lia.
  - vm_compute; reflexivity.
Defined.

Lemma seasonal_naive_repeats_last_twelve_witness :
  exists s' df v,
    seasonal_naive_forecast "net_cash_flow" 3
      (sample_state (consecutive_months 600 12)
         [1; 2; 3; 4; 5; 6; 7; 8; 9; 10; 11; 12]) = (s', Ok df) /\
    map of_Z [1; 2; 3; 4; 5; 6; 7; 8; 9; 10; 11; 12] !! (12 - 12 + 1)%nat
    = Some v /\
    forecast_at df 1 = Some v.
Proof.
  apply (seasonal_naive_repeats_last_twelve
           (sample_state (consecutive_months 600 12)
              [1; 2; 3; 4; 5; 6; 7; 8; 9; 10; 11; 12])
           "net_cash_flow" 3 1 12 600
           (map of_Z [1; 2; 3; 4; 5; 6; 7; 8; 9; 10; 11; 12])).
  - reflexivity.
  - vm_compute; reflexivity.
  - reflexivity.
  - lia.
  - lia.
  - lia.
Defined.


(** Twenty-four consecutive months: the sample fit succeeds. *)
Lemma exponential_smoothing_gap_free_witness :
  exists df,
    exponential_smoothing_forecast sample_fit "net_cash_flow" 2
      (sample_state (consecutive_months 600 24) gapped_values)
    = (sample_state (consecutive_months 600 24) gapped_values, Ok df) /\
    date df = dates_after 623 2 /\
    iloc_last (consecutive_months 600 24) = Some 623 /\
    cols df !! "forecast"
    = Some (map (fun _ => Num.mean (map of_Z gapped_values)) (seq 1 2)) /\
    method df = "Exponential Smoothing".
Proof.
  apply (exponential_smoothing_gap_free sample_fit
           (sample_state (consecutive_months 600 24) gapped_values)
           "net_cash_flow" 2 23 600 (map of_Z gapped_values)
           (fun steps =>
              if (steps =? 0)%nat
              then inl "Prediction must have `end` after `start`."
              else inr (fun _ => Num.mean (map of_Z gapped_values)))
           (fun _ => Num.mean (map of_Z gapped_values))).
  - reflexivity.
  - vm_compute; reflexivity.
  - reflexivity.
  - reflexivity.
  - reflexivity.
Defined.

Lemma ensemble_short_series_is_nan_witness :
  exists s' df,
    ensemble_forecast sample_fit "net_cash_flow" 2
      (sample_state [600; 601] [10; 20]) = (s', Ok df) /\
    length (date df) = 2%nat /\
    forall i, (i < 2)%nat -> forecast_at df i = Some NaN.
Proof.
  apply (ensemble_short_series_is_nan sample_fit
           (sample_state [600; 601] [10; 20]) "net_cash_flow" 2
           (map of_Z [10; 20])).
  - vm_compute; reflexivity.
  - reflexivity.
  - discriminate.
  - simpl. lia.
Defined.

Lemma confidence_intervals_frame_witness :
  exists df',
    calculate_confidence_intervals floor_sqrt (one_entry_frame (Fin 100))
      "net_cash_flow" (sample_state [600; 601] [10; 20])
    = (sample_state [600; 601] [10; 20], Ok df') /\
    date df' = date (one_entry_frame (Fin 100)) /\
    method df' = method (one_entry_frame (Fin 100)) /\
    (forall key, key ∉ band_columns ->
                 cols df' !! key = cols (one_entry_frame (Fin 100)) !! key) /\
    (exists f, cols (one_entry_frame (Fin 100)) !! "forecast" = Some f /\
       forall key, key ∈ band_columns ->
         exists v, cols df' !! key = Some v /\ length v = length f).
Proof.
  eexists. split; [vm_compute; reflexivity|].
  refine (proj2 (confidence_intervals_frame floor_sqrt
                   (one_entry_frame (Fin 100)) _ "net_cash_flow"
                   (sample_state [600; 601] [10; 20])
                   (sample_state [600; 601] [10; 20]) _)).
  vm_compute; reflexivity.
Defined.

Lemma scenarios_and_intervals_commute_witness :
  exists d1 d2,
    (do d <- scenario_analysis (one_entry_frame (Fin 100)) None;
     calculate_confidence_intervals floor_sqrt d "net_cash_flow")
      (sample_state [600; 601] [10; 20])
    = (sample_state [600; 601] [10; 20], Ok d1) /\
    (do d <- calculate_confidence_intervals floor_sqrt
               (one_entry_frame (Fin 100)) "net_cash_flow";
     scenario_analysis d None) (sample_state [600; 601] [10; 20])
    = (sample_state [600; 601] [10; 20], Ok d2) /\
    date d1 = date d2 /\
    method d1 = method d2 /\
    forall key, cols d1 !! key = cols d2 !! key.
Proof.
  apply (scenarios_and_intervals_commute floor_sqrt (one_entry_frame (Fin 100))
           "net_cash_flow" None (sample_state [600; 601] [10; 20])).
  - eexists. vm_compute; reflexivity.
  - eexists. vm_compute; reflexivity.
Defined.

Lemma scenario_analysis_idempotent_witness :
  (do d <- scenario_analysis (one_entry_frame (Fin 100)) None;
   scenario_analysis d None) (sample_state [600; 601] [10; 20])
  = scenario_analysis (one_entry_frame (Fin 100)) None
      (sample_state [600; 601] [10; 20]).
Proof.
  apply (scenario_analysis_idempotent (one_entry_frame (Fin 100)) None
           (sample_state [600; 601] [10; 20])).
  apply (bool_decide_unpack _). vm_compute. exact I.
Defined.

(** Four months and a period of twelve: the library is called with a
    period of two. *)
Lemma decompose_time_series_period_witness :
  let a := sample_analyzer [600; 601; 602; 603] [10; 20; 30; 40] in
  let p := effective_period 4 12 in
  SeasonalAnalyzer.decompose_time_series sample_decompose "net_cash_flow" 12 a
  = match sample_decompose (map of_Z [10; 20; 30; 40]) p with
    | inr r =>
        (SeasonalAnalyzer.mkAnalyzer (SeasonalAnalyzer.data a) (Some r)
           (SeasonalAnalyzer.seasonal_stats a), Ok r)
    | inl msg => (a, Raise (LibraryError msg))
    end /\
  (2 * 12 <= 4 -> p = 12) /\
  (4 < 2 * 12 -> 1 <= p /\ (2 <= 4 -> 2 * p <= 4)) /\
  (12 <= 0 -> p = 12).
Proof.
  apply (decompose_time_series_period sample_decompose
           (sample_analyzer [600; 601; 602; 603] [10; 20; 30; 40])
           "net_cash_flow" 12 (map of_Z [10; 20; 30; 40])).
  - discriminate.
  - vm_compute; reflexivity.
  - reflexivity.
Defined.

(** Two Januaries and a February. *)
Lemma analyze_seasonality_months_witness :
  exists a' stats,
    SeasonalAnalyzer.analyze_seasonality floor_sqrt "net_cash_flow"
      (sample_analyzer [600; 601; 612] [10; 20; 30]) = (a', Ok stats) /\
    let months :=
      map SeasonalAnalyzer.month (SeasonalAnalyzer.monthly_stats stats) in
    StronglySorted num_lt months /\
    (forall m, m ∈ months -> m ∈ map of_Z [1; 2; 1] /\ Num.notna m = true) /\
    (forall x, x ∈ map of_Z [1; 2; 1] -> Num.notna x = true ->
               exists m, m ∈ months /\ Num.eqb x m = true).
Proof.
  eexists _, _. split; [vm_compute; reflexivity|].
  eapply (analyze_seasonality_months floor_sqrt "net_cash_flow"
           (sample_analyzer [600; 601; 612] [10; 20; 30]) _ _
           (map of_Z [1; 2; 1])).
  - vm_compute; reflexivity.
  - vm_compute; reflexivity.
Defined.

Lemma analyze_seasonality_peak_trough_witness :
  exists a' stats,
    SeasonalAnalyzer.analyze_seasonality floor_sqrt "net_cash_flow"
      (sample_analyzer [600; 601; 612] [10; 20; 30]) = (a', Ok stats) /\
    SeasonalAnalyzer.peak_month stats = of_Z 1 /\
    SeasonalAnalyzer.trough_month stats = of_Z 1 /\
    let rows := SeasonalAnalyzer.monthly_stats stats in
    (exists i r,
       rows !! i = Some r /\
       SeasonalAnalyzer.month r = SeasonalAnalyzer.peak_month stats /\
       (forall r', r' ∈ rows -> Num.notna (SeasonalAnalyzer.mean r') = true ->
                   Num.leb (SeasonalAnalyzer.mean r') (SeasonalAnalyzer.mean r) = true) /\
       (forall j r', (j < i)%nat -> rows !! j = Some r' ->
                     Num.notna (SeasonalAnalyzer.mean r') = true ->
                     num_lt (SeasonalAnalyzer.mean r') (SeasonalAnalyzer.mean r))) /\
    (exists i r,
       rows !! i = Some r /\
       SeasonalAnalyzer.month r = SeasonalAnalyzer.trough_month stats /\
       (forall r', r' ∈ rows -> Num.notna (SeasonalAnalyzer.mean r') = true ->
                   Num.leb (SeasonalAnalyzer.mean r) (SeasonalAnalyzer.mean r') = true) /\
       (forall j r', (j < i)%nat -> rows !! j = Some r' ->
                     Num.notna (SeasonalAnalyzer.mean r') = true ->
                     num_lt (SeasonalAnalyzer.mean r) (SeasonalAnalyzer.mean r'))).
Proof.
  eexists _, _. split; [vm_compute; reflexivity|].
  split; [vm_compute; reflexivity|]. split; [vm_compute; reflexivity|].
  eapply (analyze_seasonality_peak_trough floor_sqrt "net_cash_flow"
           (sample_analyzer [600; 601; 612] [10; 20; 30])).
  vm_compute; reflexivity.
Defined.

Lemma seasonal_index_weighted_mean_witness :
  exists a' stats,
    SeasonalAnalyzer.analyze_seasonality floor_sqrt "net_cash_flow"
      (sample_analyzer [600; 601; 612] [10; 20; 30]) = (a', Ok stats) /\
    let rows := SeasonalAnalyzer.monthly_stats stats in
    Num.same
      (Num.sum (map (fun r => (SeasonalAnalyzer.count r
                               * SeasonalAnalyzer.seasonal_index r)%num) rows))
      (of_nat 3) /\
    Num.same (Num.sum (map SeasonalAnalyzer.count rows)) (of_nat 3).
Proof.
  eexists _, _. split; [vm_compute; reflexivity|].
  eapply (seasonal_index_weighted_mean floor_sqrt "net_cash_flow"
           (sample_analyzer [600; 601; 612] [10; 20; 30]) _ _
           (map of_Z [1; 2; 1]) (map of_Z [10; 20; 30])).
  - vm_compute; reflexivity.
  - vm_compute; reflexivity.
  - vm_compute; reflexivity.
  - cbn. repeat constructor.
  - cbn. repeat constructor.
  - reflexivity.
  - vm_compute; reflexivity.
Defined.

Lemma trend_analysis_report_witness :
  exists t,
    SeasonalAnalyzer.trend_analysis sample_linregress sample_adfuller
      "net_cash_flow" (sample_analyzer [600; 601; 602] [10; 20; 30])
    = (sample_analyzer [600; 601; 602] [10; 20; 30], Ok t) /\
    SeasonalAnalyzer.slope t = of_Z 10 /\
    SeasonalAnalyzer.r_squared t = (of_Z 1 * of_Z 1)%num /\
    SeasonalAnalyzer.adf_p_value t = Fin (1 # 2) /\
    SeasonalAnalyzer.is_stationary t = Num.ltb (Fin (1 # 2)) (Fin (5 # 100)) /\
    (Fin (1 # 2) = NaN -> SeasonalAnalyzer.is_stationary t = false) /\
    (Num.eqb (of_Z 10) (of_Z 0) = true ->
     SeasonalAnalyzer.total_change_percent t = PosInf /\
     SeasonalAnalyzer.monthly_growth_rate_percent t = PosInf) /\
    (Num.eqb (of_Z 10) (of_Z 0) = false ->
     SeasonalAnalyzer.total_change_percent t
     = ((of_Z 30 - of_Z 10) / Num.abs (of_Z 10) * of_Z 100)%num /\
     SeasonalAnalyzer.monthly_growth_rate_percent t
     = (of_Z 10 / Num.abs (of_Z 10) * of_Z 100)%num).
Proof.
  apply (trend_analysis_report sample_linregress sample_adfuller
           (sample_analyzer [600; 601; 602] [10; 20; 30]) "net_cash_flow"
           (map of_Z [10; 20; 30]) (of_Z 10) (of_Z 30)
           (of_Z 10) (of_Z 0) (of_Z 1) (of_Z 0) (of_Z 0) (Fin (1 # 2))).
  - vm_compute; reflexivity.
  - reflexivity.
  - reflexivity.
  - reflexivity.
  - reflexivity.
Defined.

(** Two days of January 2020 and one of February. *)
Lemma aggregate_monthly_frame_witness :
  exists p' md,
    DataProcessor.aggregate_monthly
      (sample_processor [day_jan 1; day_jan 2; day_feb 1] [10; 20; 30])
    = (p', Ok md) /\
    DataProcessor.monthly_data p' = Some md /\
    StronglySorted Z.lt (year_month md) /\
    (forall m, m ∈ year_month md <->
               exists d, d ∈ DataProcessor.daily_date
                               (sample_daily [day_jan 1; day_jan 2; day_feb 1]
                                  [10; 20; 30]) /\
                         to_period d = m) /\
    wf_data md /\
    fields md !! "month" = Some (dt_month (year_month md)) /\
    derive_month md = md /\
    (forall name, name ∈ map fst DataProcessor.monthly_agg ->
                  is_Some (fields md !! name)).
Proof.
  apply (aggregate_monthly_frame
           (sample_processor [day_jan 1; day_jan 2; day_feb 1] [10; 20; 30])
           (sample_daily [day_jan 1; day_jan 2; day_feb 1] [10; 20; 30])).
  - reflexivity.
  - intros name Hin. unfold DataProcessor.monthly_agg in Hin.
    cbn [map fst] in Hin.
    repeat (apply elem_of_cons in Hin as [->|Hin];
            [eexists; vm_compute; reflexivity|]).
    by apply elem_of_nil in Hin.
Defined.

(** Two months; on the second every input is zero. *)
Lemma calculate_kpis_cells_finite_witness :
  exists p' md',
    DataProcessor.calculate_kpis (sample_monthly [600; 601] [10; 0])
    = (p', Ok md') /\
    DataProcessor.monthly_data p' = Some md' /\
    DataProcessor.data p'
    = DataProcessor.data (sample_monthly [600; 601] [10; 0]) /\
    year_month md' = year_month (sample_frame [600; 601] [10; 0]) /\
    (forall c, c ∈ kpi_columns -> is_Some (fields md' !! c)) /\
    (forall c v, fields md' !! c = Some v -> Forall is_finite v) /\
    (forall c, c ∉ kpi_columns ->
               fields md' !! c
               = map DataProcessor.zero_if_not_finite
                   <$> fields (sample_frame [600; 601] [10; 0]) !! c) /\
    (wf_data (sample_frame [600; 601] [10; 0]) -> wf_data md').
Proof.
  apply (calculate_kpis_cells_finite (sample_monthly [600; 601] [10; 0])
           (sample_frame [600; 601] [10; 0])).
  - reflexivity.
  - intros name Hin. unfold kpi_inputs in Hin.
    repeat (apply elem_of_cons in Hin as [->|Hin];
            [eexists; vm_compute; reflexivity|]).
    by apply elem_of_nil in Hin.
Defined.

Lemma calculate_kpis_row_witness :
  exists p' md',
    DataProcessor.calculate_kpis (sample_monthly [600; 601] [10; 0])
    = (p', Ok md') /\
    monthly_cell md' "dso" 0
    = Some (if Qeq_bool (inject_Z 10) 0 then of_Z 0
            else Fin (inject_Z 10 / inject_Z 10 * inject_Z 30)) /\
    monthly_cell md' "dpo" 0
    = Some (if Qeq_bool (inject_Z 10) 0 then of_Z 0
            else Fin (inject_Z 10 / inject_Z 10 * inject_Z 30)) /\
    monthly_cell md' "dio" 0
    = Some (if Qeq_bool (inject_Z 10) 0 then of_Z 0
            else Fin (inject_Z 10 / inject_Z 10 * inject_Z 30)) /\
    monthly_cell md' "cash_cycle" 0
    = Some (if Qeq_bool (inject_Z 10) 0 || Qeq_bool (inject_Z 10) 0 then of_Z 0
            else Fin (inject_Z 10 / inject_Z 10 * inject_Z 30
                      + inject_Z 10 / inject_Z 10 * inject_Z 30
                      + - (inject_Z 10 / inject_Z 10 * inject_Z 30))).
Proof.
  apply (calculate_kpis_row (sample_monthly [600; 601] [10; 0])
           (sample_frame [600; 601] [10; 0]) 0
           (inject_Z 10) (inject_Z 10) (inject_Z 10) (inject_Z 10)
           (inject_Z 10));
    vm_compute; reflexivity.
Defined.

Lemma calculate_kpis_aggregates_first_witness :
  DataProcessor.calculate_kpis
    (sample_processor [day_jan 1; day_jan 2; day_feb 1] [10; 20; 30])
  = (DataProcessor.aggregate_monthly;; DataProcessor.calculate_kpis)
      (sample_processor [day_jan 1; day_jan 2; day_feb 1] [10; 20; 30]).
Proof.
  apply (calculate_kpis_aggregates_first
           (sample_processor [day_jan 1; day_jan 2; day_feb 1] [10; 20; 30])).
  reflexivity.
Defined.
